(** * review-database.py: duplicate detection and owner statistics over
      scanned DynamoDB tables

    A shallow embedding of [scripts/review-database.py]: the paginated
    [scan_table], the two analysers [analyze_accounts] and
    [analyze_transactions], and the orchestration in [main]. *)

From stdpp Require Import gmap strings list fin_maps sorting.

Open Scope string_scope.
Open Scope list_scope.
Open Scope nat_scope.
Set Warnings "-register-all,-clear-no-such-hyp".

(** ** Data model *)

(** A DynamoDB attribute value in the wire format of the low-level boto3
    client: a one-key dictionary whose key is the type tag. *)
Inductive AttributeValue : Type :=
| AttrS (s : string)
| AttrN (n : string)
| AttrB (b : string)
| AttrBOOL (b : bool)
| AttrNULL (b : bool)
| AttrSS (ss : list string)
| AttrNS (ns : list string)
| AttrBS (bs : list string)
| AttrL (l : list AttributeValue)
| AttrM (m : list (string * AttributeValue)).

(** An item is a dictionary from attribute names to attribute values; a
    pagination key ([LastEvaluatedKey]) has the same shape. *)
Abbreviation Item := (gmap string AttributeValue).
Abbreviation Key := (gmap string AttributeValue).

(** [item.get(name, {}).get('S')] *)
Definition get_S (name : string) (item : Item) : option string :=
  match item !! name with
  | Some (AttrS s) => Some s
  | _ => None
  end.

(** [item.get(name, {}).get('S', d)] *)
Definition get_S_default (name d : string) (item : Item) : string :=
  default d (get_S name item).

(** [item.get(name, {}).get('BOOL', d)] *)
Definition get_BOOL_default (name : string) (d : bool) (item : Item) : bool :=
  match item !! name with
  | Some (AttrBOOL b) => b
  | _ => d
  end.

(** Truth value of an optional string: [None] and [''] are false. *)
Definition truthy (o : option string) : bool :=
  match o with
  | Some s => negb (String.eqb s "")
  | None => false
  end.

(** [m[k].append(item)] on a [defaultdict(list)] *)
Definition append_to (k : string) (item : Item)
    (m : gmap string (list Item)) : gmap string (list Item) :=
  <[k := default [] (m !! k) ++ [item]]> m.

(** [m[k] += 1] on a [defaultdict(int)] *)
Definition increment (k : string) (m : gmap string nat) : gmap string nat :=
  <[k := default 0 (m !! k) + 1]> m.

(** [if v: m[v].append(item)] *)
Definition append_if (v : option string) (item : Item)
    (m : gmap string (list Item)) : gmap string (list Item) :=
  match v with
  | Some k => if truthy v then append_to k item m else m
  | None => m
  end.

(** The "Find duplicates" loops: copy the entries whose group has more
    than one member into a fresh dictionary. *)
Definition find_duplicates (m : gmap string (list Item)) : gmap string (list Item) :=
  filter (λ kg, 1 < length kg.2) m.

(** ** analyze_accounts *)

Record AccountsLoop := {
  al_account_id_map : gmap string (list Item);
  al_plaid_id_map : gmap string (list Item);
  al_by_user : gmap string nat;
  al_active : nat;
  al_inactive : nat
}.

Definition accounts_init : AccountsLoop :=
  {| al_account_id_map := ∅; al_plaid_id_map := ∅; al_by_user := ∅;
     al_active := 0; al_inactive := 0 |}.

(** One iteration of [for item in items] in [analyze_accounts]. *)
Definition accounts_body (st : AccountsLoop) (item : Item) : AccountsLoop :=
  let account_id := get_S "accountId" item in
  let plaid_id := get_S "plaidAccountId" item in
  let user_id := get_S_default "userId" "N/A" item in
  let active := get_BOOL_default "active" true item in
  {| al_account_id_map := append_if account_id item (al_account_id_map st);
     al_plaid_id_map := append_if plaid_id item (al_plaid_id_map st);
     al_by_user := increment user_id (al_by_user st);
     al_active := if active then al_active st + 1 else al_active st;
     al_inactive := if active then al_inactive st else al_inactive st + 1 |}.

Record AccountsAnalysis := {
  acc_total : nat;
  acc_duplicate_account_ids : gmap string (list Item);
  acc_duplicate_plaid_ids : gmap string (list Item);
  acc_by_user : gmap string nat;
  acc_active : nat;
  acc_inactive : nat
}.

(** The state after [for item in items: ...] in [analyze_accounts]. *)
Definition accounts_loop (items : list Item) : AccountsLoop :=
  fold_left accounts_body items accounts_init.

Definition analyze_accounts (items : list Item) : AccountsAnalysis :=
  let st := accounts_loop items in
  {| acc_total := length items;
     acc_duplicate_account_ids := find_duplicates (al_account_id_map st);
     acc_duplicate_plaid_ids := find_duplicates (al_plaid_id_map st);
     acc_by_user := al_by_user st;
     acc_active := al_active st;
     acc_inactive := al_inactive st |}.

(** ** analyze_transactions *)

Record TransactionsLoop := {
  tl_transaction_id_map : gmap string (list Item);
  tl_plaid_id_map : gmap string (list Item);
  tl_by_user : gmap string nat;
  tl_by_account : gmap string nat
}.

Definition transactions_init : TransactionsLoop :=
  {| tl_transaction_id_map := ∅; tl_plaid_id_map := ∅;
     tl_by_user := ∅; tl_by_account := ∅ |}.

(** One iteration of [for item in items] in [analyze_transactions]. *)
Definition transactions_body (st : TransactionsLoop) (item : Item) : TransactionsLoop :=
  let trans_id := get_S "transactionId" item in
  let plaid_id := get_S "plaidTransactionId" item in
  let user_id := get_S_default "userId" "N/A" item in
  let account_id := get_S_default "accountId" "N/A" item in
  {| tl_transaction_id_map := append_if trans_id item (tl_transaction_id_map st);
     tl_plaid_id_map := append_if plaid_id item (tl_plaid_id_map st);
     tl_by_user := increment user_id (tl_by_user st);
     tl_by_account := increment account_id (tl_by_account st) |}.

Record TransactionsAnalysis := {
  tr_total : nat;
  tr_duplicate_transaction_ids : gmap string (list Item);
  tr_duplicate_plaid_ids : gmap string (list Item);
  tr_by_user : gmap string nat;
  tr_by_account : gmap string nat
}.

(** The state after [for item in items: ...] in [analyze_transactions]. *)
Definition transactions_loop (items : list Item) : TransactionsLoop :=
  fold_left transactions_body items transactions_init.

Definition analyze_transactions (items : list Item) : TransactionsAnalysis :=
  let st := transactions_loop items in
  {| tr_total := length items;
     tr_duplicate_transaction_ids := find_duplicates (tl_transaction_id_map st);
     tr_duplicate_plaid_ids := find_duplicates (tl_plaid_id_map st);
     tr_by_user := tl_by_user st;
     tr_by_account := tl_by_account st |}.

(** ** Per-field constructions

    The index of one identity field and the tally of one owner field, each
    built by a traversal of its own.  [key] reads the field off an item. *)

Definition index_of (key : Item → option string) (items : list Item)
    : gmap string (list Item) :=
  fold_left (λ m item, append_if (key item) item m) items ∅.

Definition tally_of (owner : Item → string) (items : list Item)
    : gmap string nat :=
  fold_left (λ m item, increment (owner item) m) items ∅.

(** The index of [field] as the loops fill it, taken on its own: the
    fold of the loop's insertion over the stream. *)
Definition field_index (field : string) (items : list Item)
    : gmap string (list Item) :=
  index_of (get_S field) items.

(** The owner aggregate of [field] as the loops fill it, taken on its
    own: the fold of the loop's increment over the stream. *)
Definition field_aggregate (field : string) (items : list Item)
    : gmap string nat :=
  tally_of (get_S_default field "N/A") items.

(** The records holding value [k], in scan order. *)
Definition holders (key : Item → option string) (k : string)
    (items : list Item) : list Item :=
  filter (λ item, key item = Some k) items.

(** All members of all groups of a dictionary of groups. *)
Definition members (m : gmap string (list Item)) : list Item :=
  concat (map_to_list m).*2.

(** Sum of the counts of a tally. *)
Definition tally_sum (m : gmap string nat) : nat :=
  sum_list (map_to_list m).*2.

(** The records whose value is non-empty and satisfies [Q]. *)
Definition keyed (key : Item → option string) (Q : string → Prop) (item : Item) : Prop :=
  match key item with
  | Some k => k ≠ "" ∧ Q k
  | None => False
  end.

#[global] Instance keyed_dec key Q `{!∀ k, Decision (Q k)} item :
  Decision (keyed key Q item).
Proof. unfold keyed. destruct (key item); apply _. Defined.

(** The record has no usable value: its field is missing, is not a
    string, or is the empty string. *)
Definition unusable (key : Item → option string) (item : Item) : Prop :=
  truthy (key item) = false.

(** The record's value is non-empty and held by exactly one record. *)
Definition unique_value (key : Item → option string) (items : list Item)
    (item : Item) : Prop :=
  keyed key (λ k, length (holders key k items) = 1) item.

(** The record's value is non-empty and held by at least two records. *)
Definition shared_value (key : Item → option string) (items : list Item)
    (item : Item) : Prop :=
  keyed key (λ k, 1 < length (holders key k items)) item.

#[global] Instance unusable_dec key item : Decision (unusable key item).
Proof. unfold unusable. apply _. Defined.

#[global] Instance unique_value_dec key items item :
  Decision (unique_value key items item).
Proof. unfold unique_value. apply _. Defined.

#[global] Instance shared_value_dec key items item :
  Decision (shared_value key items item).
Proof. unfold shared_value. apply _. Defined.


(** The records whose owner bucket is [k]. *)
Definition owned_by (owner : Item → string) (k : string)
    (items : list Item) : list Item :=
  filter (λ item, owner item = k) items.


(** ** The environment: DynamoDB and the file system *)

(** An exception, identified by its message. *)
Definition Exception : Type := string.

(** The response of a [scan] call; both entries may be missing. *)
Record ScanResponse := {
  Items : option (list Item);
  LastEvaluatedKey : option Key
}.

(** How a [describe_table] call ends: with a response, of which only
    [response['Table'].get('ItemCount')] is read, with
    [ResourceNotFoundException], or with another exception. *)
Inductive DescribeResult : Type :=
| Described (item_count : option nat)
| ResourceNotFoundException
| DescribeFailed (e : Exception).

(** What is written by [json.dump(analysis, f, ...)]. *)
Inductive Report : Type :=
| AccountsReport (analysis : AccountsAnalysis)
| TransactionsReport (analysis : TransactionsAnalysis).

(** The collaborators of the script, as transitions of one environment:
    the boto3 client ([boto3.client], [describe_table], [scan]) and the
    file system ([os.makedirs], [open] and [json.dump] together). *)
Record Backend (Env : Type) := {
  connect : string → Env → option Exception * Env;
  describe_table : string → Env → DescribeResult * Env;
  scan : string → option Key → Env → (Exception + ScanResponse) * Env;
  write_json : string → Report → Env → option Exception * Env
}.
Arguments connect {Env}.
Arguments describe_table {Env}.
Arguments scan {Env}.
Arguments write_json {Env}.

(** What the script prints. *)
Inductive Output : Type :=
| Header (text : string)
| Banner (region table_prefix : string)
| ClientInitFailed (e : Exception)
| TableExists (table : string) (item_count : option nat)
| TableMissing (table : string)
| TableCheckError (table : string) (e : Exception)
| Scanning (table_name : string)
| Found (n : nat)
| AccountAnalysis (analysis : AccountsAnalysis)
| TransactionAnalysis (analysis : TransactionsAnalysis)
| AnalyzeError (what : string) (e : Exception).

(** The observable steps of a run, in order. *)
Inductive Event : Type :=
| CallDescribeTable (table : string)
| CallScan (table_name : string) (exclusive_start_key : option Key)
| CallWriteJson (path : string) (report : Report)
| Print (out : Output).

(** The state a run threads: the environment and the events so far. *)
Record World (Env : Type) := {
  env : Env;
  events : list Event
}.
Arguments env {Env}.
Arguments events {Env}.
Arguments Build_World {Env}.

(** How a computation ends.  [OutOfFuel] stands for a [while True] loop
    that has not left within the allotted number of iterations. *)
Inductive Outcome (A : Type) : Type :=
| Returned (a : A)
| Raised (e : Exception)
| OutOfFuel.
Arguments Returned {A}.
Arguments Raised {A}.
Arguments OutOfFuel {A}.

Definition M (Env A : Type) : Type := World Env → Outcome A * World Env.

#[global] Instance M_ret {Env} : MRet (M Env) :=
  λ A a w, (Returned a, w).

#[global] Instance M_bind {Env} : MBind (M Env) :=
  λ A B k m w,
    match m w with
    | (Returned a, w') => k a w'
    | (Raised e, w') => (Raised e, w')
    | (OutOfFuel, w') => (OutOfFuel, w')
    end.

(** [try: body / except Exception as e: handler(e)] *)
Definition try_except {Env A} (body : M Env A) (handler : Exception → M Env A)
    : M Env A :=
  λ w,
    match body w with
    | (Raised e, w') => handler e w'
    | r => r
    end.

Definition emit {Env} (ev : Event) : M Env unit :=
  λ w, (Returned tt, {| env := env w; events := events w ++ [ev] |}).

Definition print {Env} (out : Output) : M Env unit := emit (Print out).

(** [dynamodb_client.scan(TableName=..., ExclusiveStartKey=...)] *)
Definition call_scan {Env} (B : Backend Env) (table_name : string)
    (exclusive_start_key : option Key) : M Env ScanResponse :=
  λ w,
    let w1 := {| env := env w;
                 events := events w ++ [CallScan table_name exclusive_start_key] |} in
    match scan B table_name exclusive_start_key (env w) with
    | (inr response, env') => (Returned response, {| env := env'; events := events w1 |})
    | (inl e, env') => (Raised e, {| env := env'; events := events w1 |})
    end.

(** [dynamodb.describe_table(TableName=table)]; the two [except] clauses
    tell the exceptions apart, so the result is kept as it is. *)
Definition call_describe_table {Env} (B : Backend Env) (table : string)
    : M Env DescribeResult :=
  λ w,
    let '(r, env') := describe_table B table (env w) in
    (Returned r, {| env := env'; events := events w ++ [CallDescribeTable table] |}).

(** [os.makedirs(...)], [open(path, 'w')] and [json.dump(...)] *)
Definition call_write_json {Env} (B : Backend Env) (path : string)
    (report : Report) : M Env unit :=
  λ w,
    let w1 := {| env := env w; events := events w ++ [CallWriteJson path report] |} in
    match write_json B path report (env w) with
    | (None, env') => (Returned tt, {| env := env'; events := events w1 |})
    | (Some e, env') => (Raised e, {| env := env'; events := events w1 |})
    end.

(** Truth value of a pagination key: [None] and [{}] are false. *)
Definition key_truthy (k : option Key) : bool :=
  match k with
  | Some key => negb (size key =? 0)
  | None => false
  end.

(** ** scan_table *)

(** The [while True] loop of [scan_table], for at most [fuel]
    iterations. *)
Fixpoint scan_loop {Env} (B : Backend Env) (fuel : nat) (table_name : string)
    (items : list Item) (last_evaluated_key : option Key)
    : M Env (list Item) :=
  match fuel with
  | 0 => λ w, (OutOfFuel, w)
  | S fuel' =>
      response ← (if key_truthy last_evaluated_key
                  then call_scan B table_name last_evaluated_key
                  else call_scan B table_name None);
      let items := items ++ default [] (Items response) in
      let last_evaluated_key := LastEvaluatedKey response in
      if negb (key_truthy last_evaluated_key)
      then mret items
      else scan_loop B fuel' table_name items last_evaluated_key
  end.

Definition scan_table {Env} (B : Backend Env) (fuel : nat) (table_name : string)
    : M Env (list Item) :=
  print (Scanning table_name);;
  items ← scan_loop B fuel table_name [] None;
  print (Found (length items));;
  mret items.

(** ** main *)

Record Args := {
  region : string;
  table_prefix : string;
  output_dir : option string
}.

(** [boto3.client('dynamodb', region_name=args.region)] *)
Definition call_connect {Env} (B : Backend Env) (region : string)
    : M Env (option Exception) :=
  λ w,
    let '(r, env') := connect B region (env w) in
    (Returned r, {| env := env'; events := events w |}).

(** The tables to review. *)
Definition tables (args : Args) : list string :=
  [ table_prefix args +:+ "-Users";
    table_prefix args +:+ "-Accounts";
    table_prefix args +:+ "-Transactions";
    table_prefix args +:+ "-Budgets";
    table_prefix args +:+ "-Goals";
    table_prefix args +:+ "-AuditLogs" ].

(** One iteration of [for table in tables] of step 1. *)
Definition check_table {Env} (B : Backend Env) (existing_tables : list string)
    (table : string) : M Env (list string) :=
  r ← call_describe_table B table;
  match r with
  | Described item_count =>
      print (TableExists table item_count);;
      mret (existing_tables ++ [table])
  | ResourceNotFoundException =>
      print (TableMissing table);;
      mret existing_tables
  | DescribeFailed e =>
      print (TableCheckError table e);;
      mret existing_tables
  end.

(** Step 1: the loop over the tables, from [existing_tables]. *)
Fixpoint check_tables {Env} (B : Backend Env) (tables : list string)
    (existing_tables : list string) : M Env (list string) :=
  match tables with
  | [] => mret existing_tables
  | table :: rest =>
      existing_tables ← check_table B existing_tables table;
      check_tables B rest existing_tables
  end.

(** [if args.output_dir: ... json.dump(analysis, f, ...)] *)
Definition save_report {Env} (B : Backend Env) (args : Args) (file : string)
    (report : Report) : M Env unit :=
  match output_dir args with
  | Some dir =>
      if truthy (output_dir args)
      then call_write_json B (dir +:+ file) report
      else mret tt
  | None => mret tt
  end.

(** The "Analyze Accounts" block of step 2. *)
Definition review_accounts {Env} (B : Backend Env) (fuel : nat) (args : Args)
    (existing_tables : list string) : M Env unit :=
  if bool_decide (table_prefix args +:+ "-Accounts" ∈ existing_tables) then
    print (Header "Accounts Analysis");;
    try_except
      (accounts ← scan_table B fuel (table_prefix args +:+ "-Accounts");
       match accounts with
       | [] => mret tt
       | _ :: _ =>
           let analysis := analyze_accounts accounts in
           print (AccountAnalysis analysis);;
           save_report B args "/accounts-analysis.json" (AccountsReport analysis)
       end)
      (λ e, print (AnalyzeError "accounts" e))
  else mret tt.

(** The "Analyze Transactions" block of step 2. *)
Definition review_transactions {Env} (B : Backend Env) (fuel : nat) (args : Args)
    (existing_tables : list string) : M Env unit :=
  if bool_decide (table_prefix args +:+ "-Transactions" ∈ existing_tables) then
    print (Header "Transactions Analysis");;
    try_except
      (transactions ← scan_table B fuel (table_prefix args +:+ "-Transactions");
       match transactions with
       | [] => mret tt
       | _ :: _ =>
           let analysis := analyze_transactions transactions in
           print (TransactionAnalysis analysis);;
           save_report B args "/transactions-analysis.json"
                       (TransactionsReport analysis)
       end)
      (λ e, print (AnalyzeError "transactions" e))
  else mret tt.

(** Step 2: the two analysis blocks, for the tables found in step 1. *)
Definition analyze_tables {Env} (B : Backend Env) (fuel : nat) (args : Args)
    (existing_tables : list string) : M Env unit :=
  print (Header "Step 2: Analyzing Tables");;
  review_accounts B fuel args existing_tables;;
  review_transactions B fuel args existing_tables;;
  print (Header "Review Complete!").

(** Steps 1 and 2, once the client is there. *)
Definition review {Env} (B : Backend Env) (fuel : nat) (args : Args)
    : M Env unit :=
  print (Header "Step 1: Checking Tables");;
  existing_tables ← check_tables B (tables args) [];
  analyze_tables B fuel args existing_tables.

(** [main], to its exit status: 1 after [sys.exit(1)], 0 at its end.
    The timestamp line of the banner is not modelled. *)
Definition main {Env} (B : Backend Env) (fuel : nat) (args : Args)
    : M Env nat :=
  print (Header "BudgetBuddy Database Review");;
  print (Banner (region args) (table_prefix args));;
  failure ← call_connect B (region args);
  match failure with
  | Some e => print (ClientInitFailed e);; mret 1
  | None => review B fuel args;; mret 0
  end.

(** ** Vocabulary of the properties *)

(** The record has no attribute named [field]. *)
Definition lacks_field (field : string) (item : Item) : Prop :=
  item !! field = None.

#[global] Instance lacks_field_dec field item : Decision (lacks_field field item).
Proof. unfold lacks_field. apply _. Defined.

(** The record has a string value for [field] that no other record of
    the stream holds. *)
Definition value_is_unique (field : string) (items : list Item)
    (item : Item) : Prop :=
  match get_S field item with
  | Some k => length (holders (get_S field) k items) = 1
  | None => False
  end.

#[global] Instance value_is_unique_dec field items item :
  Decision (value_is_unique field items item).
Proof. unfold value_is_unique. destruct (get_S field item); apply _. Defined.

(** The partition read literally: group members, records lacking the
    field and records with a unique value make up the stream. *)
Definition partition_by_presence (field : string)
    (groups : gmap string (list Item)) (items : list Item) : Prop :=
  items ≡ₚ members groups
           ++ filter (lacks_field field) items
           ++ filter (value_is_unique field items) items.

(** The partition the analysers realise: group members, records without
    a usable (non-empty string) value and records with a unique usable
    value make up the stream, and every group member carries the value
    its group is filed under. *)
Definition partition_by_usable_value (field : string)
    (groups : gmap string (list Item)) (items : list Item) : Prop :=
  items ≡ₚ members groups
           ++ filter (unusable (get_S field)) items
           ++ filter (unique_value (get_S field) items) items
  ∧ ∀ k g, groups !! k = Some g → Forall (λ item, get_S field item = Some k) g.

(** Two accounts linked to no Plaid account: the Plaid id is stored as
    the empty string. *)
Definition unlinked_account (account_id : string) : Item :=
  {[ "accountId" := AttrS account_id; "plaidAccountId" := AttrS "" ]}.

Definition two_unlinked_accounts : list Item :=
  [unlinked_account "a1"; unlinked_account "a2"].

(** Group emission read literally: a value has a group exactly when at
    least two records hold it, and the group lists those records in scan
    order. *)
Definition groups_are_shared_values (field : string)
    (groups : gmap string (list Item)) (items : list Item) : Prop :=
  ∀ k g, groups !! k = Some g ↔
         g = holders (get_S field) k items ∧ 2 ≤ length g.

(** Group emission as the analysers realise it: the same, for non-empty
    values only. *)
Definition groups_are_shared_usable_values (field : string)
    (groups : gmap string (list Item)) (items : list Item) : Prop :=
  ∀ k g, groups !! k = Some g ↔
         k ≠ "" ∧ g = holders (get_S field) k items ∧ 2 ≤ length g.

(** [build], which makes the index or the groups of [field] from a
    stream, ignores the records lacking the field: it gives what it gives
    on the stream without them, no entry holds such a record, and a
    stream of such records alone gives no entry at all. *)
Definition ignores_records_lacking (field : string)
    (build : list Item → gmap string (list Item)) : Prop :=
  ∀ items,
    build items = build (filter (λ item, ¬ lacks_field field item) items)
    ∧ (∀ k g, build items !! k = Some g →
              Forall (λ item, ¬ lacks_field field item) g)
    ∧ (Forall (lacks_field field) items → build items = ∅).

(** [build] treats a record whose [field] is the empty string as one
    lacking the field: it gives what it gives without such records, it
    has no entry under the empty string, and swapping such a record for
    one that lacks the field changes nothing. *)
Definition ignores_records_with_empty (field : string)
    (build : list Item → gmap string (list Item)) : Prop :=
  ∀ items,
    build items = build (filter (λ item, get_S field item ≠ Some "") items)
    ∧ build items !! "" = None
    ∧ (∀ before after x y,
         items = before ++ x :: after →
         get_S field x = Some "" → lacks_field field y →
         build items = build (before ++ y :: after)).

(** [tally], which makes an owner aggregate from a stream, counts every
    record in exactly one bucket, the one [owner] names: the counts sum
    to the number of records, each bucket holds the number of its
    records (and buckets without records do not exist), and one more
    record raises its own bucket by one and no other. *)
Definition counts_each_record_once (owner : Item → string)
    (tally : list Item → gmap string nat) : Prop :=
  ∀ items,
    tally_sum (tally items) = length items
    ∧ (∀ k, tally items !! k =
            if decide (owned_by owner k items = []) then None
            else Some (length (owned_by owner k items)))
    ∧ (∀ item k,
         default 0 (tally (items ++ [item]) !! k) =
         default 0 (tally items !! k) + (if decide (owner item = k) then 1 else 0)).

(** The bucket of a record is the string value of [field] when the
    record has one, and the sentinel otherwise. *)
Definition bucket_is_owner_or_sentinel (field sentinel : string)
    (owner : Item → string) : Prop :=
  ∀ item,
    match get_S field item with
    | Some u => owner item = u
    | None => owner item = sentinel
    end.

(** The sentinel bucket of [tally] is the string ["N/A"] and is shared
    with the genuine owner value ["N/A"]: records lacking the field are
    counted under ["N/A"]; a record whose field is the string ["N/A"]
    can be swapped for one lacking the field without changing the
    aggregate; and the count under ["N/A"] is the number of records of
    either kind (or whose field is not a string). *)
Definition sentinel_is_shared (field : string)
    (tally : list Item → gmap string nat) : Prop :=
  (∀ items, items ≠ [] → Forall (lacks_field field) items →
            tally items = {[ "N/A" := length items ]})
  ∧ (∀ before after x y,
       get_S field x = Some "N/A" → lacks_field field y →
       tally (before ++ x :: after) = tally (before ++ y :: after))
  ∧ (∀ items,
       default 0 (tally items !! "N/A") =
       length (filter (λ item, get_S field item = Some "N/A"
                               ∨ get_S field item = None) items)).

(** The items of a page: [response.get('Items', [])]. *)
Definition page_items (response : ScanResponse) : list Item :=
  default [] (Items response).

(** The backend answers the page sequence [pages]: asked for the first
    page with [cursor] in environment [e], it returns the first page;
    asked again with that page's cursor, the next; and so on.  Every
    page but the last carries a cursor (a non-empty key), the last none;
    [e'] is the environment after the last answer. *)
Inductive serves_pages {Env} (B : Backend Env) (table_name : string)
    : option Key → Env → list ScanResponse → Env → Prop :=
| serves_last cursor e page e' :
    scan B table_name cursor e = (inr page, e') →
    key_truthy (LastEvaluatedKey page) = false →
    serves_pages B table_name cursor e [page] e'
| serves_next cursor e page e1 pages e' :
    scan B table_name cursor e = (inr page, e1) →
    key_truthy (LastEvaluatedKey page) = true →
    serves_pages B table_name (LastEvaluatedKey page) e1 pages e' →
    serves_pages B table_name cursor e (page :: pages) e'.

(** One fetch per page, the first with [cursor], each later one with the
    cursor of the page before. *)
Fixpoint page_fetches (table_name : string) (cursor : option Key)
    (pages : list ScanResponse) : list Event :=
  match pages with
  | [] => []
  | page :: rest =>
      CallScan table_name cursor
      :: page_fetches table_name (LastEvaluatedKey page) rest
  end.

(** A backend that plays a script: every [scan] call consumes the next
    scripted answer, whatever table and key it names; the tables of
    [missing] do not exist, all others do; writing succeeds. *)
Definition scripted (missing : list string)
    : Backend (list (Exception + ScanResponse)) :=
  {| connect := λ _ script, (None, script);
     describe_table := λ table script,
       (if bool_decide (table ∈ missing)
        then ResourceNotFoundException else Described None, script);
     scan := λ _ _ script,
       match script with
       | answer :: rest => (answer, rest)
       | [] => (inl "script exhausted", [])
       end;
     write_json := λ _ _ script, (None, script) |}.

(** The scenario of two pages: [r1, r2] with cursor [c1], then [r3]
    without cursor. *)
Definition account_record (account_id : string) : Item :=
  {[ "accountId" := AttrS account_id ]}.

Definition cursor_c1 : Key := {[ "accountId" := AttrS "r2" ]}.

Definition first_page : ScanResponse :=
  {| Items := Some [account_record "r1"; account_record "r2"];
     LastEvaluatedKey := Some cursor_c1 |}.

Definition second_page : ScanResponse :=
  {| Items := Some [account_record "r3"]; LastEvaluatedKey := None |}.

(** The world with more events. *)
Definition and_then {Env} (w : World Env) (evs : list Event) : World Env :=
  {| env := env w; events := events w ++ evs |}.

(** A computation that only adds events satisfying [P]. *)
Definition emits {Env A} (P : Event → Prop) (m : M Env A) : Prop :=
  ∀ w, ∃ evs, events (m w).2 = events w ++ evs ∧ Forall P evs.

(** The events of [scan_table] on [table_name]: its two lines and its
    fetches. *)
Definition scan_table_event (table_name : string) (ev : Event) : Prop :=
  ev = Print (Scanning table_name)
  ∨ (∃ k, ev = CallScan table_name k)
  ∨ (∃ n, ev = Print (Found n)).

(** The events of saving a report in the block named [what]: the write,
    and the error line if the write fails. *)
Definition save_event (what : string) (ev : Event) : Prop :=
  (∃ path report, ev = CallWriteJson path report)
  ∨ (∃ e, ev = Print (AnalyzeError what e)).

(** The answers of the backend to the existence probes of [tables], in
    order, from environment [e], and the environment after them. *)
Fixpoint probe_results {Env} (B : Backend Env) (tables : list string) (e : Env)
    : list (string * DescribeResult) * Env :=
  match tables with
  | [] => ([], e)
  | table :: rest =>
      let '(r, e1) := describe_table B table e in
      let '(rs, e') := probe_results B rest e1 in
      ((table, r) :: rs, e')
  end.

(** The tables whose probe found them. *)
Fixpoint confirmed (probes : list (string * DescribeResult)) : list string :=
  match probes with
  | [] => []
  | (table, Described _) :: rest => table :: confirmed rest
  | _ :: rest => confirmed rest
  end.

(** The events of one probe: the call and the line printed for its
    answer. *)
Definition probe_events (probe : string * DescribeResult) : list Event :=
  [ CallDescribeTable probe.1;
    Print match probe.2 with
          | Described item_count => TableExists probe.1 item_count
          | ResourceNotFoundException => TableMissing probe.1
          | DescribeFailed e => TableCheckError probe.1 e
          end ].

(** Events of the analysis step: no existence probe, and fetches only on
    tables of [existing]. *)
Definition analysis_event (existing : list string) (ev : Event) : Prop :=
  (∀ table, ev ≠ CallDescribeTable table)
  ∧ (∀ table k, ev = CallScan table k → table ∈ existing).

(** Events of the existence check: no fetch. *)
Definition check_event (ev : Event) : Prop :=
  ∀ table k, ev ≠ CallScan table k.

(** A computation from which no exception escapes. *)
Definition never_raises {Env A} (m : M Env A) : Prop :=
  ∀ w e, (m w).1 ≠ Raised e.

(** The arguments of a run with the defaults of the command line. *)
Definition default_args : Args :=
  {| region := "us-east-1"; table_prefix := "BudgetBuddy"; output_dir := None |}.

(** What the existence check must have done with a probed table, given
    the answer [r] of its probe, the list [existing] it built and the
    events [check] it left. *)
Definition probe_outcome (existing : list string) (check : list Event)
    (table : string) (r : DescribeResult) : Prop :=
  match r with
  | Described item_count =>
      table ∈ existing ∧ Print (TableExists table item_count) ∈ check
  | ResourceNotFoundException =>
      (table ∉ existing)
      ∧ Print (TableMissing table) ∈ check
      ∧ ∀ e, Print (TableCheckError table e) ∉ check
  | DescribeFailed e =>
      (table ∉ existing) ∧ Print (TableCheckError table e) ∈ check
  end.

(** The backend answers of the failure scenario: the accounts table
    gives a first page with a cursor and fails on the second fetch; the
    transactions table gives one page. *)
Definition failing_script : list (Exception + ScanResponse) :=
  [ inr first_page; inl "ProvisionedThroughputExceededException";
    inr second_page ].

Definition both_tables : list string :=
  ["BudgetBuddy-Accounts"; "BudgetBuddy-Transactions"].

(** ** Vocabulary of the further properties *)

(** The record carries [active] as the boolean false. *)
Definition marked_inactive (item : Item) : bool :=
  match item !! "active" with
  | Some (AttrBOOL false) => true
  | _ => false
  end.

(** The backend answers [pages], each with a cursor, and then fails: the
    fetch after the last of them raises [exc]. *)
Inductive serves_then_fails {Env} (B : Backend Env) (table_name : string)
    : option Key → Env → list ScanResponse → Exception → Env → Prop :=
| fails_now cursor e exc e' :
    scan B table_name cursor e = (inl exc, e') →
    serves_then_fails B table_name cursor e [] exc e'
| fails_later cursor e page e1 pages exc e' :
    scan B table_name cursor e = (inr page, e1) →
    key_truthy (LastEvaluatedKey page) = true →
    serves_then_fails B table_name (LastEvaluatedKey page) e1 pages exc e' →
    serves_then_fails B table_name cursor e (page :: pages) exc e'.

(** The fetches of a scan that got [pages] and then one more fetch. *)
Fixpoint fetches_and_one_more (table_name : string) (cursor : option Key)
    (pages : list ScanResponse) : list Event :=
  match pages with
  | [] => [CallScan table_name cursor]
  | page :: rest =>
      CallScan table_name cursor
      :: fetches_and_one_more table_name (LastEvaluatedKey page) rest
  end.

(** The backend never ends a scan of [table_name]: whatever the key and
    the environment, it answers with a page that carries a cursor. *)
Definition always_has_more {Env} (B : Backend Env) (table_name : string) : Prop :=
  ∀ cursor e, ∃ page e',
    scan B table_name cursor e = (inr page, e')
    ∧ key_truthy (LastEvaluatedKey page) = true.

(** A backend whose every scan answers the same page, with a cursor. *)
Definition endless : Backend unit :=
  {| connect := λ _ u, (None, u);
     describe_table := λ _ u, (Described None, u);
     scan := λ _ _ u, (inr first_page, u);
     write_json := λ _ _ u, (None, u) |}.

(** What a run may do to the outside: probe any table, fetch from the
    accounts and the transactions table only, and write only the two
    report files, into a non-empty output directory. *)
Definition permitted_event (args : Args) (ev : Event) : Prop :=
  match ev with
  | CallScan table_name _ =>
      table_name = table_prefix args +:+ "-Accounts"
      ∨ table_name = table_prefix args +:+ "-Transactions"
  | CallWriteJson path report =>
      ∃ dir, output_dir args = Some dir ∧ dir ≠ ""
             ∧ match report with
               | AccountsReport _ => path = dir +:+ "/accounts-analysis.json"
               | TransactionsReport _ => path = dir +:+ "/transactions-analysis.json"
               end
  | _ => True
  end.

(** A backend on which the connection fails. *)
Definition unreachable : Backend unit :=
  {| connect := λ _ u, (Some "EndpointConnectionError", u);
     describe_table := λ _ u, (Described None, u);
     scan := λ _ _ u, (inr second_page, u);
     write_json := λ _ _ u, (None, u) |}.

(** A backend with one page per table on which every write fails. *)
Definition read_only : Backend unit :=
  {| connect := λ _ u, (None, u);
     describe_table := λ _ u, (Described None, u);
     scan := λ _ _ u, (inr second_page, u);
     write_json := λ _ _ u, (Some "PermissionError", u) |}.

(** What an analysis block has done once its scan returned [items] in
    world [w2], as the result of running the block [run] from [w]: for
    no items, nothing more; otherwise the analysis is printed and, if an
    output directory is given, written to [file] there, a failed write
    being reported as an error of the block [what]; the block ends
    normally in every case. *)
Definition block_after_scan {Env} (B : Backend Env) (args : Args)
    (run : M Env unit) (w : World Env) (items : list Item) (w2 : World Env)
    (printed : Output) (file : string) (report : Report) (what : string)
    : Prop :=
  match items with
  | [] => run w = (Returned tt, w2)
  | _ :: _ =>
      match output_dir args with
      | Some dir =>
          if truthy (Some dir) then
            match write_json B (dir +:+ file) report (env w2) with
            | (None, e') =>
                run w
                = (Returned tt,
                   {| env := e';
                      events := events w2
                                ++ [ Print printed;
                                     CallWriteJson (dir +:+ file) report ] |})
            | (Some exc, e') =>
                run w
                = (Returned tt,
                   {| env := e';
                      events := events w2
                                ++ [ Print printed;
                                     CallWriteJson (dir +:+ file) report;
                                     Print (AnalyzeError what exc) ] |})
            end
          else run w = (Returned tt, and_then w2 [Print printed])
      | None => run w = (Returned tt, and_then w2 [Print printed])
      end
  end.

(** Arguments with an output directory. *)
Definition args_with_output : Args :=
  {| region := "us-east-1"; table_prefix := "BudgetBuddy";
     output_dir := Some "out" |}.

(** ** Dictionaries in insertion order

    A Python [dict] iterates in insertion order, and the printing
    functions depend on that order.  Here a dictionary is the list of its
    entries in that order, every key once. *)

(** [d.get(k)] *)
Fixpoint od_get {V} (k : string) (d : list (string * V)) : option V :=
  match d with
  | [] => None
  | (k', v) :: d' => if decide (k' = k) then Some v else od_get k d'
  end.

(** [d[k] = v]: an entry that exists keeps its place, a new one goes to
    the end. *)
Fixpoint od_set {V} (k : string) (v : V) (d : list (string * V))
    : list (string * V) :=
  match d with
  | [] => [(k, v)]
  | (k', v') :: d' =>
      if decide (k' = k) then (k, v) :: d' else (k', v') :: od_set k v d'
  end.

(** [m[k].append(item)] on a [defaultdict(list)] *)
Definition od_append_to (k : string) (item : Item)
    (m : list (string * list Item)) : list (string * list Item) :=
  od_set k (default [] (od_get k m) ++ [item]) m.

(** [m[k] += 1] on a [defaultdict(int)] *)
Definition od_increment (k : string) (m : list (string * nat))
    : list (string * nat) :=
  od_set k (default 0 (od_get k m) + 1) m.

(** [if v: m[v].append(item)] *)
Definition od_append_if (v : option string) (item : Item)
    (m : list (string * list Item)) : list (string * list Item) :=
  match v with
  | Some k => if truthy v then od_append_to k item m else m
  | None => m
  end.

(** The "Find duplicates" loops, in the order of [m.items()]. *)
Definition od_find_duplicates (m : list (string * list Item))
    : list (string * list Item) :=
  filter (λ kg, 1 < length kg.2) m.

(** The index of one identity field and the tally of one owner field,
    in insertion order. *)
Definition od_index_of (key : Item → option string) (items : list Item)
    : list (string * list Item) :=
  fold_left (λ m item, od_append_if (key item) item m) items [].

Definition od_tally_of (owner : Item → string) (items : list Item)
    : list (string * nat) :=
  fold_left (λ m item, od_increment (owner item) m) items [].

(** *** analyze_accounts, keeping the order of its dictionaries *)

Record AccountsLoopInOrder := {
  ol_account_id_map : list (string * list Item);
  ol_plaid_id_map : list (string * list Item);
  ol_by_user : list (string * nat);
  ol_active : nat;
  ol_inactive : nat
}.

(** One iteration of [for item in items] in [analyze_accounts]. *)
Definition accounts_body_in_order (st : AccountsLoopInOrder) (item : Item)
    : AccountsLoopInOrder :=
  let account_id := get_S "accountId" item in
  let plaid_id := get_S "plaidAccountId" item in
  let user_id := get_S_default "userId" "N/A" item in
  let active := get_BOOL_default "active" true item in
  {| ol_account_id_map := od_append_if account_id item (ol_account_id_map st);
     ol_plaid_id_map := od_append_if plaid_id item (ol_plaid_id_map st);
     ol_by_user := od_increment user_id (ol_by_user st);
     ol_active := if active then ol_active st + 1 else ol_active st;
     ol_inactive := if active then ol_inactive st else ol_inactive st + 1 |}.

Record AccountsAnalysisInOrder := {
  oa_total : nat;
  oa_duplicate_account_ids : list (string * list Item);
  oa_duplicate_plaid_ids : list (string * list Item);
  oa_by_user : list (string * nat);
  oa_active : nat;
  oa_inactive : nat
}.

Definition analyze_accounts_in_order (items : list Item) : AccountsAnalysisInOrder :=
  let st := fold_left accounts_body_in_order items
              {| ol_account_id_map := []; ol_plaid_id_map := [];
                 ol_by_user := []; ol_active := 0; ol_inactive := 0 |} in
  {| oa_total := length items;
     oa_duplicate_account_ids := od_find_duplicates (ol_account_id_map st);
     oa_duplicate_plaid_ids := od_find_duplicates (ol_plaid_id_map st);
     oa_by_user := ol_by_user st;
     oa_active := ol_active st;
     oa_inactive := ol_inactive st |}.

(** *** analyze_transactions, keeping the order of its dictionaries *)

Record TransactionsLoopInOrder := {
  otl_transaction_id_map : list (string * list Item);
  otl_plaid_id_map : list (string * list Item);
  otl_by_user : list (string * nat);
  otl_by_account : list (string * nat)
}.

(** One iteration of [for item in items] in [analyze_transactions]. *)
Definition transactions_body_in_order (st : TransactionsLoopInOrder)
    (item : Item) : TransactionsLoopInOrder :=
  let trans_id := get_S "transactionId" item in
  let plaid_id := get_S "plaidTransactionId" item in
  let user_id := get_S_default "userId" "N/A" item in
  let account_id := get_S_default "accountId" "N/A" item in
  {| otl_transaction_id_map := od_append_if trans_id item (otl_transaction_id_map st);
     otl_plaid_id_map := od_append_if plaid_id item (otl_plaid_id_map st);
     otl_by_user := od_increment user_id (otl_by_user st);
     otl_by_account := od_increment account_id (otl_by_account st) |}.

Record TransactionsAnalysisInOrder := {
  ot_total : nat;
  ot_duplicate_transaction_ids : list (string * list Item);
  ot_duplicate_plaid_ids : list (string * list Item);
  ot_by_user : list (string * nat);
  ot_by_account : list (string * nat)
}.

Definition analyze_transactions_in_order (items : list Item)
    : TransactionsAnalysisInOrder :=
  let st := fold_left transactions_body_in_order items
              {| otl_transaction_id_map := []; otl_plaid_id_map := [];
                 otl_by_user := []; otl_by_account := [] |} in
  {| ot_total := length items;
     ot_duplicate_transaction_ids := od_find_duplicates (otl_transaction_id_map st);
     ot_duplicate_plaid_ids := od_find_duplicates (otl_plaid_id_map st);
     ot_by_user := otl_by_user st;
     ot_by_account := otl_by_account st |}.

(** The analysis as a set of dictionaries, the order forgotten. *)
Definition forget_accounts_order (a : AccountsAnalysisInOrder) : AccountsAnalysis :=
  {| acc_total := oa_total a;
     acc_duplicate_account_ids := list_to_map (oa_duplicate_account_ids a);
     acc_duplicate_plaid_ids := list_to_map (oa_duplicate_plaid_ids a);
     acc_by_user := list_to_map (oa_by_user a);
     acc_active := oa_active a;
     acc_inactive := oa_inactive a |}.

Definition forget_transactions_order (a : TransactionsAnalysisInOrder)
    : TransactionsAnalysis :=
  {| tr_total := ot_total a;
     tr_duplicate_transaction_ids := list_to_map (ot_duplicate_transaction_ids a);
     tr_duplicate_plaid_ids := list_to_map (ot_duplicate_plaid_ids a);
     tr_by_user := list_to_map (ot_by_user a);
     tr_by_account := list_to_map (ot_by_account a) |}.

(** ** The printed analyses *)

(** A printed line, by the statement that prints it; the fields are the
    values its f-string interpolates. *)
Inductive Line : Type :=
| TotalLine (what : string) (total : nat)
    (* print(f"\nTotal {what}: {total}") *)
| ActiveLine (active inactive : nat)
    (* print(f"Active: {active}, Inactive: {inactive}") *)
| WarningLine (text : string) (n : nat)
    (* print_warning(f"{text}{n}") *)
| SuccessLine (text : string)
    (* print_success(text) *)
| GroupLine (label id : string) (size : nat)
    (* print(f"  {label}: {id} ({size} duplicates)") *)
| MemberLine (label first user name : string)
    (* print(f"    - {label}: {first}, User: {user}, Name: {name}") *)
| MoreLine (n : nat)
    (* print(f"    ... and {n} more") *)
| ByUserLine (what : string)
    (* print(f"\n{what} by User (top 10):") *)
| UserLine (user : string) (count : nat) (what : string).
    (* print(f"  User {user}: {count} {what}") *)

(** [sorted(d.items(), key=lambda x: x[1], reverse=True)]: by descending
    count, entries of equal count in the order of the dictionary. *)
Fixpoint insert_by_count (x : string * nat) (l : list (string * nat))
    : list (string * nat) :=
  match l with
  | [] => [x]
  | y :: l' => if x.2 <? y.2 then y :: insert_by_count x l' else x :: y :: l'
  end.

Definition sorted_by_count (d : list (string * nat)) : list (string * nat) :=
  foldr insert_by_count [] d.

(** One "duplicates" paragraph of a printed analysis: the success line
    if [dups] is empty; otherwise the warning with the number of groups,
    the first [limit] groups, each followed by [member_lines] of its
    members, and the count of the groups left out, if any. *)
Definition duplicates_lines (warning success label : string) (limit : nat)
    (member_lines : list Item → list Line)
    (dups : list (string * list Item)) : list Line :=
  match dups with
  | [] => [SuccessLine success]
  | _ :: _ =>
      WarningLine warning (length dups)
      :: flat_map (λ kg, GroupLine label kg.1 (length kg.2) :: member_lines kg.2)
                  (take limit dups)
      ++ (if limit <? length dups then [MoreLine (length dups - limit)] else [])
  end.

(** The "by User (top 10)" paragraph. *)
Definition by_user_lines (title what : string) (by_user : list (string * nat))
    : list Line :=
  ByUserLine title
  :: ((λ uc, UserLine uc.1 uc.2 what) <$> take 10 (sorted_by_count by_user)).

Definition print_account_analysis (analysis : AccountsAnalysisInOrder)
    : list Line :=
  [ TotalLine "Accounts" (oa_total analysis);
    ActiveLine (oa_active analysis) (oa_inactive analysis) ]
  ++ duplicates_lines "DUPLICATE ACCOUNT IDs FOUND: "
       "No duplicate account IDs found" "Account ID" 10
       (fmap (λ acc, MemberLine "Plaid ID"
                       (get_S_default "plaidAccountId" "N/A" acc)
                       (get_S_default "userId" "N/A" acc)
                       (get_S_default "accountName" "N/A" acc)))
       (oa_duplicate_account_ids analysis)
  ++ duplicates_lines "DUPLICATE PLAID ACCOUNT IDs FOUND: "
       "No duplicate Plaid account IDs found" "Plaid Account ID" 10
       (fmap (λ acc, MemberLine "Account ID"
                       (get_S_default "accountId" "N/A" acc)
                       (get_S_default "userId" "N/A" acc)
                       (get_S_default "accountName" "N/A" acc)))
       (oa_duplicate_plaid_ids analysis)
  ++ by_user_lines "Accounts" "accounts" (oa_by_user analysis).

Definition print_transaction_analysis (analysis : TransactionsAnalysisInOrder)
    : list Line :=
  [ TotalLine "Transactions" (ot_total analysis) ]
  ++ duplicates_lines "DUPLICATE TRANSACTION IDs FOUND: "
       "No duplicate transaction IDs found" "Transaction ID" 5
       (λ _, [])
       (ot_duplicate_transaction_ids analysis)
  ++ duplicates_lines "DUPLICATE PLAID TRANSACTION IDs FOUND: "
       "No duplicate Plaid transaction IDs found" "Plaid Transaction ID" 5
       (λ _, [])
       (ot_duplicate_plaid_ids analysis)
  ++ by_user_lines "Transactions" "transactions" (ot_by_user analysis).

(** The entries of the group lines labelled [label], of the user lines,
    and the numbers of the "more" lines, in printed order. *)
Definition group_entries (label : string) (lines : list Line)
    : list (string * nat) :=
  omap (λ line, match line with
                | GroupLine l id size =>
                    if decide (l = label) then Some (id, size) else None
                | _ => None
                end) lines.

Definition user_entries (lines : list Line) : list (string * nat) :=
  omap (λ line, match line with
                | UserLine user count _ => Some (user, count)
                | _ => None
                end) lines.

Definition member_entries (label : string) (lines : list Line)
    : list (string * string * string) :=
  omap (λ line, match line with
                | MemberLine l first user name =>
                    if decide (l = label) then Some (first, user, name) else None
                | _ => None
                end) lines.

Definition more_entries (lines : list Line) : list nat :=
  omap (λ line, match line with
                | MoreLine n => Some n
                | _ => None
                end) lines.

(** The group lines [shown] list at most [limit] groups of [groups], no
    group twice, each with its true number of members. *)
Definition shows_groups (groups : gmap string (list Item)) (limit : nat)
    (shown : list (string * nat)) : Prop :=
  length shown = limit `min` size groups
  ∧ NoDup shown.*1
  ∧ ∀ id n, (id, n) ∈ shown → ∃ g, groups !! id = Some g ∧ n = length g.

(** The user lines [shown] are the ten largest entries of the aggregate
    [by_user] (all of them if there are fewer), largest first, no owner
    twice, each with its count. *)
Definition shows_top_ten (by_user : gmap string nat)
    (shown : list (string * nat)) : Prop :=
  length shown = 10 `min` size by_user
  ∧ StronglySorted (λ a b : string * nat, b.2 ≤ a.2) shown
  ∧ NoDup shown.*1
  ∧ (∀ u c, (u, c) ∈ shown → by_user !! u = Some c)
  ∧ (∀ u c, by_user !! u = Some c → u ∉ shown.*1 → ∀ x, x ∈ shown → c ≤ x.2).

(** The warning lines (text and number) and the success lines of a
    printed analysis, in printed order. *)
Definition warning_entries (lines : list Line) : list (string * nat) :=
  omap (λ line, match line with
                | WarningLine text n => Some (text, n)
                | _ => None
                end) lines.

Definition success_entries (lines : list Line) : list string :=
  omap (λ line, match line with
                | SuccessLine text => Some text
                | _ => None
                end) lines.

(** The headline of a "duplicates" paragraph over [groups]: the success
    text if there is no group, the warning text with the number of all
    groups otherwise. *)
Definition headline (warning success : string)
    (groups : gmap string (list Item)) : list (string * nat) * list string :=
  if decide (size groups = 0) then ([], [success])
  else ([(warning, size groups)], []).

(** The backend finds no table: no probe is answered with a table
    description. *)
Definition finds_no_table {Env} (B : Backend Env) : Prop :=
  ∀ table e item_count, (describe_table B table e).1 ≠ Described item_count.

(** A backend of an account without tables. *)
Definition no_tables : Backend unit :=
  {| connect := λ _ u, (None, u);
     describe_table := λ _ u, (ResourceNotFoundException, u);
     scan := λ _ _ u, (inl "ResourceNotFoundException", u);
     write_json := λ _ _ u, (None, u) |}.

(** ** The reference constructions, in the words of the specification *)

(** A field value as the specification has it: a typed scalar, either a
    string, a number (DynamoDB sends its digits) or a boolean. *)
Inductive Scalar : Type :=
| SString (s : string)
| SNumber (n : string)
| SBoolean (b : bool).

#[global] Instance Scalar_eq_dec : EqDecision Scalar.
Proof. solve_decision. Defined.

#[global] Instance Scalar_countable : Countable Scalar.
Proof.
  refine (inj_countable'
            (λ v, match v with
                  | SString s => inl s
                  | SNumber n => inr (inl n)
                  | SBoolean b => inr (inr b)
                  end)
            (λ x, match x with
                  | inl s => SString s
                  | inr (inl n) => SNumber n
                  | inr (inr b) => SBoolean b
                  end) _).
  by intros [].
Defined.

(** The value of [field] on a record, when the field is present with a
    scalar: a string, a number or a boolean attribute.  A record without
    the field has no value; nor has one whose attribute is of another
    type (null, binary, set, list, map), which the specification's
    records do not have. *)
Definition present_value (field : string) (item : Item) : option Scalar :=
  match item !! field with
  | Some (AttrS s) => Some (SString s)
  | Some (AttrN n) => Some (SNumber n)
  | Some (AttrBOOL b) => Some (SBoolean b)
  | _ => None
  end.

(** The value of [field] that the loops file a record under: the string
    of a string attribute that is not empty. *)
Definition usable_string (field : string) (item : Item) : option string :=
  match get_S field item with
  | Some s => if truthy (Some s) then Some s else None
  | None => None
  end.

(** The scalars that the loops can file a record under: the non-empty
    strings. *)
Definition usable_scalar (v : Scalar) : Prop :=
  match v with
  | SString s => s ≠ ""
  | _ => False
  end.

#[global] Instance usable_scalar_dec v : Decision (usable_scalar v).
Proof. destruct v; apply _. Defined.

(** The mapping from every value that [value] finds on some record to
    the records with that value, in scan order. *)
Definition grouped_by `{Countable K} (value : Item → option K)
    (items : list Item) : gmap K (list Item) :=
  list_to_map
    ((λ k, (k, filter (λ item, value item = Some k) items)) <$> omap value items).

(** The mapping from every bucket that [bucket] names for some record to
    the number of records of that bucket. *)
Definition counted_by `{Countable K} (bucket : Item → K)
    (items : list Item) : gmap K nat :=
  list_to_map
    ((λ k, (k, length (filter (λ item, bucket item = k) items)))
       <$> (bucket <$> items)).

(** Reference construction of the identity index of [field], by a
    traversal of its own: a mapping from each present field value to the
    records observed with that value, in scan order; a record without
    the field is in no entry. *)
Definition reference_index (field : string) (items : list Item)
    : gmap Scalar (list Item) :=
  grouped_by (present_value field) items.

(** The owner bucket of a record by presence: its owner value when the
    field is present, the sentinel "N/A" when it is absent. *)
Definition owner_or_sentinel (field : string) (item : Item) : Scalar :=
  default (SString "N/A") (present_value field item).

(** Reference construction of the owner aggregate of [field], by a
    traversal of its own: the number of records per owner bucket. *)
Definition reference_aggregate (field : string) (items : list Item)
    : gmap Scalar nat :=
  counted_by (owner_or_sentinel field) items.

(** The owner aggregation read literally: the aggregate over [items]
    counts every record under its owner value when the field is present
    and under the sentinel when it is absent; the keys of [tally] are
    strings. *)
Definition aggregate_by_presence (field : string)
    (tally : gmap string nat) (items : list Item) : Prop :=
  kmap SString tally = reference_aggregate field items.

(** Two accounts whose owner is stored as a number. *)
Definition numbered_owners : list Item :=
  [ {[ "userId" := AttrN "7" ]}; {[ "userId" := AttrN "8" ]} ].

(** The refinement read literally: the loops leave in their state the
    reference index of every identity field and the reference aggregate
    of every owner field. *)
Definition loops_build_the_references (items : list Item) : Prop :=
  kmap SString (al_account_id_map (accounts_loop items))
  = reference_index "accountId" items
  ∧ kmap SString (al_plaid_id_map (accounts_loop items))
    = reference_index "plaidAccountId" items
  ∧ kmap SString (al_by_user (accounts_loop items))
    = reference_aggregate "userId" items
  ∧ kmap SString (tl_transaction_id_map (transactions_loop items))
    = reference_index "transactionId" items
  ∧ kmap SString (tl_plaid_id_map (transactions_loop items))
    = reference_index "plaidTransactionId" items
  ∧ kmap SString (tl_by_user (transactions_loop items))
    = reference_aggregate "userId" items
  ∧ kmap SString (tl_by_account (transactions_loop items))
    = reference_aggregate "accountId" items.

(** [build], a loop's index of [field], against the reference: it files
    every non-empty string value with the records holding it, in scan
    order, and nothing else; so it is the reference index without the
    entries of the empty string and of the values that are not strings,
    and the reference index itself on a stream whose present values are
    all non-empty strings. *)
Definition builds_index_of (field : string)
    (build : list Item → gmap string (list Item)) : Prop :=
  ∀ items,
    build items = grouped_by (usable_string field) items
    ∧ kmap SString (build items)
      = filter (λ kg, usable_scalar kg.1) (reference_index field items)
    ∧ (Forall (λ item, present_value field item
                       = SString <$> usable_string field item) items →
       kmap SString (build items) = reference_index field items).

(** [tally], a loop's aggregate of [field], against the reference: it
    counts every record under the string value of the field, or under
    "N/A" without one; so it has the counts of the reference aggregate
    in every string bucket but "N/A", and is the reference aggregate
    itself on a stream whose present values are all strings. *)
Definition builds_aggregate_of (field : string)
    (tally : list Item → gmap string nat) : Prop :=
  ∀ items,
    tally items = counted_by (get_S_default field "N/A") items
    ∧ (∀ s, s ≠ "N/A" →
            tally items !! s = reference_aggregate field items !! SString s)
    ∧ (Forall (λ item, present_value field item
                       = SString <$> get_S field item) items →
       kmap SString (tally items) = reference_aggregate field items).
(** ** Lemmas on the per-field constructions *)

Lemma truthy_Some k : truthy (Some k) = true ↔ k ≠ "".
Proof.
  simpl. destruct (String.eqb_spec k ""); simpl; split; congruence.
Qed.

Lemma append_if_Some k item m :
  k ≠ "" → append_if (Some k) item m = append_to k item m.
Proof.
  intros Hk. unfold append_if. apply truthy_Some in Hk. by rewrite Hk.
Qed.

Lemma append_if_falsy v item m : truthy v = false → append_if v item m = m.
Proof. intros Hv. unfold append_if. destruct v; by rewrite ?Hv. Qed.

Lemma index_of_snoc key items item :
  index_of key (items ++ [item]) = append_if (key item) item (index_of key items).
Proof. unfold index_of. by rewrite fold_left_app. Qed.

Lemma tally_of_snoc owner items item :
  tally_of owner (items ++ [item]) = increment (owner item) (tally_of owner items).
Proof. unfold tally_of. by rewrite fold_left_app. Qed.

Lemma holders_snoc key k items item :
  holders key k (items ++ [item]) =
  holders key k items ++ (if decide (key item = Some k) then [item] else []).
Proof.
  unfold holders. by rewrite filter_app.
Qed.

(** The index maps every non-empty value held by some record to the list
    of its holders, in scan order, and nothing else. *)
Lemma index_of_lookup key items k :
  index_of key items !! k =
  if decide (k ≠ "" ∧ holders key k items ≠ [])
  then Some (holders key k items) else None.
Proof.
  induction items as [|item items IH] using rev_ind.
  - unfold index_of, holders. simpl. rewrite lookup_empty.
    case_decide as Hd; [by destruct Hd|done].
  - rewrite index_of_snoc, holders_snoc.
    destruct (truthy (key item)) eqn:Hv.
    + destruct (key item) as [kx|] eqn:Hk; [|done].
      apply truthy_Some in Hv. rewrite append_if_Some by done.
      unfold append_to. destruct (decide (kx = k)) as [->|Hne].
      * rewrite lookup_insert_eq, IH.
        rewrite (decide_True (P := Some k = Some k)) by done.
        rewrite (decide_True (P := k ≠ "" ∧ holders key k items ++ [item] ≠ []));
          [|split; [done|by destruct (holders key k items)]].
        case_decide as Hd; simpl; [done|].
        destruct (holders key k items); [done|].
        exfalso. apply Hd. by split.
      * rewrite lookup_insert_ne by done. rewrite IH.
        rewrite (decide_False (P := Some kx = Some k)) by congruence.
        by rewrite app_nil_r.
    + rewrite append_if_falsy by done. rewrite IH.
      destruct (decide (key item = Some k)) as [Hd|Hd]; [|by rewrite app_nil_r].
      assert (k = "") as ->.
      { destruct (decide (k = "")) as [|Hne]; [done|].
        apply truthy_Some in Hne. rewrite Hd in Hv. congruence. }
      rewrite !decide_False; [done|intros [? _]; done..].
Qed.

Lemma index_of_lookup_Some key items k g :
  index_of key items !! k = Some g ↔
  k ≠ "" ∧ g = holders key k items ∧ g ≠ [].
Proof.
  rewrite index_of_lookup. case_decide as Hd; [|naive_solver].
  destruct Hd. split; [intros [= <-]; done|intros (_ & -> & _); done].
Qed.

Lemma index_of_lookup_empty_string key items : index_of key items !! "" = None.
Proof. rewrite index_of_lookup. by rewrite decide_False by (intros [? _]; done). Qed.

Lemma find_duplicates_lookup m k g :
  find_duplicates m !! k = Some g ↔ m !! k = Some g ∧ 1 < length g.
Proof. unfold find_duplicates. by rewrite map_lookup_filter_Some. Qed.

(** Members of the groups whose key satisfies [Q]: the records whose
    value is non-empty and satisfies [Q], up to order. *)
Lemma members_insert k g (m : gmap string (list Item)) :
  m !! k = None → members (<[k := g]> m) ≡ₚ g ++ members m.
Proof.
  intros Hk. unfold members. rewrite map_to_list_insert by done. done.
Qed.

Lemma members_append_to k item (m : gmap string (list Item)) :
  members (append_to k item m) ≡ₚ members m ++ [item].
Proof.
  unfold append_to. destruct (m !! k) as [g|] eqn:Hk; simpl.
  - rewrite <-(insert_delete_eq m k).
    rewrite members_insert by apply lookup_delete_eq.
    rewrite <-(insert_delete_id m k g) at 2 by done.
    rewrite members_insert by apply lookup_delete_eq.
    rewrite <-!app_assoc. f_equiv. apply app_Permutation_comm.
  - rewrite members_insert by done. apply Permutation_cons_append.
Qed.

Lemma keyed_Some key Q item k :
  key item = Some k → keyed key Q item ↔ k ≠ "" ∧ Q k.
Proof. unfold keyed. by intros ->. Qed.

Lemma keyed_falsy key Q item : truthy (key item) = false → ¬ keyed key Q item.
Proof.
  unfold keyed. destruct (key item) as [k|]; [|by intros _ []].
  intros Hv [Hne _]. apply truthy_Some in Hne. congruence.
Qed.

Lemma truthy_is_Some v : truthy v = true → ∃ k, v = Some k ∧ k ≠ "".
Proof. destruct v as [k|]; [|done]. intros Hv. exists k. by rewrite <-truthy_Some. Qed.

Lemma members_filter_key key (Q : string → Prop) `{!∀ k, Decision (Q k)} items :
  members (filter (λ kg, Q kg.1) (index_of key items)) ≡ₚ
  filter (keyed key Q) items.
Proof.
  induction items as [|item items IH] using rev_ind.
  - unfold index_of. simpl. rewrite map_filter_empty. done.
  - rewrite index_of_snoc, filter_app, <-IH. clear IH.
    set (m := index_of key items).
    rewrite filter_cons, filter_nil.
    destruct (truthy (key item)) eqn:Hv.
    + destruct (truthy_is_Some _ Hv) as (kx & Hk & Hne).
      rewrite Hk, append_if_Some by done.
      unfold append_to. destruct (decide (Q kx)) as [HQ|HQ].
      * rewrite decide_True by (by apply (keyed_Some _ _ _ kx)).
        rewrite map_filter_insert_True by done.
        replace (m !! kx) with (filter (λ kg : string * list Item, Q kg.1) m !! kx).
        { apply members_append_to. }
        rewrite map_lookup_filter. destruct (m !! kx); simpl; [|done].
        by rewrite option_guard_True.
      * rewrite decide_False by (rewrite (keyed_Some _ _ _ kx) by done; intros [_ ?]; done).
        rewrite map_filter_insert_False by done.
        rewrite map_filter_delete, delete_id, app_nil_r; [done|].
        apply map_lookup_filter_None. right. intros g _. done.
    + rewrite append_if_falsy by done.
      rewrite decide_False by (by apply keyed_falsy).
      by rewrite app_nil_r.
Qed.


(** A list splits, up to order, along three predicates of which every
    element satisfies exactly one. *)
Lemma filter_three_way {A} (P1 P2 P3 : A → Prop)
    `{!∀ x, Decision (P1 x), !∀ x, Decision (P2 x), !∀ x, Decision (P3 x)}
    (l : list A) :
  (∀ x, x ∈ l →
     (P1 x ∧ ¬ P2 x ∧ ¬ P3 x) ∨ (¬ P1 x ∧ P2 x ∧ ¬ P3 x) ∨ (¬ P1 x ∧ ¬ P2 x ∧ P3 x)) →
  l ≡ₚ filter P1 l ++ filter P2 l ++ filter P3 l.
Proof.
  induction l as [|x l IH]; intros Hx; [done|].
  rewrite !filter_cons.
  specialize (IH (λ y Hy, Hx y (list_elem_of_further _ _ _ Hy))).
  destruct (Hx x (list_elem_of_here _ _)) as [(?&?&?)|[(?&?&?)|(?&?&?)]].
  - rewrite decide_True, !decide_False by done. simpl. by f_equiv.
  - rewrite (decide_True (P := P2 x)), !decide_False by done.
    rewrite IH at 1. simpl. by rewrite <-Permutation_middle.
  - rewrite (decide_True (P := P3 x)), !decide_False by done.
    rewrite IH at 1. simpl. by rewrite <-!Permutation_middle.
Qed.

Lemma members_find_duplicates key items :
  members (find_duplicates (index_of key items)) ≡ₚ
  filter (shared_value key items) items.
Proof.
  pose proof (members_filter_key key
                (λ k, 1 < length (holders key k items)) items) as Hm.
  etrans; [|etrans; [exact Hm|]].
  - apply reflexive_eq. f_equal. unfold find_duplicates.
    apply map_filter_ext. intros k g Hk. simpl.
    apply index_of_lookup_Some in Hk as (_ & -> & _). done.
  - by apply reflexive_eq, list_filter_iff.
Qed.

Lemma holders_elem key items item k :
  item ∈ items → key item = Some k → 0 < length (holders key k items).
Proof.
  intros Hin Hk. assert (item ∈ holders key k items) as Hh.
  { unfold holders. by apply list_elem_of_filter. }
  destruct (holders key k items); [by apply not_elem_of_nil in Hh|simpl; lia].
Qed.

(** Duplicate detection partitions the stream: the members of the groups,
    the records without a usable value and the records with a unique
    value are together the stream, each record once. *)
Lemma index_partition key items :
  items ≡ₚ members (find_duplicates (index_of key items))
           ++ filter (unusable key) items
           ++ filter (unique_value key items) items.
Proof.
  rewrite members_find_duplicates.
  apply filter_three_way. intros item Hin.
  unfold shared_value, unique_value, unusable.
  destruct (truthy (key item)) eqn:Hv.
  - destruct (truthy_is_Some _ Hv) as (k & Hk & Hne).
    rewrite !(keyed_Some _ _ _ k) by done.
    pose proof (holders_elem key items item k Hin Hk).
    destruct (decide (length (holders key k items) = 1)).
    + right; right. repeat split; [lia|done|done..].
    + left. repeat split; [done|lia|done|]. intros [_ ?]; done.
  - right; left. split_and!; [|done|]; by apply keyed_falsy.
Qed.

(** *** Tallies *)

Lemma tally_sum_insert k n (m : gmap string nat) :
  m !! k = None → tally_sum (<[k := n]> m) = n + tally_sum m.
Proof.
  intros Hk. unfold tally_sum. by rewrite map_to_list_insert.
Qed.

Lemma tally_sum_increment k (m : gmap string nat) :
  tally_sum (increment k m) = tally_sum m + 1.
Proof.
  unfold increment. destruct (m !! k) as [n|] eqn:Hk; simpl.
  - rewrite <-(insert_delete_eq m k).
    rewrite tally_sum_insert by apply lookup_delete_eq.
    rewrite <-(insert_delete_id m k n) at 2 by done.
    rewrite tally_sum_insert by apply lookup_delete_eq. lia.
  - rewrite tally_sum_insert by done. lia.
Qed.

Lemma tally_sum_tally_of owner items :
  tally_sum (tally_of owner items) = length items.
Proof.
  induction items as [|item items IH] using rev_ind; [done|].
  rewrite tally_of_snoc, tally_sum_increment, IH, length_app. done.
Qed.

Lemma increment_lookup k k' (m : gmap string nat) :
  default 0 (increment k m !! k') =
  default 0 (m !! k') + (if decide (k = k') then 1 else 0).
Proof.
  unfold increment. case_decide as Hk.
  - subst. by rewrite lookup_insert_eq.
  - rewrite lookup_insert_ne by done. lia.
Qed.

(** A tally holds, for every bucket, the number of records of the bucket,
    and has no entry for a bucket without records. *)
Lemma tally_of_lookup owner items k :
  tally_of owner items !! k =
  if decide (owned_by owner k items = []) then None
  else Some (length (owned_by owner k items)).
Proof.
  induction items as [|item items IH] using rev_ind; [done|].
  rewrite tally_of_snoc. unfold owned_by in *. rewrite filter_app.
  rewrite filter_cons, filter_nil. unfold increment.
  destruct (decide (owner item = k)) as [->|Hk].
  - rewrite lookup_insert_eq, IH.
    rewrite (decide_False (P := _ ++ [item] = [])) by (intros [_ ?]%app_eq_nil; done).
    rewrite length_app. simpl. case_decide as Hd; simpl; [by rewrite Hd|done].
  - rewrite lookup_insert_ne by done. by rewrite IH, app_nil_r.
Qed.

(** *** The single pass, component by component *)

Lemma accounts_fold items st :
  fold_left accounts_body items st =
  {| al_account_id_map :=
       fold_left (λ m item, append_if (get_S "accountId" item) item m)
                 items (al_account_id_map st);
     al_plaid_id_map :=
       fold_left (λ m item, append_if (get_S "plaidAccountId" item) item m)
                 items (al_plaid_id_map st);
     al_by_user :=
       fold_left (λ m item, increment (get_S_default "userId" "N/A" item) m)
                 items (al_by_user st);
     al_active :=
       al_active st + length (filter (λ item, get_BOOL_default "active" true item = true) items);
     al_inactive :=
       al_inactive st + length (filter (λ item, get_BOOL_default "active" true item = false) items) |}.
Proof.
  revert st. induction items as [|item items IH]; intros st.
  - destruct st; simpl. f_equal; lia.
  - simpl fold_left. rewrite IH. unfold accounts_body at 1 2 3 4 5. simpl.
    rewrite !filter_cons.
    destruct (get_BOOL_default "active" true item); simpl; f_equal; lia.
Qed.

Lemma transactions_fold items st :
  fold_left transactions_body items st =
  {| tl_transaction_id_map :=
       fold_left (λ m item, append_if (get_S "transactionId" item) item m)
                 items (tl_transaction_id_map st);
     tl_plaid_id_map :=
       fold_left (λ m item, append_if (get_S "plaidTransactionId" item) item m)
                 items (tl_plaid_id_map st);
     tl_by_user :=
       fold_left (λ m item, increment (get_S_default "userId" "N/A" item) m)
                 items (tl_by_user st);
     tl_by_account :=
       fold_left (λ m item, increment (get_S_default "accountId" "N/A" item) m)
                 items (tl_by_account st) |}.
Proof.
  revert st. induction items as [|item items IH]; intros st.
  - by destruct st.
  - simpl fold_left. by rewrite IH.
Qed.

Lemma analyze_accounts_account_ids items :
  acc_duplicate_account_ids (analyze_accounts items) =
  find_duplicates (field_index "accountId" items).
Proof. unfold analyze_accounts, accounts_loop. by rewrite accounts_fold. Qed.

Lemma analyze_accounts_plaid_ids items :
  acc_duplicate_plaid_ids (analyze_accounts items) =
  find_duplicates (field_index "plaidAccountId" items).
Proof. unfold analyze_accounts, accounts_loop. by rewrite accounts_fold. Qed.

Lemma analyze_accounts_by_user items :
  acc_by_user (analyze_accounts items) = field_aggregate "userId" items.
Proof. unfold analyze_accounts, accounts_loop. by rewrite accounts_fold. Qed.

Lemma analyze_transactions_transaction_ids items :
  tr_duplicate_transaction_ids (analyze_transactions items) =
  find_duplicates (field_index "transactionId" items).
Proof. unfold analyze_transactions, transactions_loop. by rewrite transactions_fold. Qed.

Lemma analyze_transactions_plaid_ids items :
  tr_duplicate_plaid_ids (analyze_transactions items) =
  find_duplicates (field_index "plaidTransactionId" items).
Proof. unfold analyze_transactions, transactions_loop. by rewrite transactions_fold. Qed.

Lemma analyze_transactions_by_user items :
  tr_by_user (analyze_transactions items) = field_aggregate "userId" items.
Proof. unfold analyze_transactions, transactions_loop. by rewrite transactions_fold. Qed.

Lemma analyze_transactions_by_account items :
  tr_by_account (analyze_transactions items) = field_aggregate "accountId" items.
Proof. unfold analyze_transactions, transactions_loop. by rewrite transactions_fold. Qed.

(** *** Consequences used by the properties *)

Lemma holders_Forall key k items :
  Forall (λ item, key item = Some k) (holders key k items).
Proof.
  apply Forall_forall. intros item Hin.
  unfold holders in Hin. by apply list_elem_of_filter in Hin as [? _].
Qed.

Lemma partition_by_usable_value_index field items :
  partition_by_usable_value field
    (find_duplicates (field_index field items)) items.
Proof.
  split; [apply index_partition|].
  intros k g [Hk _]%find_duplicates_lookup.
  apply index_of_lookup_Some in Hk as (_ & -> & _). apply holders_Forall.
Qed.

Lemma find_duplicates_index_lookup key items k g :
  find_duplicates (index_of key items) !! k = Some g ↔
  k ≠ "" ∧ g = holders key k items ∧ 2 ≤ length g.
Proof.
  rewrite find_duplicates_lookup, index_of_lookup_Some. split.
  - intros [(Hne & -> & _) Hlen]. split_and!; [done..|lia].
  - intros (Hne & -> & Hlen). split_and!; [done..| |lia].
    intros Hnil. rewrite Hnil in Hlen. simpl in Hlen. lia.
Qed.

Lemma find_duplicates_two_of_three key r1 r2 r3 A B :
  A ≠ "" → A ≠ B →
  key r1 = Some A → key r2 = Some A → key r3 = Some B →
  find_duplicates (index_of key [r1; r2; r3]) = {[ A := [r1; r2] ]}.
Proof.
  intros HA HAB H1 H2 H3. apply map_eq. intros k.
  assert (holders key k [r1; r2; r3] =
          if decide (k = A) then [r1; r2]
          else if decide (k = B) then [r3] else []) as Hh.
  { unfold holders. rewrite !filter_cons, filter_nil, H1, H2, H3.
    destruct (decide (k = A)) as [->|HkA].
    - rewrite !decide_True by done. rewrite decide_False by congruence. done.
    - rewrite !(decide_False (P := Some A = Some k)) by congruence.
      destruct (decide (k = B)) as [->|HkB].
      + by rewrite decide_True.
      + by rewrite decide_False by congruence. }
  destruct (decide (k = A)) as [->|HkA].
  - rewrite lookup_singleton_eq. apply find_duplicates_index_lookup.
    rewrite Hh. simpl. split_and!; [done..|lia].
  - rewrite lookup_singleton_ne by done.
    destruct (find_duplicates _ !! k) as [g|] eqn:Hg; [|done].
    apply find_duplicates_index_lookup in Hg as (_ & -> & Hlen).
    rewrite Hh in Hlen. case_decide; simpl in Hlen; lia.
Qed.

(** Records without a usable value can be dropped from the stream
    without changing the index. *)
Lemma index_of_filter key (P : Item → Prop) `{!∀ x, Decision (P x)} items :
  (∀ item, ¬ P item → truthy (key item) = false) →
  index_of key (filter P items) = index_of key items.
Proof.
  intros HP. induction items as [|item items IH] using rev_ind; [done|].
  rewrite filter_app, filter_cons, filter_nil, index_of_snoc.
  destruct (decide (P item)) as [Hi|Hi].
  - by rewrite index_of_snoc, IH.
  - by rewrite app_nil_r, IH, append_if_falsy by auto.
Qed.

Lemma lacks_field_get_S field item : lacks_field field item → get_S field item = None.
Proof. unfold lacks_field, get_S. by intros ->. Qed.

Lemma accounts_loop_account_id_map items :
  al_account_id_map (accounts_loop items) = field_index "accountId" items.
Proof. unfold accounts_loop. by rewrite accounts_fold. Qed.

Lemma accounts_loop_plaid_id_map items :
  al_plaid_id_map (accounts_loop items) = field_index "plaidAccountId" items.
Proof. unfold accounts_loop. by rewrite accounts_fold. Qed.

Lemma accounts_loop_by_user items :
  al_by_user (accounts_loop items) = field_aggregate "userId" items.
Proof. unfold accounts_loop. by rewrite accounts_fold. Qed.

Lemma transactions_loop_transaction_id_map items :
  tl_transaction_id_map (transactions_loop items) = field_index "transactionId" items.
Proof. unfold transactions_loop. by rewrite transactions_fold. Qed.

Lemma transactions_loop_plaid_id_map items :
  tl_plaid_id_map (transactions_loop items) = field_index "plaidTransactionId" items.
Proof. unfold transactions_loop. by rewrite transactions_fold. Qed.

Lemma transactions_loop_by_user items :
  tl_by_user (transactions_loop items) = field_aggregate "userId" items.
Proof. unfold transactions_loop. by rewrite transactions_fold. Qed.

Lemma transactions_loop_by_account items :
  tl_by_account (transactions_loop items) = field_aggregate "accountId" items.
Proof. unfold transactions_loop. by rewrite transactions_fold. Qed.

Lemma index_of_skip key before item after :
  truthy (key item) = false →
  index_of key (before ++ item :: after) = index_of key (before ++ after).
Proof.
  intros Hv. unfold index_of. rewrite !fold_left_app. simpl.
  by rewrite append_if_falsy.
Qed.

Lemma filter_none {A} (P : A → Prop) `{!∀ x, Decision (P x)} (l : list A) :
  Forall (λ x, ¬ P x) l → filter P l = [].
Proof.
  induction 1 as [|x l Hx _ IH]; [done|].
  by rewrite filter_cons, decide_False, IH.
Qed.

Lemma field_index_ignores_lacking field :
  ignores_records_lacking field (field_index field).
Proof.
  intros items. split_and!.
  - symmetry. apply index_of_filter. intros item Hl.
    apply dec_stable in Hl. by rewrite (lacks_field_get_S _ _ Hl).
  - intros k g (_ & -> & _)%index_of_lookup_Some.
    eapply Forall_impl; [apply holders_Forall|]. simpl.
    intros item Hk Hl. by rewrite (lacks_field_get_S _ _ Hl) in Hk.
  - intros Hall. unfold field_index.
    rewrite <-(index_of_filter _ (λ item, ¬ lacks_field field item)).
    + rewrite filter_none; [done|].
      eapply Forall_impl; [exact Hall|]. simpl. tauto.
    + intros item Hl. apply dec_stable in Hl.
      by rewrite (lacks_field_get_S _ _ Hl).
Qed.

Lemma find_duplicates_empty : find_duplicates ∅ = ∅.
Proof. unfold find_duplicates. apply map_filter_empty. Qed.

Lemma duplicates_ignore_lacking field :
  ignores_records_lacking field (λ items, find_duplicates (field_index field items)).
Proof.
  intros items.
  destruct (field_index_ignores_lacking field items) as (Heq & Hin & Hnone).
  split_and!.
  - by rewrite <-Heq.
  - intros k g [Hk _]%find_duplicates_lookup. by apply (Hin k).
  - intros Hall. rewrite (Hnone Hall). apply find_duplicates_empty.
Qed.

Lemma field_index_ignores_empty field :
  ignores_records_with_empty field (field_index field).
Proof.
  intros items. split_and!.
  - symmetry. apply index_of_filter. intros item Hl.
    apply dec_stable in Hl. by rewrite Hl.
  - apply index_of_lookup_empty_string.
  - intros before after x y -> Hx Hy. unfold field_index.
    rewrite !index_of_skip; [done| |].
    + by rewrite (lacks_field_get_S _ _ Hy).
    + by rewrite Hx.
Qed.

Lemma duplicates_ignore_empty field :
  ignores_records_with_empty field (λ items, find_duplicates (field_index field items)).
Proof.
  intros items.
  destruct (field_index_ignores_empty field items) as (Heq & Hin & Hswap).
  split_and!.
  - by rewrite <-Heq.
  - apply map_lookup_filter_None. by left.
  - intros before after x y Hi Hx Hy. by rewrite (Hswap before after x y).
Qed.

Lemma ignores_records_lacking_ext field build1 build2 :
  (∀ items, build1 items = build2 items) →
  ignores_records_lacking field build1 → ignores_records_lacking field build2.
Proof. intros Hb H1 items. rewrite <-!Hb. apply H1. Qed.

Lemma ignores_records_with_empty_ext field build1 build2 :
  (∀ items, build1 items = build2 items) →
  ignores_records_with_empty field build1 → ignores_records_with_empty field build2.
Proof.
  intros Hb H1 items. rewrite <-!Hb.
  destruct (H1 items) as (? & ? & Hs). split_and!; [done..|].
  intros before after x y ???. rewrite <-Hb. by apply (Hs before after x y).
Qed.
Lemma tally_of_counts_each_record_once owner :
  counts_each_record_once owner (tally_of owner).
Proof.
  intros items. split_and!.
  - apply tally_sum_tally_of.
  - intros k. apply tally_of_lookup.
  - intros item k. rewrite tally_of_snoc. apply increment_lookup.
Qed.

Lemma counts_each_record_once_ext owner tally1 tally2 :
  (∀ items, tally1 items = tally2 items) →
  counts_each_record_once owner tally1 → counts_each_record_once owner tally2.
Proof. intros Ht H1 items. rewrite <-!Ht. setoid_rewrite <-Ht. apply H1. Qed.

Lemma get_S_default_bucket field sentinel :
  bucket_is_owner_or_sentinel field sentinel (get_S_default field sentinel).
Proof. intros item. unfold get_S_default. by destruct (get_S field item). Qed.

Lemma tally_of_two_and_one owner r1 r2 r3 u1 u2 :
  u1 ≠ u2 → owner r1 = u1 → owner r2 = u1 → owner r3 = u2 →
  tally_of owner [r1; r2; r3] = {[ u1 := 2; u2 := 1 ]}.
Proof.
  intros Hne H1 H2 H3. unfold tally_of. simpl. rewrite H1, H2, H3.
  unfold increment. rewrite lookup_empty. simpl.
  rewrite lookup_insert_eq. simpl. rewrite insert_insert_eq.
  rewrite lookup_insert_ne, lookup_empty by done. simpl.
  by rewrite insert_insert_ne.
Qed.
Lemma tally_of_swap owner before x y after :
  owner x = owner y →
  tally_of owner (before ++ x :: after) = tally_of owner (before ++ y :: after).
Proof.
  intros Hxy. unfold tally_of. rewrite !fold_left_app. simpl. by rewrite Hxy.
Qed.

Lemma tally_of_single_bucket owner s items :
  items ≠ [] → Forall (λ item, owner item = s) items →
  tally_of owner items = {[ s := length items ]}.
Proof.
  induction items as [|item items IH] using rev_ind; [done|].
  intros _ [Hall [Hs _]%Forall_cons]%Forall_app.
  rewrite tally_of_snoc, Hs, length_app. simpl. unfold increment.
  destruct items as [|item' items'].
  - unfold tally_of. simpl. by rewrite lookup_empty.
  - rewrite IH by done. rewrite lookup_singleton_eq. simpl.
    by rewrite insert_singleton_eq.
Qed.

Lemma field_aggregate_sentinel field :
  sentinel_is_shared field (field_aggregate field).
Proof.
  unfold field_aggregate. split_and!.
  - intros items Hne Hall. apply tally_of_single_bucket; [done|].
    eapply Forall_impl; [exact Hall|]. simpl. intros item Hl.
    unfold get_S_default. by rewrite (lacks_field_get_S _ _ Hl).
  - intros before after x y Hx Hy. apply tally_of_swap.
    unfold get_S_default. by rewrite Hx, (lacks_field_get_S _ _ Hy).
  - intros items. rewrite tally_of_lookup. unfold owned_by.
    rewrite (list_filter_iff _
               (λ item, get_S field item = Some "N/A" ∨ get_S field item = None)).
    + by case_decide as Hd; [rewrite Hd|].
    + intros item. unfold get_S_default.
      destruct (get_S field item); simpl; naive_solver.
Qed.

Lemma sentinel_is_shared_ext field tally1 tally2 :
  (∀ items, tally1 items = tally2 items) →
  sentinel_is_shared field tally1 → sentinel_is_shared field tally2.
Proof.
  intros Ht (H1 & H2 & H3). split_and!.
  - intros items ??. rewrite <-Ht. by apply H1.
  - intros before after x y ??. rewrite <-!Ht. by apply H2.
  - intros items. rewrite <-Ht. apply H3.
Qed.
(** *** The scan loop *)

Lemma page_fetches_length table_name cursor pages :
  length (page_fetches table_name cursor pages) = length pages.
Proof.
  revert cursor. induction pages as [|page pages IH]; intros cursor; [done|].
  simpl. by rewrite IH.
Qed.

Lemma concat_length_sum (pages : list ScanResponse) :
  length (concat (page_items <$> pages))
  = sum_list (length <$> (page_items <$> pages)).
Proof.
  induction pages as [|page pages IH]; [done|].
  rewrite !fmap_cons. simpl. by rewrite length_app, IH.
Qed.

Lemma scan_loop_serves {Env} (B : Backend Env) table_name cursor e pages e' :
  serves_pages B table_name cursor e pages e' →
  cursor = None ∨ key_truthy cursor = true →
  ∀ fuel items log,
    length pages ≤ fuel →
    scan_loop B fuel table_name items cursor {| env := e; events := log |}
    = (Returned (items ++ concat (page_items <$> pages)),
       {| env := e'; events := log ++ page_fetches table_name cursor pages |}).
Proof.
  induction 1 as [cursor e page e' Hscan Hlast
                 |cursor e page e1 pages e' Hscan Hnext _ IH];
    intros Hcursor fuel items log Hfuel.
  - destruct fuel as [|fuel]; [simpl in Hfuel; lia|].
    simpl. unfold mbind, M_bind.
    assert ((if key_truthy cursor
             then call_scan B table_name cursor
             else call_scan B table_name None) = call_scan B table_name cursor)
      as -> by (destruct Hcursor as [-> | Hc]; rewrite ?Hc; done).
    unfold call_scan. simpl. rewrite Hscan, Hlast. simpl.
    unfold mret, M_ret, page_items. by rewrite app_nil_r.
  - destruct fuel as [|fuel]; [simpl in Hfuel; lia|].
    simpl. unfold mbind, M_bind.
    assert ((if key_truthy cursor
             then call_scan B table_name cursor
             else call_scan B table_name None) = call_scan B table_name cursor)
      as -> by (destruct Hcursor as [-> | Hc]; rewrite ?Hc; done).
    unfold call_scan. simpl. rewrite Hscan, Hnext. simpl.
    rewrite IH by (auto; simpl in Hfuel; lia).
    unfold page_items. by rewrite <-!app_assoc.
Qed.
(** *** Events added by the computations *)

Lemma emits_mret {Env A} P (a : A) : emits (Env := Env) P (mret a).
Proof. intros w. exists []. by rewrite app_nil_r. Qed.

Lemma emits_bind {Env A C} P (m : M Env A) (k : A → M Env C) :
  emits P m → (∀ a, emits P (k a)) → emits P (m ≫= k).
Proof.
  intros Hm Hk w. unfold mbind, M_bind.
  destruct (Hm w) as (evs & Hevs & HP).
  destruct (m w) as [[a|e|] w1]; simpl in *; [|by exists evs..].
  destruct (Hk a w1) as (evs' & Hevs' & HP').
  exists (evs ++ evs'). rewrite Hevs', Hevs, app_assoc.
  split; [done|by apply Forall_app].
Qed.

Lemma emits_try_except {Env A} P (body : M Env A) handler :
  emits P body → (∀ e, emits P (handler e)) → emits P (try_except body handler).
Proof.
  intros Hm Hk w. unfold try_except.
  destruct (Hm w) as (evs & Hevs & HP).
  destruct (body w) as [[a|e|] w1]; simpl in *; [by exists evs| |by exists evs].
  destruct (Hk e w1) as (evs' & Hevs' & HP').
  exists (evs ++ evs'). rewrite Hevs', Hevs, app_assoc.
  split; [done|by apply Forall_app].
Qed.

Lemma emits_emit {Env} (P : Event → Prop) ev : P ev → emits (Env := Env) P (emit ev).
Proof. intros HP w. exists [ev]. split; [done|by constructor]. Qed.

Lemma emits_call_scan {Env} (B : Backend Env) (P : Event → Prop) table_name k :
  P (CallScan table_name k) → emits P (call_scan B table_name k).
Proof.
  intros HP w. exists [CallScan table_name k]. unfold call_scan.
  split; [|by constructor].
  by destruct (scan B table_name k (env w)) as [[e|response] env'].
Qed.

Lemma emits_call_write_json {Env} (B : Backend Env) (P : Event → Prop) path report :
  P (CallWriteJson path report) → emits P (call_write_json B path report).
Proof.
  intros HP w. exists [CallWriteJson path report]. unfold call_write_json.
  split; [|by constructor].
  by destruct (write_json B path report (env w)) as [[e|] env'].
Qed.

Lemma emits_scan_loop {Env} (B : Backend Env) (P : Event → Prop)
    fuel table_name items k :
  (∀ k, P (CallScan table_name k)) →
  emits P (scan_loop B fuel table_name items k).
Proof.
  intros HP. revert items k.
  induction fuel as [|fuel IH]; intros items k.
  - intros w. exists []. by rewrite app_nil_r.
  - simpl. apply emits_bind.
    + destruct (key_truthy k); by apply emits_call_scan.
    + intros response. destruct (negb _); [apply emits_mret|apply IH].
Qed.

Lemma emits_scan_table {Env} (B : Backend Env) (P : Event → Prop) fuel table_name :
  (∀ ev, scan_table_event table_name ev → P ev) →
  emits P (scan_table B fuel table_name).
Proof.
  intros HP. unfold scan_table, print.
  apply emits_bind; [apply emits_emit, HP; by left|]. intros _.
  apply emits_bind.
  { apply emits_scan_loop. intros k. apply HP. right; left. by exists k. }
  intros items. apply emits_bind; [|intros _; apply emits_mret].
  apply emits_emit, HP. right; right. by eexists.
Qed.

Lemma emits_save_report {Env} (B : Backend Env) (P : Event → Prop) args file report :
  (∀ path, P (CallWriteJson path report)) →
  emits P (save_report B args file report).
Proof.
  intros HP. unfold save_report.
  destruct (output_dir args) as [dir|]; [|apply emits_mret].
  destruct (truthy _); [by apply emits_call_write_json|apply emits_mret].
Qed.
(** *** The existence check *)

Lemma check_tables_spec {Env} (B : Backend Env) tables existing w :
  check_tables B tables existing w
  = (Returned (existing ++ confirmed (probe_results B tables (env w)).1),
     {| env := (probe_results B tables (env w)).2;
        events := events w
                  ++ concat (probe_events <$> (probe_results B tables (env w)).1) |}).
Proof.
  revert existing w. induction tables as [|table rest IH]; intros existing w.
  - simpl. unfold mret, M_ret. rewrite !app_nil_r. by destruct w.
  - simpl. unfold mbind, M_bind, check_table, call_describe_table.
    unfold mbind, M_bind.
    destruct (describe_table B table (env w)) as [r e1] eqn:Hd.
    destruct (probe_results B rest e1) as [rs e'] eqn:Hp.
    destruct r as [item_count| |e]; simpl; rewrite IH; simpl; rewrite Hp; simpl;
      by rewrite <-?app_assoc.
Qed.

Lemma probe_results_tables {Env} (B : Backend Env) tables e :
  (probe_results B tables e).1.*1 = tables.
Proof.
  revert e. induction tables as [|table rest IH]; intros e; [done|].
  simpl. destruct (describe_table B table e) as [r e1].
  specialize (IH e1). destruct (probe_results B rest e1) as [rs e'].
  simpl in *. by f_equal.
Qed.

Lemma confirmed_elem probes table :
  table ∈ confirmed probes ↔ ∃ item_count, (table, Described item_count) ∈ probes.
Proof.
  induction probes as [|[t r] rest IH]; simpl.
  - split; [by intros ?%not_elem_of_nil|by intros [? ?%not_elem_of_nil]].
  - destruct r as [c| |e]; rewrite ?elem_of_cons, IH; setoid_rewrite elem_of_cons;
      naive_solver.
Qed.

Lemma probe_events_check probes :
  Forall check_event (concat (probe_events <$> probes)).
Proof.
  induction probes as [|probe rest IH]; [constructor|].
  rewrite fmap_cons. simpl. repeat constructor; [done..|exact IH].
Qed.

Lemma probe_events_elem probes table r :
  (table, r) ∈ probes →
  Print match r with
        | Described item_count => TableExists table item_count
        | ResourceNotFoundException => TableMissing table
        | DescribeFailed e => TableCheckError table e
        end ∈ concat (probe_events <$> probes).
Proof.
  induction probes as [|probe rest IH]; [by intros ?%not_elem_of_nil|].
  rewrite fmap_cons. simpl. intros [<-|Hin]%elem_of_cons.
  - simpl. apply list_elem_of_further, list_elem_of_here.
  - do 2 apply list_elem_of_further. by apply IH.
Qed.

(** With distinct table names, the lines about a table are those of its
    one probe. *)
Lemma probe_events_inv probes out :
  Print out ∈ concat (probe_events <$> probes) →
  ∃ t r, (t, r) ∈ probes
         ∧ out = match r with
                 | Described item_count => TableExists t item_count
                 | ResourceNotFoundException => TableMissing t
                 | DescribeFailed e => TableCheckError t e
                 end.
Proof.
  induction probes as [|[t r] rest IH]; [by intros ?%not_elem_of_nil|].
  rewrite fmap_cons. simpl. rewrite !elem_of_cons.
  intros [?|[[= ->]|Hin]]; [done| |].
  - exists t, r. split; [apply list_elem_of_here|done].
  - destruct (IH Hin) as (t' & r' & ? & ?). exists t', r'.
    split; [by apply list_elem_of_further|done].
Qed.
Lemma tables_NoDup args : NoDup (tables args).
Proof.
  change (tables args) with
    (String.append (table_prefix args) <$>
       ["-Users"; "-Accounts"; "-Transactions"; "-Budgets"; "-Goals"; "-AuditLogs"]).
  apply (NoDup_fmap_2 _). by apply (bool_decide_unpack _).
Qed.

Lemma probe_unique (probes : list (string * DescribeResult)) table r1 r2 :
  NoDup probes.*1 → (table, r1) ∈ probes → (table, r2) ∈ probes → r1 = r2.
Proof.
  induction probes as [|[t r] rest IH]; [by intros _ ?%not_elem_of_nil|].
  rewrite fmap_cons. simpl. intros [Hnotin Hnd]%NoDup_cons.
  rewrite !elem_of_cons. intros [E1|H1] [E2|H2]; simplify_eq.
  - done.
  - exfalso. apply Hnotin. apply list_elem_of_fmap. by exists (t, r2).
  - exfalso. apply Hnotin. apply list_elem_of_fmap. by exists (t, r1).
  - by apply IH.
Qed.

Lemma scan_table_event_analysis existing table_name ev :
  table_name ∈ existing →
  scan_table_event table_name ev → analysis_event existing ev.
Proof.
  intros Hin [->|[[k ->]|[n ->]]]; split; try done.
  by intros table k' [= <- _].
Qed.

Lemma review_accounts_emits {Env} (B : Backend Env) fuel args existing :
  emits (analysis_event existing) (review_accounts B fuel args existing).
Proof.
  unfold review_accounts. case_bool_decide as Hin; [|apply emits_mret].
  apply emits_bind; [by apply emits_emit|]. intros _.
  apply emits_try_except; [|intros e; by apply emits_emit].
  apply emits_bind.
  { apply emits_scan_table. intros ev. by apply scan_table_event_analysis. }
  intros [|item items]; [apply emits_mret|].
  apply emits_bind; [by apply emits_emit|]. intros _.
  by apply emits_save_report.
Qed.

Lemma review_transactions_emits {Env} (B : Backend Env) fuel args existing :
  emits (analysis_event existing) (review_transactions B fuel args existing).
Proof.
  unfold review_transactions. case_bool_decide as Hin; [|apply emits_mret].
  apply emits_bind; [by apply emits_emit|]. intros _.
  apply emits_try_except; [|intros e; by apply emits_emit].
  apply emits_bind.
  { apply emits_scan_table. intros ev. by apply scan_table_event_analysis. }
  intros [|item items]; [apply emits_mret|].
  apply emits_bind; [by apply emits_emit|]. intros _.
  by apply emits_save_report.
Qed.
(** *** No exception escapes a guarded block *)

Lemma never_raises_mret {Env A} (a : A) : never_raises (Env := Env) (mret a).
Proof. by intros w e. Qed.

Lemma never_raises_bind {Env A C} (m : M Env A) (k : A → M Env C) :
  never_raises m → (∀ a, never_raises (k a)) → never_raises (m ≫= k).
Proof.
  intros Hm Hk w e. unfold mbind, M_bind.
  specialize (Hm w). destruct (m w) as [[a|e'|] w1]; simpl in *.
  - apply Hk.
  - by destruct (Hm e').
  - done.
Qed.

Lemma never_raises_try_except {Env A} (body : M Env A) handler :
  (∀ e, never_raises (handler e)) → never_raises (try_except body handler).
Proof.
  intros Hh w e. unfold try_except.
  destruct (body w) as [[a|e'|] w1]; simpl; [done| |done]. apply Hh.
Qed.

Lemma never_raises_emit {Env} ev : never_raises (Env := Env) (emit ev).
Proof. by intros w e. Qed.

Lemma never_raises_check_tables {Env} (B : Backend Env) tables existing :
  never_raises (check_tables B tables existing).
Proof. intros w e. by rewrite check_tables_spec. Qed.

Lemma never_raises_review_accounts {Env} (B : Backend Env) fuel args existing :
  never_raises (review_accounts B fuel args existing).
Proof.
  unfold review_accounts. case_bool_decide; [|apply never_raises_mret].
  apply never_raises_bind; [apply never_raises_emit|]. intros _.
  apply never_raises_try_except. intros e. apply never_raises_emit.
Qed.

Lemma never_raises_review_transactions {Env} (B : Backend Env) fuel args existing :
  never_raises (review_transactions B fuel args existing).
Proof.
  unfold review_transactions. case_bool_decide; [|apply never_raises_mret].
  apply never_raises_bind; [apply never_raises_emit|]. intros _.
  apply never_raises_try_except. intros e. apply never_raises_emit.
Qed.

Lemma never_raises_analyze_tables {Env} (B : Backend Env) fuel args existing :
  never_raises (analyze_tables B fuel args existing).
Proof.
  unfold analyze_tables, print.
  apply never_raises_bind; [apply never_raises_emit|]. intros _.
  apply never_raises_bind; [apply never_raises_review_accounts|]. intros _.
  apply never_raises_bind; [apply never_raises_review_transactions|]. intros _.
  apply never_raises_emit.
Qed.

Lemma never_raises_review {Env} (B : Backend Env) fuel args :
  never_raises (review B fuel args).
Proof.
  unfold review, print.
  apply never_raises_bind; [apply never_raises_emit|]. intros _.
  apply never_raises_bind; [apply never_raises_check_tables|]. intros existing.
  apply never_raises_analyze_tables.
Qed.

Lemma never_raises_main {Env} (B : Backend Env) fuel args :
  never_raises (main B fuel args).
Proof.
  unfold main, print.
  apply never_raises_bind; [apply never_raises_emit|]. intros _.
  apply never_raises_bind; [apply never_raises_emit|]. intros _.
  apply never_raises_bind.
  { intros w e. unfold call_connect. by destruct (connect B _ _). }
  intros [e|].
  - apply never_raises_bind; [apply never_raises_emit|]. intros _.
    apply never_raises_mret.
  - apply never_raises_bind; [apply never_raises_review|]. intros _.
    apply never_raises_mret.
Qed.

(** [main] after a successful connection is [review] after the banner. *)
Lemma main_connected {Env} (B : Backend Env) fuel args w e0 :
  connect B (region args) (env w) = (None, e0) →
  let w0 := {| env := e0;
               events := events w
                         ++ [ Print (Header "BudgetBuddy Database Review");
                              Print (Banner (region args) (table_prefix args)) ] |} in
  main B fuel args w
  = match review B fuel args w0 with
    | (Returned _, w') => (Returned 0, w')
    | (Raised e, w') => (Raised e, w')
    | (OutOfFuel, w') => (OutOfFuel, w')
    end.
Proof.
  intros Hc w0. unfold main, print, emit, call_connect, mbind, M_bind. simpl.
  rewrite Hc. simpl. subst w0. rewrite <-app_assoc. simpl.
  by destruct (review B fuel args _) as [[[]|e|] w'].
Qed.

Lemma review_events {Env} (B : Backend Env) fuel args w :
  let probes := (probe_results B (tables args) (env w)).1 in
  ∃ rest,
    events (review B fuel args w).2
    = events w ++ [Print (Header "Step 1: Checking Tables")]
               ++ concat (probe_events <$> probes) ++ rest
    ∧ Forall (analysis_event (confirmed probes)) rest.
Proof.
  intros probes. subst probes. unfold review, print.
  generalize (tables args). intros ts.
  set (probes := (probe_results B ts (env w)).1).
  unfold mbind at 1, M_bind at 1. unfold emit at 1.
  unfold mbind at 1, M_bind at 1. rewrite check_tables_spec.
  cbn [env events app]. fold probes.
  set (w1 := {| env := _; events := _ |}).
  assert (emits (analysis_event (confirmed probes))
            (analyze_tables B fuel args (confirmed probes))) as Hem.
  { unfold analyze_tables, print. apply emits_bind; [by apply emits_emit|]. intros _.
    apply emits_bind; [apply review_accounts_emits|]. intros _.
    apply emits_bind; [apply review_transactions_emits|]. intros _.
    by apply emits_emit. }
  destruct (Hem w1) as (rest & Hrest & HP).
  exists rest. split; [|done]. rewrite Hrest. subst w1. cbn [events].
  by rewrite <-!app_assoc.
Qed.
Lemma probe_outcome_holds (probes : list (string * DescribeResult)) table r :
  NoDup probes.*1 → (table, r) ∈ probes →
  probe_outcome (confirmed probes) (concat (probe_events <$> probes)) table r.
Proof.
  intros Hnd Hin. unfold probe_outcome.
  pose proof (probe_events_elem probes table r Hin) as Hline.
  destruct r as [item_count| |e].
  - split; [|done]. apply confirmed_elem. by exists item_count.
  - split_and!; [|done|].
    + intros [c Hc]%confirmed_elem.
      by pose proof (probe_unique probes table _ _ Hnd Hin Hc).
    + intros e (t & r & Hr & Heq)%probe_events_inv.
      destruct r; simplify_eq.
      by pose proof (probe_unique probes t _ _ Hnd Hin Hr).
  - split; [|done]. intros [c Hc]%confirmed_elem.
    by pose proof (probe_unique probes table _ _ Hnd Hin Hc).
Qed.
(** *** The analysis blocks *)

Lemma and_then_and_then {Env} (w : World Env) evs1 evs2 :
  and_then (and_then w evs1) evs2 = and_then w (evs1 ++ evs2).
Proof. unfold and_then. simpl. by rewrite app_assoc. Qed.

Lemma scan_table_events {Env} (B : Backend Env) fuel table_name w r w' :
  scan_table B fuel table_name w = (r, w') →
  ∃ fetches, events w' = events w ++ fetches
             ∧ Forall (scan_table_event table_name) fetches.
Proof.
  intros Hs.
  destruct (emits_scan_table B (scan_table_event table_name) fuel table_name
              (λ ev H, H) w) as (evs & Hevs & HP).
  rewrite Hs in Hevs. by exists evs.
Qed.

(** Saving a report inside a guarded block: the block goes on normally
    whether the write succeeds, fails or is not asked for. *)
Lemma save_report_guarded {Env} (B : Backend Env) args file report what w :
  ∃ tail w',
    try_except (save_report B args file report)
               (λ e, print (AnalyzeError what e)) w = (Returned tt, w')
    ∧ events w' = events w ++ tail
    ∧ Forall (save_event what) tail.
Proof.
  unfold try_except, save_report.
  destruct (output_dir args) as [dir|]; [|by exists [], w; rewrite app_nil_r].
  destruct (truthy _); [|by exists [], w; rewrite app_nil_r].
  unfold call_write_json.
  destruct (write_json B (dir +:+ file) report (env w)) as [[e|] env'].
  - eexists [_; _], _. split_and!; [done|simpl; by rewrite <-app_assoc|].
    apply Forall_cons. split; [left; eauto|].
    apply Forall_cons. split; [right; eauto|constructor].
  - eexists [_], _. split_and!; [done..|].
    apply Forall_cons. split; [left; eauto|constructor].
Qed.

Lemma try_except_bind_Returned {Env A C} (m : M Env A) (k : A → M Env C) h w a w1 :
  m w = (Returned a, w1) →
  try_except (m ≫= k) h w = try_except (k a) h w1.
Proof. intros Hm. unfold try_except, mbind, M_bind. by rewrite Hm. Qed.

Lemma try_except_bind_Raised {Env A C} (m : M Env A) (k : A → M Env C) h w e w1 :
  m w = (Raised e, w1) →
  try_except (m ≫= k) h w = h e w1.
Proof. intros Hm. unfold try_except, mbind, M_bind. by rewrite Hm. Qed.

Lemma review_accounts_scan_raises {Env} (B : Backend Env) fuel args existing w e w2 :
  table_prefix args +:+ "-Accounts" ∈ existing →
  scan_table B fuel (table_prefix args +:+ "-Accounts")
    (and_then w [Print (Header "Accounts Analysis")]) = (Raised e, w2) →
  review_accounts B fuel args existing w
  = (Returned tt, and_then w2 [Print (AnalyzeError "accounts" e)]).
Proof.
  intros Hin Hs. unfold review_accounts. rewrite bool_decide_eq_true_2 by done.
  unfold mbind at 1, M_bind at 1. unfold print at 1, emit at 1.
  fold (and_then w [Print (Header "Accounts Analysis")]).
  by rewrite (try_except_bind_Raised _ _ _ _ e w2).
Qed.

Lemma review_transactions_scan_raises {Env} (B : Backend Env) fuel args existing w e w2 :
  table_prefix args +:+ "-Transactions" ∈ existing →
  scan_table B fuel (table_prefix args +:+ "-Transactions")
    (and_then w [Print (Header "Transactions Analysis")]) = (Raised e, w2) →
  review_transactions B fuel args existing w
  = (Returned tt, and_then w2 [Print (AnalyzeError "transactions" e)]).
Proof.
  intros Hin Hs. unfold review_transactions. rewrite bool_decide_eq_true_2 by done.
  unfold mbind at 1, M_bind at 1. unfold print at 1, emit at 1.
  fold (and_then w [Print (Header "Transactions Analysis")]).
  by rewrite (try_except_bind_Raised _ _ _ _ e w2).
Qed.

Lemma review_accounts_scan_returns {Env} (B : Backend Env) fuel args existing
    w items w2 :
  table_prefix args +:+ "-Accounts" ∈ existing →
  scan_table B fuel (table_prefix args +:+ "-Accounts")
    (and_then w [Print (Header "Accounts Analysis")]) = (Returned items, w2) →
  ∃ tail w',
    review_accounts B fuel args existing w = (Returned tt, w')
    ∧ events w' = events w2
                  ++ match items with
                     | [] => []
                     | _ :: _ => Print (AccountAnalysis (analyze_accounts items)) :: tail
                     end
    ∧ Forall (save_event "accounts") tail.
Proof.
  intros Hin Hs. unfold review_accounts. rewrite bool_decide_eq_true_2 by done.
  unfold mbind at 1, M_bind at 1. unfold print at 1, emit at 1.
  fold (and_then w [Print (Header "Accounts Analysis")]).
  rewrite (try_except_bind_Returned _ _ _ _ items w2) by done.
  destruct items as [|item items].
  - exists [], w2. by rewrite app_nil_r.
  - rewrite (try_except_bind_Returned _ _ _ _ tt
               (and_then w2 [Print (AccountAnalysis (analyze_accounts (item :: items)))]))
      by done.
    destruct (save_report_guarded B args "/accounts-analysis.json"
                (AccountsReport (analyze_accounts (item :: items))) "accounts"
                (and_then w2 [Print (AccountAnalysis (analyze_accounts (item :: items)))]))
      as (tail & w' & Hrun & Hev & HP).
    exists tail, w'. split_and!; [done| |done].
    rewrite Hev. simpl. by rewrite <-app_assoc.
Qed.

Lemma review_transactions_scan_returns {Env} (B : Backend Env) fuel args existing
    w items w2 :
  table_prefix args +:+ "-Transactions" ∈ existing →
  scan_table B fuel (table_prefix args +:+ "-Transactions")
    (and_then w [Print (Header "Transactions Analysis")]) = (Returned items, w2) →
  ∃ tail w',
    review_transactions B fuel args existing w = (Returned tt, w')
    ∧ events w' = events w2
                  ++ match items with
                     | [] => []
                     | _ :: _ =>
                         Print (TransactionAnalysis (analyze_transactions items)) :: tail
                     end
    ∧ Forall (save_event "transactions") tail.
Proof.
  intros Hin Hs. unfold review_transactions. rewrite bool_decide_eq_true_2 by done.
  unfold mbind at 1, M_bind at 1. unfold print at 1, emit at 1.
  fold (and_then w [Print (Header "Transactions Analysis")]).
  rewrite (try_except_bind_Returned _ _ _ _ items w2) by done.
  destruct items as [|item items].
  - exists [], w2. by rewrite app_nil_r.
  - rewrite (try_except_bind_Returned _ _ _ _ tt
               (and_then w2 [Print (TransactionAnalysis
                                      (analyze_transactions (item :: items)))]))
      by done.
    destruct (save_report_guarded B args "/transactions-analysis.json"
                (TransactionsReport (analyze_transactions (item :: items)))
                "transactions"
                (and_then w2 [Print (TransactionAnalysis
                                       (analyze_transactions (item :: items)))]))
      as (tail & w' & Hrun & Hev & HP).
    exists tail, w'. split_and!; [done| |done].
    rewrite Hev. simpl. by rewrite <-app_assoc.
Qed.

Lemma analyze_tables_unfold {Env} (B : Backend Env) fuel args existing w :
  analyze_tables B fuel args existing w
  = (review_accounts B fuel args existing;;
     review_transactions B fuel args existing;;
     print (Header "Review Complete!"))
      (and_then w [Print (Header "Step 2: Analyzing Tables")]).
Proof. reflexivity. Qed.


(** *** Scans that fail or do not end *)

Lemma scan_loop_fails {Env} (B : Backend Env) table_name cursor e pages exc e' :
  serves_then_fails B table_name cursor e pages exc e' →
  cursor = None ∨ key_truthy cursor = true →
  ∀ fuel items log,
    length pages < fuel →
    scan_loop B fuel table_name items cursor {| env := e; events := log |}
    = (Raised exc,
       {| env := e';
          events := log ++ fetches_and_one_more table_name cursor pages |}).
Proof.
  induction 1 as [cursor e exc e' Hscan
                 |cursor e page e1 pages exc e' Hscan Hnext _ IH];
    intros Hcursor fuel items log Hfuel.
  - destruct fuel as [|fuel]; [simpl in Hfuel; lia|].
    simpl. unfold mbind, M_bind.
    assert ((if key_truthy cursor
             then call_scan B table_name cursor
             else call_scan B table_name None) = call_scan B table_name cursor)
      as -> by (destruct Hcursor as [-> | Hc]; rewrite ?Hc; done).
    unfold call_scan. simpl. by rewrite Hscan.
  - destruct fuel as [|fuel]; [simpl in Hfuel; lia|].
    simpl. unfold mbind, M_bind.
    assert ((if key_truthy cursor
             then call_scan B table_name cursor
             else call_scan B table_name None) = call_scan B table_name cursor)
      as -> by (destruct Hcursor as [-> | Hc]; rewrite ?Hc; done).
    unfold call_scan. simpl. rewrite Hscan, Hnext. simpl.
    rewrite IH by (auto; simpl in Hfuel; lia).
    by rewrite <-!app_assoc.
Qed.

Lemma scan_loop_endless {Env} (B : Backend Env) table_name :
  always_has_more B table_name →
  ∀ fuel items cursor w,
    ∃ fetches w',
      scan_loop B fuel table_name items cursor w = (OutOfFuel, w')
      ∧ events w' = events w ++ fetches
      ∧ length fetches = fuel.
Proof.
  intros Hmore. induction fuel as [|fuel IH]; intros items cursor w.
  - exists [], w. by rewrite app_nil_r.
  - simpl. unfold mbind, M_bind.
    set (key := if key_truthy cursor then cursor else None).
    assert ((if key_truthy cursor
             then call_scan B table_name cursor
             else call_scan B table_name None) = call_scan B table_name key)
      as -> by (subst key; by destruct (key_truthy cursor)).
    unfold call_scan.
    destruct (Hmore key (env w)) as (page & e' & Hscan & Hnext).
    rewrite Hscan, Hnext. simpl.
    destruct (IH (items ++ default [] (Items page)) (LastEvaluatedKey page)
                {| env := e'; events := events w ++ [CallScan table_name key] |})
      as (fetches & w' & Hrun & Hev & Hlen).
    exists (CallScan table_name key :: fetches), w'.
    split_and!; [done| |simpl; by rewrite Hlen].
    rewrite Hev. simpl. by rewrite <-app_assoc.
Qed.

(** *** What a run may touch *)

Lemma emits_call_describe_table {Env} (B : Backend Env) (P : Event → Prop) table :
  P (CallDescribeTable table) → emits P (call_describe_table B table).
Proof.
  intros HP w. exists [CallDescribeTable table]. unfold call_describe_table.
  split; [|by constructor].
  by destruct (describe_table B table (env w)) as [r env'].
Qed.

Lemma emits_call_connect {Env} (B : Backend Env) (P : Event → Prop) region :
  emits P (call_connect B region).
Proof.
  intros w. exists []. unfold call_connect. split; [|constructor].
  destruct (connect B region (env w)) as [r env']. simpl. by rewrite app_nil_r.
Qed.

Lemma emits_check_tables {Env} (B : Backend Env) (P : Event → Prop) tables existing :
  (∀ table, P (CallDescribeTable table)) → (∀ out, P (Print out)) →
  emits P (check_tables B tables existing).
Proof.
  intros Hcall Hprint. revert existing.
  induction tables as [|table rest IH]; intros existing; [apply emits_mret|].
  simpl. apply emits_bind; [|intros existing'; apply IH].
  unfold check_table. apply emits_bind; [by apply emits_call_describe_table|].
  intros [item_count| |exc];
    (apply emits_bind; [apply emits_emit, Hprint|intros _; apply emits_mret]).
Qed.

Lemma emits_save_report_permitted {Env} (B : Backend Env) args file report :
  match report with
  | AccountsReport _ => file = "/accounts-analysis.json"
  | TransactionsReport _ => file = "/transactions-analysis.json"
  end →
  emits (permitted_event args) (save_report B args file report).
Proof.
  intros Hfile. unfold save_report.
  destruct (output_dir args) as [dir|] eqn:Hdir; [|apply emits_mret].
  destruct (truthy (Some dir)) eqn:Hv; [|apply emits_mret].
  apply emits_call_write_json. simpl. exists dir.
  split_and!; [done|by apply truthy_Some|].
  destruct report; by rewrite Hfile.
Qed.

Lemma emits_review_accounts_permitted {Env} (B : Backend Env) fuel args existing :
  emits (permitted_event args) (review_accounts B fuel args existing).
Proof.
  unfold review_accounts. case_bool_decide as Hin; [|apply emits_mret].
  apply emits_bind; [by apply emits_emit|]. intros _.
  apply emits_try_except; [|intros e; by apply emits_emit].
  apply emits_bind.
  { apply emits_scan_table. intros ev [->|[[k ->]|[n ->]]]; simpl; auto. }
  intros [|item items]; [apply emits_mret|].
  apply emits_bind; [by apply emits_emit|]. intros _.
  by apply emits_save_report_permitted.
Qed.

Lemma emits_review_transactions_permitted {Env} (B : Backend Env) fuel args existing :
  emits (permitted_event args) (review_transactions B fuel args existing).
Proof.
  unfold review_transactions. case_bool_decide as Hin; [|apply emits_mret].
  apply emits_bind; [by apply emits_emit|]. intros _.
  apply emits_try_except; [|intros e; by apply emits_emit].
  apply emits_bind.
  { apply emits_scan_table. intros ev [->|[[k ->]|[n ->]]]; simpl; auto. }
  intros [|item items]; [apply emits_mret|].
  apply emits_bind; [by apply emits_emit|]. intros _.
  by apply emits_save_report_permitted.
Qed.

Lemma emits_main_permitted {Env} (B : Backend Env) fuel args :
  emits (permitted_event args) (main B fuel args).
Proof.
  unfold main, print.
  apply emits_bind; [by apply emits_emit|]. intros _.
  apply emits_bind; [by apply emits_emit|]. intros _.
  apply emits_bind; [apply emits_call_connect|].
  intros [exc|].
  { apply emits_bind; [by apply emits_emit|]. intros _. apply emits_mret. }
  apply emits_bind; [|intros _; apply emits_mret].
  unfold review, print.
  apply emits_bind; [by apply emits_emit|]. intros _.
  apply emits_bind; [by apply emits_check_tables|]. intros existing.
  unfold analyze_tables, print.
  apply emits_bind; [by apply emits_emit|]. intros _.
  apply emits_bind; [apply emits_review_accounts_permitted|]. intros _.
  apply emits_bind; [apply emits_review_transactions_permitted|]. intros _.
  by apply emits_emit.
Qed.

(** *** The blocks after their scan *)

Lemma save_report_run {Env} (B : Backend Env) args file report what
    (w2 : World Env) (printed : Output) :
  match output_dir args with
  | Some dir =>
      if truthy (Some dir) then
        match write_json B (dir +:+ file) report (env w2) with
        | (None, e') =>
            try_except (print printed;; save_report B args file report)
                       (λ e, print (AnalyzeError what e)) w2
            = (Returned tt,
               {| env := e';
                  events := events w2
                            ++ [ Print printed;
                                 CallWriteJson (dir +:+ file) report ] |})
        | (Some exc, e') =>
            try_except (print printed;; save_report B args file report)
                       (λ e, print (AnalyzeError what e)) w2
            = (Returned tt,
               {| env := e';
                  events := events w2
                            ++ [ Print printed;
                                 CallWriteJson (dir +:+ file) report;
                                 Print (AnalyzeError what exc) ] |})
        end
      else try_except (print printed;; save_report B args file report)
                      (λ e, print (AnalyzeError what e)) w2
           = (Returned tt, and_then w2 [Print printed])
  | None => try_except (print printed;; save_report B args file report)
                       (λ e, print (AnalyzeError what e)) w2
            = (Returned tt, and_then w2 [Print printed])
  end.
Proof.
  unfold try_except, save_report, print, emit, mbind, M_bind, call_write_json.
  destruct (output_dir args) as [dir|]; [|done].
  destruct (truthy (Some dir)); [|done]. cbn [env events].
  destruct (write_json B (dir +:+ file) report (env w2)) as [[exc|] e'];
    cbn [env events]; by rewrite <-!app_assoc.
Qed.

Lemma review_accounts_after_scan {Env} (B : Backend Env) fuel args existing
    w items w2 :
  table_prefix args +:+ "-Accounts" ∈ existing →
  scan_table B fuel (table_prefix args +:+ "-Accounts")
    (and_then w [Print (Header "Accounts Analysis")]) = (Returned items, w2) →
  block_after_scan B args (review_accounts B fuel args existing) w items w2
    (AccountAnalysis (analyze_accounts items)) "/accounts-analysis.json"
    (AccountsReport (analyze_accounts items)) "accounts".
Proof.
  intros Hin Hs.
  assert (review_accounts B fuel args existing w
          = try_except
              (match items with
               | [] => mret tt
               | _ :: _ =>
                   print (AccountAnalysis (analyze_accounts items));;
                   save_report B args "/accounts-analysis.json"
                     (AccountsReport (analyze_accounts items))
               end)
              (λ e, print (AnalyzeError "accounts" e)) w2) as Hrun.
  { unfold review_accounts. rewrite bool_decide_eq_true_2 by done.
    unfold mbind at 1, M_bind at 1. unfold print at 1, emit at 1.
    fold (and_then w [Print (Header "Accounts Analysis")]).
    rewrite (try_except_bind_Returned _ _ _ _ items w2) by done.
    by destruct items. }
  unfold block_after_scan. destruct items as [|item items]; [done|].
  rewrite Hrun. apply save_report_run.
Qed.

Lemma review_transactions_after_scan {Env} (B : Backend Env) fuel args existing
    w items w2 :
  table_prefix args +:+ "-Transactions" ∈ existing →
  scan_table B fuel (table_prefix args +:+ "-Transactions")
    (and_then w [Print (Header "Transactions Analysis")]) = (Returned items, w2) →
  block_after_scan B args (review_transactions B fuel args existing) w items w2
    (TransactionAnalysis (analyze_transactions items))
    "/transactions-analysis.json"
    (TransactionsReport (analyze_transactions items)) "transactions".
Proof.
  intros Hin Hs.
  assert (review_transactions B fuel args existing w
          = try_except
              (match items with
               | [] => mret tt
               | _ :: _ =>
                   print (TransactionAnalysis (analyze_transactions items));;
                   save_report B args "/transactions-analysis.json"
                     (TransactionsReport (analyze_transactions items))
               end)
              (λ e, print (AnalyzeError "transactions" e)) w2) as Hrun.
  { unfold review_transactions. rewrite bool_decide_eq_true_2 by done.
    unfold mbind at 1, M_bind at 1. unfold print at 1, emit at 1.
    fold (and_then w [Print (Header "Transactions Analysis")]).
    rewrite (try_except_bind_Returned _ _ _ _ items w2) by done.
    by destruct items. }
  unfold block_after_scan. destruct items as [|item items]; [done|].
  rewrite Hrun. apply save_report_run.
Qed.

(** *** Dictionaries in insertion order *)

Lemma od_get_list_to_map {V} k (d : list (string * V)) :
  od_get k d = (list_to_map d : gmap string V) !! k.
Proof.
  induction d as [|[k' v] d IH]; [done|].
  simpl. case_decide as Hk.
  - subst. by rewrite lookup_insert_eq.
  - by rewrite lookup_insert_ne.
Qed.

Lemma od_set_list_to_map {V} k (v : V) (d : list (string * V)) :
  (list_to_map (od_set k v d) : gmap string V) = <[k := v]> (list_to_map d).
Proof.
  induction d as [|[k' v'] d IH]; [done|].
  simpl. case_decide as Hk.
  - subst. simpl. by rewrite insert_insert_eq.
  - simpl. rewrite IH. by apply insert_insert_ne.
Qed.

Lemma od_set_keys {V} k (v : V) (d : list (string * V)) :
  (od_set k v d).*1 = if decide (k ∈ d.*1) then d.*1 else d.*1 ++ [k].
Proof.
  induction d as [|[k' v'] d IH]; [done|].
  cbn [od_set]. rewrite fmap_cons. cbn [fst].
  destruct (decide (k' = k)) as [->|Hk].
  - rewrite fmap_cons. cbn [fst]. rewrite decide_True; [done|].
    apply list_elem_of_here.
  - rewrite fmap_cons. cbn [fst]. rewrite IH.
    destruct (decide (k ∈ d.*1)) as [Hin|Hin].
    + rewrite decide_True; [done|]. by apply list_elem_of_further.
    + rewrite decide_False; [done|].
      intros [?|?]%elem_of_cons; [congruence|done].
Qed.

Lemma od_set_NoDup {V} k (v : V) (d : list (string * V)) :
  NoDup d.*1 → NoDup (od_set k v d).*1.
Proof.
  intros Hnd. rewrite od_set_keys. case_decide as Hin; [done|].
  apply NoDup_app. split_and!; [done| |apply NoDup_singleton].
  intros x Hx ->%list_elem_of_singleton. done.
Qed.

Lemma od_set_prefix {V} k (v : V) (d : list (string * V)) :
  d.*1 `prefix_of` (od_set k v d).*1.
Proof.
  rewrite od_set_keys. case_decide; [done|]. by apply prefix_app_r.
Qed.

Lemma od_append_if_list_to_map v item m :
  (list_to_map (od_append_if v item m) : gmap string (list Item))
  = append_if v item (list_to_map m).
Proof.
  unfold od_append_if, append_if. destruct v as [k|]; [|done].
  destruct (truthy (Some k)); [|done].
  unfold od_append_to, append_to.
  by rewrite od_set_list_to_map, od_get_list_to_map.
Qed.

Lemma od_append_if_NoDup v item m :
  NoDup m.*1 → NoDup (od_append_if v item m).*1.
Proof.
  intros Hnd. unfold od_append_if. destruct v as [k|]; [|done].
  destruct (truthy (Some k)); [|done]. by apply od_set_NoDup.
Qed.

Lemma od_append_if_prefix v item m :
  m.*1 `prefix_of` (od_append_if v item m).*1.
Proof.
  unfold od_append_if. destruct v as [k|]; [|done].
  destruct (truthy (Some k)); [|done]. apply od_set_prefix.
Qed.

Lemma od_increment_list_to_map k m :
  (list_to_map (od_increment k m) : gmap string nat)
  = increment k (list_to_map m).
Proof.
  unfold od_increment, increment.
  by rewrite od_set_list_to_map, od_get_list_to_map.
Qed.

Lemma od_index_of_snoc key items item :
  od_index_of key (items ++ [item])
  = od_append_if (key item) item (od_index_of key items).
Proof. unfold od_index_of. by rewrite fold_left_app. Qed.

Lemma od_tally_of_snoc owner items item :
  od_tally_of owner (items ++ [item])
  = od_increment (owner item) (od_tally_of owner items).
Proof. unfold od_tally_of. by rewrite fold_left_app. Qed.

Lemma od_index_of_list_to_map key items :
  (list_to_map (od_index_of key items) : gmap string (list Item))
  = index_of key items.
Proof.
  induction items as [|item items IH] using rev_ind; [done|].
  by rewrite od_index_of_snoc, index_of_snoc, od_append_if_list_to_map, IH.
Qed.

Lemma od_tally_of_list_to_map owner items :
  (list_to_map (od_tally_of owner items) : gmap string nat)
  = tally_of owner items.
Proof.
  induction items as [|item items IH] using rev_ind; [done|].
  by rewrite od_tally_of_snoc, tally_of_snoc, od_increment_list_to_map, IH.
Qed.

Lemma od_index_of_NoDup key items : NoDup (od_index_of key items).*1.
Proof.
  induction items as [|item items IH] using rev_ind; [apply NoDup_nil_2|].
  rewrite od_index_of_snoc. by apply od_append_if_NoDup.
Qed.

Lemma od_tally_of_NoDup owner items : NoDup (od_tally_of owner items).*1.
Proof.
  induction items as [|item items IH] using rev_ind; [apply NoDup_nil_2|].
  rewrite od_tally_of_snoc. by apply od_set_NoDup.
Qed.

Lemma od_index_of_prefix key items more :
  (od_index_of key items).*1 `prefix_of` (od_index_of key (items ++ more)).*1.
Proof.
  induction more as [|item more IH] using rev_ind; [by rewrite app_nil_r|].
  rewrite app_assoc, od_index_of_snoc.
  etrans; [exact IH|apply od_append_if_prefix].
Qed.

Lemma od_tally_of_prefix owner items more :
  (od_tally_of owner items).*1 `prefix_of` (od_tally_of owner (items ++ more)).*1.
Proof.
  induction more as [|item more IH] using rev_ind; [by rewrite app_nil_r|].
  rewrite app_assoc, od_tally_of_snoc.
  etrans; [exact IH|apply od_set_prefix].
Qed.

Lemma NoDup_fst_filter {V} (P : string * V → Prop) `{!∀ x, Decision (P x)}
    (d : list (string * V)) :
  NoDup d.*1 → NoDup (filter P d).*1.
Proof.
  intros Hnd. eapply sublist_NoDup; [exact Hnd|].
  apply fmap_sublist, sublist_filter.
Qed.

Lemma list_to_map_filter {V} (P : string * V → Prop) `{!∀ x, Decision (P x)}
    (d : list (string * V)) :
  NoDup d.*1 →
  (list_to_map (filter P d) : gmap string V) = filter P (list_to_map d).
Proof.
  intros Hnd. apply map_eq. intros k. apply option_eq. intros v.
  rewrite map_lookup_filter_Some.
  rewrite <-!elem_of_list_to_map by (done || by apply NoDup_fst_filter).
  rewrite list_elem_of_filter. naive_solver.
Qed.

Lemma od_find_duplicates_list_to_map m :
  NoDup m.*1 →
  (list_to_map (od_find_duplicates m) : gmap string (list Item))
  = find_duplicates (list_to_map m).
Proof. apply list_to_map_filter. Qed.

Lemma accounts_fold_in_order items st :
  fold_left accounts_body_in_order items st =
  {| ol_account_id_map :=
       fold_left (λ m item, od_append_if (get_S "accountId" item) item m)
                 items (ol_account_id_map st);
     ol_plaid_id_map :=
       fold_left (λ m item, od_append_if (get_S "plaidAccountId" item) item m)
                 items (ol_plaid_id_map st);
     ol_by_user :=
       fold_left (λ m item, od_increment (get_S_default "userId" "N/A" item) m)
                 items (ol_by_user st);
     ol_active :=
       ol_active st + length (filter (λ item, get_BOOL_default "active" true item = true) items);
     ol_inactive :=
       ol_inactive st + length (filter (λ item, get_BOOL_default "active" true item = false) items) |}.
Proof.
  revert st. induction items as [|item items IH]; intros st.
  - destruct st; simpl. f_equal; lia.
  - simpl fold_left. rewrite IH. unfold accounts_body_in_order at 1 2 3 4 5. simpl.
    rewrite !filter_cons.
    destruct (get_BOOL_default "active" true item); simpl; f_equal; lia.
Qed.

Lemma transactions_fold_in_order items st :
  fold_left transactions_body_in_order items st =
  {| otl_transaction_id_map :=
       fold_left (λ m item, od_append_if (get_S "transactionId" item) item m)
                 items (otl_transaction_id_map st);
     otl_plaid_id_map :=
       fold_left (λ m item, od_append_if (get_S "plaidTransactionId" item) item m)
                 items (otl_plaid_id_map st);
     otl_by_user :=
       fold_left (λ m item, od_increment (get_S_default "userId" "N/A" item) m)
                 items (otl_by_user st);
     otl_by_account :=
       fold_left (λ m item, od_increment (get_S_default "accountId" "N/A" item) m)
                 items (otl_by_account st) |}.
Proof.
  revert st. induction items as [|item items IH]; intros st.
  - by destruct st.
  - simpl fold_left. by rewrite IH.
Qed.

Lemma analyze_accounts_in_order_eq items :
  analyze_accounts_in_order items
  = {| oa_total := length items;
       oa_duplicate_account_ids :=
         od_find_duplicates (od_index_of (get_S "accountId") items);
       oa_duplicate_plaid_ids :=
         od_find_duplicates (od_index_of (get_S "plaidAccountId") items);
       oa_by_user := od_tally_of (get_S_default "userId" "N/A") items;
       oa_active :=
         length (filter (λ item, get_BOOL_default "active" true item = true) items);
       oa_inactive :=
         length (filter (λ item, get_BOOL_default "active" true item = false) items) |}.
Proof. unfold analyze_accounts_in_order. by rewrite accounts_fold_in_order. Qed.

Lemma analyze_transactions_in_order_eq items :
  analyze_transactions_in_order items
  = {| ot_total := length items;
       ot_duplicate_transaction_ids :=
         od_find_duplicates (od_index_of (get_S "transactionId") items);
       ot_duplicate_plaid_ids :=
         od_find_duplicates (od_index_of (get_S "plaidTransactionId") items);
       ot_by_user := od_tally_of (get_S_default "userId" "N/A") items;
       ot_by_account := od_tally_of (get_S_default "accountId" "N/A") items |}.
Proof. unfold analyze_transactions_in_order. by rewrite transactions_fold_in_order. Qed.

Lemma analyze_accounts_eq items :
  analyze_accounts items
  = {| acc_total := length items;
       acc_duplicate_account_ids := find_duplicates (index_of (get_S "accountId") items);
       acc_duplicate_plaid_ids :=
         find_duplicates (index_of (get_S "plaidAccountId") items);
       acc_by_user := tally_of (get_S_default "userId" "N/A") items;
       acc_active :=
         length (filter (λ item, get_BOOL_default "active" true item = true) items);
       acc_inactive :=
         length (filter (λ item, get_BOOL_default "active" true item = false) items) |}.
Proof. unfold analyze_accounts, accounts_loop. by rewrite accounts_fold. Qed.

Lemma analyze_transactions_eq items :
  analyze_transactions items
  = {| tr_total := length items;
       tr_duplicate_transaction_ids :=
         find_duplicates (index_of (get_S "transactionId") items);
       tr_duplicate_plaid_ids :=
         find_duplicates (index_of (get_S "plaidTransactionId") items);
       tr_by_user := tally_of (get_S_default "userId" "N/A") items;
       tr_by_account := tally_of (get_S_default "accountId" "N/A") items |}.
Proof. unfold analyze_transactions, transactions_loop. by rewrite transactions_fold. Qed.

Lemma od_duplicates_list_to_map key items :
  (list_to_map (od_find_duplicates (od_index_of key items))
     : gmap string (list Item))
  = find_duplicates (index_of key items).
Proof.
  rewrite od_find_duplicates_list_to_map by apply od_index_of_NoDup.
  by rewrite od_index_of_list_to_map.
Qed.

Lemma od_duplicates_NoDup key items :
  NoDup (od_find_duplicates (od_index_of key items)).*1.
Proof. apply NoDup_fst_filter, od_index_of_NoDup. Qed.

(** *** Sorting by count *)

Lemma insert_by_count_Permutation x l : insert_by_count x l ≡ₚ x :: l.
Proof.
  induction l as [|y l IH]; [done|].
  simpl. destruct (x.2 <? y.2); [|done].
  rewrite IH. apply Permutation_swap.
Qed.

Lemma sorted_by_count_Permutation d : sorted_by_count d ≡ₚ d.
Proof.
  induction d as [|x d IH]; [done|].
  unfold sorted_by_count in *. simpl.
  by rewrite insert_by_count_Permutation, IH.
Qed.

Lemma insert_by_count_sorted x l :
  StronglySorted (λ a b : string * nat, b.2 ≤ a.2) l →
  StronglySorted (λ a b : string * nat, b.2 ≤ a.2) (insert_by_count x l).
Proof.
  induction 1 as [|y l Hs IH Hall]; [repeat constructor|].
  simpl. destruct (Nat.ltb_spec x.2 y.2) as [Hlt|Hge].
  - constructor; [done|].
    rewrite insert_by_count_Permutation. constructor; [lia|done].
  - constructor; [by constructor|].
    constructor; [done|]. eapply Forall_impl; [exact Hall|]. simpl. lia.
Qed.

Lemma sorted_by_count_sorted d :
  StronglySorted (λ a b : string * nat, b.2 ≤ a.2) (sorted_by_count d).
Proof.
  induction d as [|x d IH]; [constructor|].
  by apply insert_by_count_sorted.
Qed.

Lemma insert_by_count_stable (c : nat) x l :
  filter (λ y : string * nat, y.2 = c) (insert_by_count x l)
  = filter (λ y : string * nat, y.2 = c) (x :: l).
Proof.
  induction l as [|y l IH]; [done|].
  simpl. destruct (Nat.ltb_spec x.2 y.2) as [Hlt|Hge]; [|done].
  rewrite filter_cons, IH, !filter_cons.
  destruct (decide (x.2 = c)) as [Hx|Hx], (decide (y.2 = c)) as [Hy|Hy];
    try done. lia.
Qed.

Lemma sorted_by_count_stable (c : nat) d :
  filter (λ y : string * nat, y.2 = c) (sorted_by_count d)
  = filter (λ y : string * nat, y.2 = c) d.
Proof.
  induction d as [|x d IH]; [done|].
  unfold sorted_by_count in *. simpl.
  by rewrite insert_by_count_stable, !filter_cons, IH.
Qed.

(** What the first ten of the sorted entries of a dictionary are. *)
Lemma top_ten_of_dictionary (d : list (string * nat)) :
  NoDup d.*1 →
  let shown := take 10 (sorted_by_count d) in
  let m : gmap string nat := list_to_map d in
  length shown = 10 `min` size m
  ∧ StronglySorted (λ a b : string * nat, b.2 ≤ a.2) shown
  ∧ NoDup shown.*1
  ∧ (∀ u c, (u, c) ∈ shown → m !! u = Some c)
  ∧ (∀ u c, m !! u = Some c → u ∉ shown.*1 → ∀ x, x ∈ shown → c ≤ x.2).
Proof.
  intros Hnd shown m.
  pose proof (sorted_by_count_Permutation d) as Hperm.
  pose proof (sorted_by_count_sorted d) as Hsorted.
  assert (NoDup (sorted_by_count d).*1) as Hnd' by by rewrite Hperm.
  assert (∀ u c, (u, c) ∈ sorted_by_count d ↔ m !! u = Some c) as Hm.
  { intros u c. rewrite Hperm. by apply elem_of_list_to_map. }
  rewrite <-(take_drop 10 (sorted_by_count d)) in Hsorted, Hnd', Hm.
  fold shown in Hsorted, Hnd', Hm.
  split_and!.
  - subst shown. rewrite length_take.
    assert (size m = length d) as -> by by apply map_size_list_to_map.
    by rewrite Hperm.
  - by apply StronglySorted_app_1_l in Hsorted.
  - rewrite fmap_app in Hnd'. by apply NoDup_app in Hnd' as (? & _ & _).
  - intros u c Hin. apply Hm, elem_of_app. by left.
  - intros u c Hu Hnot x Hx.
    apply Hm, elem_of_app in Hu as [Hu|Hu].
    { destruct Hnot. apply list_elem_of_fmap. by exists (u, c). }
    apply (StronglySorted_app_1_elem_of _ _ _ x (u, c) Hsorted Hx Hu).
Qed.

(** *** The entries of the printed lines *)

Lemma user_entries_app l1 l2 :
  user_entries (l1 ++ l2) = user_entries l1 ++ user_entries l2.
Proof. apply omap_app. Qed.

Lemma group_entries_app label l1 l2 :
  group_entries label (l1 ++ l2) = group_entries label l1 ++ group_entries label l2.
Proof. apply omap_app. Qed.

Lemma member_entries_app label l1 l2 :
  member_entries label (l1 ++ l2)
  = member_entries label l1 ++ member_entries label l2.
Proof. apply omap_app. Qed.

Lemma more_entries_app l1 l2 :
  more_entries (l1 ++ l2) = more_entries l1 ++ more_entries l2.
Proof. apply omap_app. Qed.

Lemma omap_cons_None {A B} (f : A → option B) x l :
  f x = None → omap f (x :: l) = omap f l.
Proof. intros Hx. simpl. by rewrite Hx. Qed.

Lemma flat_map_entries {A B} (f : Line → option B) (g : A → list Line) (l : list A) :
  omap f (flat_map g l) = flat_map (λ a, omap f (g a)) l.
Proof.
  induction l as [|a l IH]; [done|]. simpl. by rewrite omap_app, IH.
Qed.

Lemma flat_map_nil {A B} (g : A → list B) (l : list A) :
  (∀ a, g a = []) → flat_map g l = [].
Proof. intros Hg. induction l as [|a l IH]; [done|]. simpl. by rewrite Hg, IH. Qed.

Lemma flat_map_singleton {A B} (g : A → list B) (h : A → B) (l : list A) :
  (∀ a, g a = [h a]) → flat_map g l = h <$> l.
Proof. intros Hg. induction l as [|a l IH]; [done|]. simpl. by rewrite Hg, IH. Qed.

Lemma user_entries_duplicates_lines warning success label limit member_lines dups :
  (∀ g, user_entries (member_lines g) = []) →
  user_entries (duplicates_lines warning success label limit member_lines dups) = [].
Proof.
  intros Hm. unfold duplicates_lines. destruct dups as [|kg dups]; [done|].
  unfold user_entries at 1. rewrite omap_cons_None by done.
  fold (user_entries). rewrite omap_app.
  rewrite flat_map_entries, flat_map_nil.
  - by destruct (limit <? _).
  - intros a. simpl. apply Hm.
Qed.

Lemma user_entries_by_user_lines title what d :
  user_entries (by_user_lines title what d) = take 10 (sorted_by_count d).
Proof.
  unfold by_user_lines, user_entries. simpl.
  induction (take 10 (sorted_by_count d)) as [|[u c] l IH]; [done|].
  rewrite fmap_cons. simpl. by rewrite IH.
Qed.

Lemma group_entries_duplicates_lines label warning success label' limit
    member_lines dups :
  (∀ g, group_entries label (member_lines g) = []) →
  group_entries label
    (duplicates_lines warning success label' limit member_lines dups)
  = if decide (label' = label)
    then (λ kg, (kg.1, length kg.2)) <$> take limit dups else [].
Proof.
  intros Hm. unfold duplicates_lines. destruct dups as [|kg dups].
  { by destruct (decide _), limit. }
  unfold group_entries at 1. rewrite omap_cons_None by done.
  rewrite omap_app, flat_map_entries.
  assert (omap
            (λ line, match line with
                     | GroupLine l id size =>
                         if decide (l = label) then Some (id, size) else None
                     | _ => None
                     end)
            (if limit <? length (kg :: dups)
             then [MoreLine (length (kg :: dups) - limit)] else []) = []) as ->
    by (by destruct (limit <? _)).
  rewrite app_nil_r. destruct (decide (label' = label)) as [->|Hne].
  - apply flat_map_singleton. intros a. simpl. rewrite decide_True by done.
    f_equal. apply Hm.
  - apply flat_map_nil. intros a. simpl. rewrite decide_False by done. apply Hm.
Qed.

Lemma group_entries_by_user_lines label title what d :
  group_entries label (by_user_lines title what d) = [].
Proof.
  unfold by_user_lines, group_entries. simpl.
  induction (take 10 (sorted_by_count d)) as [|[u c] l IH]; [done|].
  by rewrite fmap_cons.
Qed.

Lemma more_entries_duplicates_lines warning success label limit member_lines dups :
  (∀ g, more_entries (member_lines g) = []) →
  more_entries (duplicates_lines warning success label limit member_lines dups)
  = if limit <? length dups then [length dups - limit] else [].
Proof.
  intros Hm. unfold duplicates_lines. destruct dups as [|kg dups].
  { by destruct limit. }
  unfold more_entries at 1. rewrite omap_cons_None by done.
  rewrite omap_app, flat_map_entries, flat_map_nil.
  - by destruct (limit <? _).
  - intros a. simpl. apply Hm.
Qed.

Lemma more_entries_by_user_lines title what d :
  more_entries (by_user_lines title what d) = [].
Proof.
  unfold by_user_lines, more_entries. simpl.
  induction (take 10 (sorted_by_count d)) as [|[u c] l IH]; [done|].
  by rewrite fmap_cons.
Qed.

Lemma member_entries_by_user_lines label title what d :
  member_entries label (by_user_lines title what d) = [].
Proof.
  unfold by_user_lines, member_entries. simpl.
  induction (take 10 (sorted_by_count d)) as [|[u c] l IH]; [done|].
  by rewrite fmap_cons.
Qed.

Lemma member_entries_duplicates_lines label warning success label' limit
    member_lines dups :
  member_entries label
    (duplicates_lines warning success label' limit member_lines dups)
  = flat_map (λ kg, member_entries label (member_lines kg.2)) (take limit dups).
Proof.
  unfold duplicates_lines. destruct dups as [|kg dups].
  { by destruct limit. }
  unfold member_entries at 1. rewrite omap_cons_None by done.
  rewrite omap_app, flat_map_entries.
  assert (∀ l : list Line,
            l = (if limit <? length (kg :: dups)
                 then [MoreLine (length (kg :: dups) - limit)] else []) →
            omap (λ line, match line with
                          | MemberLine l first user name =>
                              if decide (l = label) then Some (first, user, name)
                              else None
                          | _ => None
                          end) l = []) as Hmore.
  { intros l ->. by destruct (limit <? _). }
  by rewrite (Hmore _ eq_refl), app_nil_r.
Qed.

Lemma shows_groups_take (dups : list (string * list Item)) limit :
  NoDup dups.*1 →
  shows_groups (list_to_map dups) limit
    ((λ kg, (kg.1, length kg.2)) <$> take limit dups).
Proof.
  intros Hnd. split_and!.
  - rewrite length_fmap, length_take, map_size_list_to_map by done. lia.
  - rewrite <-list_fmap_compose.
    apply (sublist_NoDup _ dups.*1); [done|].
    apply fmap_sublist, sublist_take.
  - intros id n ([k g] & [= -> ->] & Hin)%list_elem_of_fmap.
    apply subseteq_take in Hin.
    exists g. split; [|done]. by apply elem_of_list_to_map.
Qed.

Lemma member_entries_fmap label label' (first user name : Item → string) g :
  member_entries label
    ((λ acc, MemberLine label' (first acc) (user acc) (name acc)) <$> g)
  = if decide (label' = label)
    then (λ acc, (first acc, user acc, name acc)) <$> g else [].
Proof.
  unfold member_entries.
  induction g as [|acc g IH]; [by destruct (decide _)|].
  rewrite !fmap_cons. cbn [omap list_omap].
  destruct (decide (label' = label)) as [Heq|Hne]; by rewrite IH.
Qed.

Lemma flat_map_length_sum {A B} (g : A → list B) (l : list A) :
  length (flat_map g l) = sum_list ((λ a, length (g a)) <$> l).
Proof.
  induction l as [|a l IH]; [done|].
  rewrite fmap_cons. simpl. by rewrite length_app, IH.
Qed.

Lemma entries_of_fmap {B} (f : Line → option B) (h : Item → Line) (g : list Item) :
  (∀ acc, f (h acc) = None) → omap f (h <$> g) = [].
Proof.
  intros Hf. induction g as [|acc g IH]; [done|].
  rewrite fmap_cons. by rewrite omap_cons_None.
Qed.

Lemma user_entries_print_account_analysis a :
  user_entries (print_account_analysis a) = take 10 (sorted_by_count (oa_by_user a)).
Proof.
  unfold print_account_analysis. rewrite !user_entries_app.
  rewrite !user_entries_duplicates_lines
    by (intros g; by apply entries_of_fmap).
  by rewrite user_entries_by_user_lines.
Qed.

Lemma user_entries_print_transaction_analysis a :
  user_entries (print_transaction_analysis a)
  = take 10 (sorted_by_count (ot_by_user a)).
Proof.
  unfold print_transaction_analysis. rewrite !user_entries_app.
  rewrite !user_entries_duplicates_lines by done.
  by rewrite user_entries_by_user_lines.
Qed.

Lemma group_entries_print_account_analysis a :
  group_entries "Account ID" (print_account_analysis a)
  = (λ kg, (kg.1, length kg.2)) <$> take 10 (oa_duplicate_account_ids a)
  ∧ group_entries "Plaid Account ID" (print_account_analysis a)
    = (λ kg, (kg.1, length kg.2)) <$> take 10 (oa_duplicate_plaid_ids a).
Proof.
  unfold print_account_analysis. rewrite !group_entries_app.
  rewrite !group_entries_duplicates_lines
    by (intros g; by apply entries_of_fmap).
  rewrite !group_entries_by_user_lines. split.
  - rewrite decide_True by done. rewrite decide_False by done.
    by rewrite app_nil_r.
  - rewrite decide_False by done. rewrite decide_True by done.
    by rewrite app_nil_r.
Qed.

Lemma group_entries_print_transaction_analysis a :
  group_entries "Transaction ID" (print_transaction_analysis a)
  = (λ kg, (kg.1, length kg.2)) <$> take 5 (ot_duplicate_transaction_ids a)
  ∧ group_entries "Plaid Transaction ID" (print_transaction_analysis a)
    = (λ kg, (kg.1, length kg.2)) <$> take 5 (ot_duplicate_plaid_ids a).
Proof.
  unfold print_transaction_analysis. rewrite !group_entries_app.
  rewrite !group_entries_duplicates_lines by done.
  rewrite !group_entries_by_user_lines. split.
  - rewrite decide_True by done. rewrite decide_False by done.
    by rewrite app_nil_r.
  - rewrite decide_False by done. rewrite decide_True by done.
    by rewrite app_nil_r.
Qed.

Lemma more_entries_print_account_analysis a :
  more_entries (print_account_analysis a)
  = (if 10 <? length (oa_duplicate_account_ids a)
     then [length (oa_duplicate_account_ids a) - 10] else [])
    ++ (if 10 <? length (oa_duplicate_plaid_ids a)
        then [length (oa_duplicate_plaid_ids a) - 10] else []).
Proof.
  unfold print_account_analysis. rewrite !more_entries_app.
  rewrite !more_entries_duplicates_lines
    by (intros g; by apply entries_of_fmap).
  by rewrite more_entries_by_user_lines, app_nil_r.
Qed.

Lemma more_entries_print_transaction_analysis a :
  more_entries (print_transaction_analysis a)
  = (if 5 <? length (ot_duplicate_transaction_ids a)
     then [length (ot_duplicate_transaction_ids a) - 5] else [])
    ++ (if 5 <? length (ot_duplicate_plaid_ids a)
        then [length (ot_duplicate_plaid_ids a) - 5] else []).
Proof.
  unfold print_transaction_analysis. rewrite !more_entries_app.
  rewrite !more_entries_duplicates_lines by done.
  by rewrite more_entries_by_user_lines, app_nil_r.
Qed.

Lemma member_entries_print_account_analysis a :
  length (member_entries "Plaid ID" (print_account_analysis a))
  = sum_list (group_entries "Account ID" (print_account_analysis a)).*2
  ∧ length (member_entries "Account ID" (print_account_analysis a))
    = sum_list (group_entries "Plaid Account ID" (print_account_analysis a)).*2.
Proof.
  destruct (group_entries_print_account_analysis a) as [-> ->].
  unfold print_account_analysis. rewrite !member_entries_app.
  rewrite !member_entries_duplicates_lines, !member_entries_by_user_lines.
  rewrite !app_nil_r. simpl.
  rewrite <-!list_fmap_compose.
  split.
  - rewrite (flat_map_nil _ (take 10 (oa_duplicate_plaid_ids a))).
    + rewrite app_nil_r, flat_map_length_sum. f_equal.
      apply list_fmap_ext. intros _ kg _. simpl.
      by rewrite member_entries_fmap, decide_True, length_fmap.
    + intros kg. by rewrite member_entries_fmap, decide_False.
  - rewrite (flat_map_nil _ (take 10 (oa_duplicate_account_ids a))).
    + simpl. rewrite flat_map_length_sum. f_equal.
      apply list_fmap_ext. intros _ kg _. simpl.
      by rewrite member_entries_fmap, decide_True, length_fmap.
    + intros kg. by rewrite member_entries_fmap, decide_False.
Qed.

Lemma member_entries_print_transaction_analysis label a :
  member_entries label (print_transaction_analysis a) = [].
Proof.
  unfold print_transaction_analysis. rewrite !member_entries_app.
  rewrite !member_entries_duplicates_lines, member_entries_by_user_lines.
  by rewrite !flat_map_nil.
Qed.

Lemma filter_take_prefix {A} (P : A → Prop) `{!∀ x, Decision (P x)} n (l : list A) :
  filter P (take n l) `prefix_of` filter P l.
Proof.
  rewrite <-(take_drop n l) at 2. rewrite filter_app. by apply prefix_app_r.
Qed.

Lemma headline_duplicates_lines warning success label limit member_lines dups :
  (∀ g, warning_entries (member_lines g) = []) →
  (∀ g, success_entries (member_lines g) = []) →
  NoDup dups.*1 →
  (warning_entries (duplicates_lines warning success label limit member_lines dups),
   success_entries (duplicates_lines warning success label limit member_lines dups))
  = headline warning success (list_to_map dups).
Proof.
  intros Hw Hs Hnd. unfold headline.
  rewrite map_size_list_to_map by done.
  unfold duplicates_lines. destruct dups as [|kg dups]; [done|].
  rewrite decide_False by done.
  unfold warning_entries, success_entries.
  cbn [omap list_omap]. rewrite !omap_app, !flat_map_entries.
  rewrite !flat_map_nil.
  - by destruct (limit <? _).
  - intros a. simpl. apply Hs.
  - intros a. simpl. apply Hw.
Qed.

Lemma headline_by_user_lines title what d :
  warning_entries (by_user_lines title what d) = []
  ∧ success_entries (by_user_lines title what d) = [].
Proof.
  unfold by_user_lines, warning_entries, success_entries. simpl.
  induction (take 10 (sorted_by_count d)) as [|[u c] l IH]; [done|].
  by rewrite fmap_cons.
Qed.

Lemma probe_results_none_confirmed {Env} (B : Backend Env) tables e :
  finds_no_table B → confirmed (probe_results B tables e).1 = [].
Proof.
  intros Hnone. revert e. induction tables as [|table rest IH]; intros e; [done|].
  simpl. pose proof (Hnone table e) as Hd.
  destruct (describe_table B table e) as [r e1]. specialize (IH e1).
  destruct (probe_results B rest e1) as [rs e']. simpl in *.
  destruct r as [c| |exc]; [by destruct (Hd c)|done..].
Qed.

(** *** The reference constructions *)

#[global] Instance SString_inj : Inj (=) (=) SString.
Proof. by intros ?? [=]. Qed.

Lemma list_to_map_keyed `{Countable K} {V} (g : K → V) (ks : list K) k :
  (list_to_map ((λ k, (k, g k)) <$> ks) : gmap K V) !! k
  = if decide (k ∈ ks) then Some (g k) else None.
Proof.
  induction ks as [|k' ks IH]; [done|].
  rewrite fmap_cons, list_to_map_cons.
  destruct (decide (k' = k)) as [->|Hne].
  - rewrite lookup_insert_eq. rewrite decide_True; [done|apply list_elem_of_here].
  - rewrite lookup_insert_ne by done. rewrite IH.
    destruct (decide (k ∈ ks)) as [Hin|Hin].
    + rewrite decide_True; [done|by apply list_elem_of_further].
    + rewrite decide_False; [done|].
      intros [?|?]%elem_of_cons; [congruence|done].
Qed.

Lemma filter_value_nil_iff `{Countable K} (value : Item → option K) k items :
  filter (λ item, value item = Some k) items = [] ↔ k ∉ omap value items.
Proof.
  induction items as [|item items IH]; simpl.
  - split; [intros _; apply not_elem_of_nil|done].
  - rewrite filter_cons. destruct (value item) as [k'|] eqn:Hv.
    + destruct (decide (Some k' = Some k)) as [[= ->]|Hne].
      * split; [done|]. intros Hnot. destruct Hnot. apply list_elem_of_here.
      * rewrite IH, not_elem_of_cons. split; [|tauto].
        intros Hnot. split; [congruence|done].
    + rewrite decide_False by done. exact IH.
Qed.

Lemma grouped_by_lookup `{Countable K} (value : Item → option K) items k :
  grouped_by value items !! k
  = if decide (filter (λ item, value item = Some k) items = []) then None
    else Some (filter (λ item, value item = Some k) items).
Proof.
  unfold grouped_by.
  rewrite (list_to_map_keyed (λ k, filter (λ item, value item = Some k) items)).
  destruct (decide (k ∈ omap value items)) as [Hin|Hin].
  - rewrite decide_False; [done|]. by rewrite filter_value_nil_iff; intros ?.
  - rewrite decide_True; [done|]. by apply filter_value_nil_iff.
Qed.

Lemma filter_bucket_nil_iff `{Countable K} (bucket : Item → K) k items :
  filter (λ item, bucket item = k) items = [] ↔ k ∉ bucket <$> items.
Proof.
  induction items as [|item items IH].
  - split; [intros _; apply not_elem_of_nil|done].
  - rewrite filter_cons, fmap_cons.
    destruct (decide (bucket item = k)) as [->|Hne].
    + split; [done|]. intros Hnot. destruct Hnot. apply list_elem_of_here.
    + rewrite IH, not_elem_of_cons. split; [|tauto].
      intros Hnot. split; [congruence|done].
Qed.

Lemma counted_by_lookup `{Countable K} (bucket : Item → K) items k :
  counted_by bucket items !! k
  = if decide (filter (λ item, bucket item = k) items = []) then None
    else Some (length (filter (λ item, bucket item = k) items)).
Proof.
  unfold counted_by.
  rewrite (list_to_map_keyed
             (λ k, length (filter (λ item, bucket item = k) items))).
  destruct (decide (k ∈ bucket <$> items)) as [Hin|Hin].
  - rewrite decide_False; [done|]. by rewrite filter_bucket_nil_iff; intros ?.
  - rewrite decide_True; [done|]. by apply filter_bucket_nil_iff.
Qed.

Lemma tally_of_counted_by bucket items :
  tally_of bucket items = counted_by bucket items.
Proof.
  apply map_eq. intros k. by rewrite tally_of_lookup, counted_by_lookup.
Qed.

Lemma usable_string_Some field item s :
  usable_string field item = Some s ↔ get_S field item = Some s ∧ s ≠ "".
Proof.
  unfold usable_string. destruct (get_S field item) as [s'|]; [|naive_solver].
  destruct (truthy (Some s')) eqn:Hs.
  - apply truthy_Some in Hs. naive_solver.
  - split; [done|]. intros [[= ->] Hne]. apply truthy_Some in Hne. congruence.
Qed.

Lemma present_value_string field item s :
  present_value field item = Some (SString s) ↔ get_S field item = Some s.
Proof.
  unfold present_value, get_S.
  destruct (item !! field) as [[]|]; naive_solver.
Qed.

Lemma holders_usable_string field k items :
  filter (λ item, usable_string field item = Some k) items
  = if decide (k = "") then [] else holders (get_S field) k items.
Proof.
  unfold holders. destruct (decide (k = "")) as [->|Hk].
  - induction items as [|item items IH]; [done|].
    rewrite filter_cons, IH, decide_False; [done|].
    rewrite usable_string_Some. naive_solver.
  - apply list_filter_iff. intros item. rewrite usable_string_Some. naive_solver.
Qed.

Lemma holders_present_value field s items :
  filter (λ item, present_value field item = Some (SString s)) items
  = holders (get_S field) s items.
Proof. apply list_filter_iff. intros item. apply present_value_string. Qed.

Lemma index_of_grouped_by field items :
  index_of (get_S field) items = grouped_by (usable_string field) items.
Proof.
  apply map_eq. intros k.
  rewrite index_of_lookup, grouped_by_lookup, holders_usable_string.
  destruct (decide (k = "")) as [->|Hk].
  - rewrite decide_False by (intros [? _]; done). by rewrite decide_True.
  - destruct (decide (holders (get_S field) k items = [])) as [Hnil|Hnil].
    + by rewrite decide_False by (intros [_ ?]; done).
    + by rewrite decide_True.
Qed.

Lemma index_of_usable_reference field items :
  kmap SString (index_of (get_S field) items)
  = filter (λ kg, usable_scalar kg.1) (reference_index field items).
Proof.
  apply map_eq. intros v. destruct v as [s|n|b].
  - rewrite lookup_kmap by apply _. rewrite index_of_lookup.
    destruct (decide (s = "")) as [->|Hs].
    + rewrite decide_False by (intros [? _]; done). symmetry.
      apply map_lookup_filter_None. right. intros g _ Hu. by apply Hu.
    + unfold reference_index.
      destruct (decide (s ≠ "" ∧ holders (get_S field) s items ≠ [])) as [[_ Hh]|Hh].
      * symmetry. apply map_lookup_filter_Some. split; [|done].
        rewrite grouped_by_lookup, holders_present_value. by rewrite decide_False.
      * symmetry. apply map_lookup_filter_None. left.
        rewrite grouped_by_lookup, holders_present_value. rewrite decide_True; [done|].
        destruct (decide (holders (get_S field) s items = [])); [done|].
        destruct Hh. done.
  - rewrite (proj2 (lookup_kmap_None SString _ _)) by (intros ? [=]).
    symmetry. apply map_lookup_filter_None. right. intros g _ Hu. exact Hu.
  - rewrite (proj2 (lookup_kmap_None SString _ _)) by (intros ? [=]).
    symmetry. apply map_lookup_filter_None. right. intros g _ Hu. exact Hu.
Qed.

Lemma filter_ext_Forall {A} (P Q : A → Prop) `{!∀ x, Decision (P x)}
    `{!∀ x, Decision (Q x)} (l : list A) :
  Forall (λ x, P x ↔ Q x) l → filter P l = filter Q l.
Proof.
  induction 1 as [|x l Hx _ IH]; [done|].
  rewrite !filter_cons, IH.
  destruct (decide (P x)), (decide (Q x)); naive_solver.
Qed.

Lemma index_of_reference field items :
  Forall (λ item, present_value field item
                  = SString <$> usable_string field item) items →
  kmap SString (index_of (get_S field) items) = reference_index field items.
Proof.
  intros Hall. rewrite index_of_usable_reference.
  apply map_filter_id. intros v g Hv. simpl.
  unfold reference_index in Hv. rewrite grouped_by_lookup in Hv.
  destruct (decide (filter (λ item, present_value field item = Some v) items = []))
    as [|Hne]; [done|].
  destruct (filter (λ item, present_value field item = Some v) items)
    as [|item rest] eqn:Hf; [done|].
  assert (item ∈ filter (λ item, present_value field item = Some v) items) as Hin.
  { rewrite Hf. apply list_elem_of_here. }
  apply list_elem_of_filter in Hin as [Hpv Hin].
  rewrite Forall_forall in Hall. specialize (Hall _ Hin).
  rewrite Hpv in Hall. destruct (usable_string field item) as [s|] eqn:Hus; [|done].
  injection Hall as ->. apply usable_string_Some in Hus. simpl. tauto.
Qed.

Lemma field_index_builds field : builds_index_of field (field_index field).
Proof.
  intros items. unfold field_index. split_and!.
  - apply index_of_grouped_by.
  - apply index_of_usable_reference.
  - apply index_of_reference.
Qed.

Lemma owner_or_sentinel_string field item s :
  s ≠ "N/A" →
  owner_or_sentinel field item = SString s ↔ get_S_default field "N/A" item = s.
Proof.
  intros Hs. unfold owner_or_sentinel, present_value, get_S_default, get_S.
  destruct (item !! field) as [[]|]; simpl; naive_solver.
Qed.

Lemma tally_of_usable_reference field items s :
  s ≠ "N/A" →
  tally_of (get_S_default field "N/A") items !! s
  = reference_aggregate field items !! SString s.
Proof.
  intros Hs. unfold reference_aggregate.
  rewrite tally_of_lookup, counted_by_lookup. unfold owned_by.
  rewrite (list_filter_iff (λ item, owner_or_sentinel field item = SString s)
             (λ item, get_S_default field "N/A" item = s)); [done|].
  intros item. by apply owner_or_sentinel_string.
Qed.

Lemma owner_or_sentinel_of_string field item :
  present_value field item = SString <$> get_S field item →
  owner_or_sentinel field item = SString (get_S_default field "N/A" item).
Proof.
  unfold owner_or_sentinel, get_S_default. intros ->.
  by destruct (get_S field item).
Qed.

Lemma tally_of_reference field items :
  Forall (λ item, present_value field item = SString <$> get_S field item) items →
  kmap SString (tally_of (get_S_default field "N/A") items)
  = reference_aggregate field items.
Proof.
  intros Hall. apply map_eq. intros v. unfold reference_aggregate.
  rewrite counted_by_lookup.
  destruct v as [s|n|b].
  - rewrite lookup_kmap by apply _. rewrite tally_of_lookup. unfold owned_by.
    rewrite (filter_ext_Forall (λ item, owner_or_sentinel field item = SString s)
               (λ item, get_S_default field "N/A" item = s)); [done|].
    eapply Forall_impl; [exact Hall|]. intros item Hv. simpl in *.
    rewrite (owner_or_sentinel_of_string _ _ Hv). naive_solver.
  - rewrite (proj2 (lookup_kmap_None SString _ _)) by (intros ? [=]).
    rewrite decide_True; [done|].
    apply filter_none. rewrite Forall_forall in Hall |- *.
    intros item Hin. rewrite (owner_or_sentinel_of_string _ _ (Hall _ Hin)). done.
  - rewrite (proj2 (lookup_kmap_None SString _ _)) by (intros ? [=]).
    rewrite decide_True; [done|].
    apply filter_none. rewrite Forall_forall in Hall |- *.
    intros item Hin. rewrite (owner_or_sentinel_of_string _ _ (Hall _ Hin)). done.
Qed.

Lemma field_aggregate_builds field :
  builds_aggregate_of field (field_aggregate field).
Proof.
  intros items. unfold field_aggregate. split_and!.
  - apply tally_of_counted_by.
  - intros s Hs. by apply tally_of_usable_reference.
  - apply tally_of_reference.
Qed.

Lemma builds_index_of_ext field build1 build2 :
  (∀ items, build1 items = build2 items) →
  builds_index_of field build1 → builds_index_of field build2.
Proof. intros Hb H1 items. rewrite <-!Hb. apply H1. Qed.

Lemma builds_aggregate_of_ext field tally1 tally2 :
  (∀ items, tally1 items = tally2 items) →
  builds_aggregate_of field tally1 → builds_aggregate_of field tally2.
Proof. intros Hb H1 items. rewrite <-!Hb. apply H1. Qed.

Lemma numbered_owners_are_unknown :
  acc_by_user (analyze_accounts numbered_owners) = {[ "N/A" := 2 ]}.
Proof. by vm_compute. Qed.
(** * The properties *)

(** C1, read literally, fails: two records that both carry the empty
    string as Plaid id are in no group, do not lack the field and do not
    have a unique value, so the three parts miss them. *)
Lemma partition_by_presence_fails :
  ¬ partition_by_presence "plaidAccountId"
      (acc_duplicate_plaid_ids (analyze_accounts two_unlinked_accounts))
      two_unlinked_accounts.
Proof.
  unfold partition_by_presence. intros Hp.
  apply Permutation_length in Hp. vm_compute in Hp. discriminate.
Qed.

(** C1 (amended): for every stream and each identity field of either
    analyser, the members of the field's duplicate groups, the records
    without a usable value (field missing, not a string, or the empty
    string) and the records whose usable value is unique are together
    exactly the scanned records, each once; a group member carries the
    value of its group, so it belongs to that group only. *)
Theorem duplicate_detection_partitions (items : list Item) :
  partition_by_usable_value "accountId"
    (acc_duplicate_account_ids (analyze_accounts items)) items
  ∧ partition_by_usable_value "plaidAccountId"
      (acc_duplicate_plaid_ids (analyze_accounts items)) items
  ∧ partition_by_usable_value "transactionId"
      (tr_duplicate_transaction_ids (analyze_transactions items)) items
  ∧ partition_by_usable_value "plaidTransactionId"
      (tr_duplicate_plaid_ids (analyze_transactions items)) items.
Proof.
  rewrite analyze_accounts_account_ids, analyze_accounts_plaid_ids,
    analyze_transactions_transaction_ids, analyze_transactions_plaid_ids.
  split_and!; apply partition_by_usable_value_index.
Qed.

(** C2, read literally, fails: the empty string is held by two records
    and still has no group. *)
Lemma groups_are_shared_values_fails :
  ¬ groups_are_shared_values "plaidAccountId"
      (acc_duplicate_plaid_ids (analyze_accounts two_unlinked_accounts))
      two_unlinked_accounts.
Proof.
  intros Hg. destruct (Hg "" two_unlinked_accounts) as [_ Hemit].
  assert (acc_duplicate_plaid_ids (analyze_accounts two_unlinked_accounts) !! ""
          = Some two_unlinked_accounts) as Hl.
  { apply Hemit. split; [by vm_compute|]. simpl. lia. }
  vm_compute in Hl. discriminate.
Qed.

(** C2 (amended): for every stream and each identity field, a value has
    a duplicate group exactly when it is a non-empty string held by at
    least two records, and the group is the list of those records in scan
    order; a value held by one record has no group.  For three records
    with primary ids A, A, B (A non-empty, B different) the groups are
    exactly the one for A, with the two records holding A. *)
Theorem duplicate_groups_are_shared_values :
  (∀ items : list Item,
     groups_are_shared_usable_values "accountId"
       (acc_duplicate_account_ids (analyze_accounts items)) items
     ∧ groups_are_shared_usable_values "plaidAccountId"
         (acc_duplicate_plaid_ids (analyze_accounts items)) items
     ∧ groups_are_shared_usable_values "transactionId"
         (tr_duplicate_transaction_ids (analyze_transactions items)) items
     ∧ groups_are_shared_usable_values "plaidTransactionId"
         (tr_duplicate_plaid_ids (analyze_transactions items)) items)
  ∧ (∀ (r1 r2 r3 : Item) (A B : string),
       A ≠ "" → A ≠ B →
       get_S "accountId" r1 = Some A →
       get_S "accountId" r2 = Some A →
       get_S "accountId" r3 = Some B →
       acc_duplicate_account_ids (analyze_accounts [r1; r2; r3])
       = {[ A := [r1; r2] ]}).
Proof.
  split.
  - intros items.
    rewrite analyze_accounts_account_ids, analyze_accounts_plaid_ids,
      analyze_transactions_transaction_ids, analyze_transactions_plaid_ids.
    split_and!; intros k g; apply find_duplicates_index_lookup.
  - intros r1 r2 r3 A B HA HAB H1 H2 H3.
    rewrite analyze_accounts_account_ids.
    by apply (find_duplicates_two_of_three _ r1 r2 r3 A B).
Qed.

(** The scenario of C2 on three concrete accounts. *)
Lemma duplicate_groups_are_shared_values_witness :
  acc_duplicate_account_ids
    (analyze_accounts [ {[ "accountId" := AttrS "A" ]};
                        {[ "accountId" := AttrS "A" ]};
                        {[ "accountId" := AttrS "B" ]} ])
  = {[ "A" := [ {[ "accountId" := AttrS "A" ]}; {[ "accountId" := AttrS "A" ]} ] ]}.
Proof.
  apply (proj2 duplicate_groups_are_shared_values _ _ _ "A" "B");
    [discriminate|discriminate|reflexivity..].
Defined.

(** C3: for every stream, each identity index and each set of duplicate
    groups of either analyser ignores the records that lack its field:
    the index and the groups are those of the stream without these
    records, no entry holds such a record, and records lacking the field
    create no entry, under no key. *)
Theorem missing_field_is_excluded :
  ignores_records_lacking "accountId"
    (λ items, al_account_id_map (accounts_loop items))
  ∧ ignores_records_lacking "plaidAccountId"
      (λ items, al_plaid_id_map (accounts_loop items))
  ∧ ignores_records_lacking "transactionId"
      (λ items, tl_transaction_id_map (transactions_loop items))
  ∧ ignores_records_lacking "plaidTransactionId"
      (λ items, tl_plaid_id_map (transactions_loop items))
  ∧ ignores_records_lacking "accountId"
      (λ items, acc_duplicate_account_ids (analyze_accounts items))
  ∧ ignores_records_lacking "plaidAccountId"
      (λ items, acc_duplicate_plaid_ids (analyze_accounts items))
  ∧ ignores_records_lacking "transactionId"
      (λ items, tr_duplicate_transaction_ids (analyze_transactions items))
  ∧ ignores_records_lacking "plaidTransactionId"
      (λ items, tr_duplicate_plaid_ids (analyze_transactions items)).
Proof.
  split_and!.
  - eapply ignores_records_lacking_ext; [|apply field_index_ignores_lacking].
    intros items. by rewrite accounts_loop_account_id_map.
  - eapply ignores_records_lacking_ext; [|apply field_index_ignores_lacking].
    intros items. by rewrite accounts_loop_plaid_id_map.
  - eapply ignores_records_lacking_ext; [|apply field_index_ignores_lacking].
    intros items. by rewrite transactions_loop_transaction_id_map.
  - eapply ignores_records_lacking_ext; [|apply field_index_ignores_lacking].
    intros items. by rewrite transactions_loop_plaid_id_map.
  - eapply ignores_records_lacking_ext; [|apply duplicates_ignore_lacking].
    intros items. by rewrite analyze_accounts_account_ids.
  - eapply ignores_records_lacking_ext; [|apply duplicates_ignore_lacking].
    intros items. by rewrite analyze_accounts_plaid_ids.
  - eapply ignores_records_lacking_ext; [|apply duplicates_ignore_lacking].
    intros items. by rewrite analyze_transactions_transaction_ids.
  - eapply ignores_records_lacking_ext; [|apply duplicates_ignore_lacking].
    intros items. by rewrite analyze_transactions_plaid_ids.
Qed.

(** Two accounts without a Plaid id leave the Plaid index empty. *)
Lemma missing_field_is_excluded_witness :
  al_plaid_id_map
    (accounts_loop [ {[ "accountId" := AttrS "a1" ]};
                     {[ "accountId" := AttrS "a1" ]} ]) = ∅.
Proof.
  apply (proj1 (proj2 missing_field_is_excluded)).
  repeat constructor.
Defined.

(** C9: for every stream, each identity index and each set of duplicate
    groups of either analyser treats a record whose field is the empty
    string as a record lacking the field: the index and the groups are
    those of the stream without these records, nothing is filed under
    the empty string however many records carry it, and replacing such a
    record by one without the field leaves the result unchanged. *)
Theorem empty_string_is_excluded :
  ignores_records_with_empty "accountId"
    (λ items, al_account_id_map (accounts_loop items))
  ∧ ignores_records_with_empty "plaidAccountId"
      (λ items, al_plaid_id_map (accounts_loop items))
  ∧ ignores_records_with_empty "transactionId"
      (λ items, tl_transaction_id_map (transactions_loop items))
  ∧ ignores_records_with_empty "plaidTransactionId"
      (λ items, tl_plaid_id_map (transactions_loop items))
  ∧ ignores_records_with_empty "accountId"
      (λ items, acc_duplicate_account_ids (analyze_accounts items))
  ∧ ignores_records_with_empty "plaidAccountId"
      (λ items, acc_duplicate_plaid_ids (analyze_accounts items))
  ∧ ignores_records_with_empty "transactionId"
      (λ items, tr_duplicate_transaction_ids (analyze_transactions items))
  ∧ ignores_records_with_empty "plaidTransactionId"
      (λ items, tr_duplicate_plaid_ids (analyze_transactions items)).
Proof.
  split_and!.
  - eapply ignores_records_with_empty_ext; [|apply field_index_ignores_empty].
    intros items. by rewrite accounts_loop_account_id_map.
  - eapply ignores_records_with_empty_ext; [|apply field_index_ignores_empty].
    intros items. by rewrite accounts_loop_plaid_id_map.
  - eapply ignores_records_with_empty_ext; [|apply field_index_ignores_empty].
    intros items. by rewrite transactions_loop_transaction_id_map.
  - eapply ignores_records_with_empty_ext; [|apply field_index_ignores_empty].
    intros items. by rewrite transactions_loop_plaid_id_map.
  - eapply ignores_records_with_empty_ext; [|apply duplicates_ignore_empty].
    intros items. by rewrite analyze_accounts_account_ids.
  - eapply ignores_records_with_empty_ext; [|apply duplicates_ignore_empty].
    intros items. by rewrite analyze_accounts_plaid_ids.
  - eapply ignores_records_with_empty_ext; [|apply duplicates_ignore_empty].
    intros items. by rewrite analyze_transactions_transaction_ids.
  - eapply ignores_records_with_empty_ext; [|apply duplicates_ignore_empty].
    intros items. by rewrite analyze_transactions_plaid_ids.
Qed.

(** Two accounts with the empty string as Plaid id: swapping the first
    for an account without the field gives the same groups. *)
Lemma empty_string_is_excluded_witness :
  acc_duplicate_plaid_ids (analyze_accounts two_unlinked_accounts)
  = acc_duplicate_plaid_ids
      (analyze_accounts ([] ++ {[ "accountId" := AttrS "a1" ]}
                            :: [unlinked_account "a2"])).
Proof.
  apply (proj2 (proj2 (proj1 (proj2 (proj2 (proj2 (proj2 (proj2
           empty_string_is_excluded))))) two_unlinked_accounts))
           [] [unlinked_account "a2"] (unlinked_account "a1"));
    reflexivity.
Defined.

(** C4, read literally, fails: an owner stored as a number is present,
    and still the record is counted under "N/A"; two accounts owned by
    the numbers 7 and 8 give {"N/A": 2}, where the aggregate by presence
    has one record under each number. *)
Lemma owner_stored_as_number_is_unknown :
  ¬ aggregate_by_presence "userId"
      (acc_by_user (analyze_accounts numbered_owners)) numbered_owners.
Proof.
  unfold aggregate_by_presence. rewrite numbered_owners_are_unknown.
  intros Hagg. apply (f_equal (lookup (SNumber "7"))) in Hagg.
  rewrite (proj2 (lookup_kmap_None SString _ _)) in Hagg by (intros ? [=]).
  unfold reference_aggregate in Hagg. rewrite counted_by_lookup in Hagg.
  vm_compute in Hagg. discriminate.
Qed.

(** C4 (amended): for every stream, each owner aggregate of either
    analyser counts every record in exactly one bucket, the record's
    owner value when the field is present as a string and the sentinel
    "N/A" otherwise (field absent or not a string), so the counts sum to
    the total number of records; records owned by the strings u1, u1, u2
    give {u1: 2, u2: 1}. *)
Theorem owner_counts_sum_to_total :
  bucket_is_owner_or_sentinel "userId" "N/A" (get_S_default "userId" "N/A")
  ∧ bucket_is_owner_or_sentinel "accountId" "N/A" (get_S_default "accountId" "N/A")
  ∧ counts_each_record_once (get_S_default "userId" "N/A")
      (λ items, acc_by_user (analyze_accounts items))
  ∧ counts_each_record_once (get_S_default "userId" "N/A")
      (λ items, tr_by_user (analyze_transactions items))
  ∧ counts_each_record_once (get_S_default "accountId" "N/A")
      (λ items, tr_by_account (analyze_transactions items))
  ∧ (∀ items : list Item,
       tally_sum (acc_by_user (analyze_accounts items))
       = acc_total (analyze_accounts items)
       ∧ tally_sum (tr_by_user (analyze_transactions items))
         = tr_total (analyze_transactions items)
       ∧ tally_sum (tr_by_account (analyze_transactions items))
         = tr_total (analyze_transactions items))
  ∧ (∀ (r1 r2 r3 : Item) (u1 u2 : string),
       u1 ≠ u2 →
       get_S "userId" r1 = Some u1 →
       get_S "userId" r2 = Some u1 →
       get_S "userId" r3 = Some u2 →
       acc_by_user (analyze_accounts [r1; r2; r3]) = {[ u1 := 2; u2 := 1 ]}).
Proof.
  split_and!.
  - apply get_S_default_bucket.
  - apply get_S_default_bucket.
  - eapply counts_each_record_once_ext; [|apply tally_of_counts_each_record_once].
    intros items. by rewrite analyze_accounts_by_user.
  - eapply counts_each_record_once_ext; [|apply tally_of_counts_each_record_once].
    intros items. by rewrite analyze_transactions_by_user.
  - eapply counts_each_record_once_ext; [|apply tally_of_counts_each_record_once].
    intros items. by rewrite analyze_transactions_by_account.
  - intros items.
    rewrite analyze_accounts_by_user, analyze_transactions_by_user,
      analyze_transactions_by_account.
    unfold field_aggregate. rewrite !tally_sum_tally_of. done.
  - intros r1 r2 r3 u1 u2 Hne H1 H2 H3. rewrite analyze_accounts_by_user.
    apply tally_of_two_and_one; [done|unfold get_S_default..].
    + by rewrite H1.
    + by rewrite H2.
    + by rewrite H3.
Qed.

(** The scenario of C4 on three concrete accounts. *)
Lemma owner_counts_sum_to_total_witness :
  acc_by_user
    (analyze_accounts [ {[ "userId" := AttrS "u1" ]};
                        {[ "userId" := AttrS "u1" ]};
                        {[ "userId" := AttrS "u2" ]} ])
  = {[ "u1" := 2; "u2" := 1 ]}.
Proof.
  apply (proj2 (proj2 (proj2 (proj2 (proj2 (proj2 owner_counts_sum_to_total)))))
           _ _ _ "u1" "u2");
    [discriminate|reflexivity..].
Defined.

(** C10: in every owner aggregate of either analyser the sentinel bucket
    is the string "N/A" itself, shared with the genuine owner value
    "N/A": a record whose owner field is the string "N/A" and a record
    lacking the field are counted in the same bucket, so exchanging one
    for the other leaves the aggregate unchanged. *)
Theorem sentinel_bucket_is_not_distinct :
  sentinel_is_shared "userId" (λ items, acc_by_user (analyze_accounts items))
  ∧ sentinel_is_shared "userId" (λ items, tr_by_user (analyze_transactions items))
  ∧ sentinel_is_shared "accountId"
      (λ items, tr_by_account (analyze_transactions items)).
Proof.
  split_and!.
  - eapply sentinel_is_shared_ext; [|apply field_aggregate_sentinel].
    intros items. by rewrite analyze_accounts_by_user.
  - eapply sentinel_is_shared_ext; [|apply field_aggregate_sentinel].
    intros items. by rewrite analyze_transactions_by_user.
  - eapply sentinel_is_shared_ext; [|apply field_aggregate_sentinel].
    intros items. by rewrite analyze_transactions_by_account.
Qed.

(** An account owned by "N/A" and an account without owner give the
    same aggregate. *)
Lemma sentinel_bucket_is_not_distinct_witness :
  acc_by_user (analyze_accounts ([] ++ {[ "userId" := AttrS "N/A" ]} :: []))
  = acc_by_user (analyze_accounts ([] ++ {[ "accountId" := AttrS "a1" ]} :: [])).
Proof.
  apply (proj1 (proj2 (proj1 sentinel_bucket_is_not_distinct))); reflexivity.
Defined.

(** C6, read literally, fails: two records that both carry the empty
    string as Plaid id have an entry in the reference index of that
    field, and none in the index of the loop. *)
Lemma loops_build_the_references_fails :
  ¬ loops_build_the_references two_unlinked_accounts.
Proof.
  intros (_ & Hplaid & _).
  apply (f_equal (lookup (SString ""))) in Hplaid.
  rewrite lookup_kmap in Hplaid by apply _.
  unfold reference_index in Hplaid. rewrite grouped_by_lookup in Hplaid.
  vm_compute in Hplaid. discriminate.
Qed.

(** C6 (amended): for every stream, the one loop of each analyser leaves
    in its state, for each identity field, the index that files every
    non-empty string value with the records holding it, in scan order:
    the reference index built by a traversal of its own, without the
    entries of the empty string and of values that are not strings; and
    for each owner field the aggregate that counts every record under
    its string value or under "N/A": the reference aggregate in every
    string bucket but "N/A".  On a stream whose present values are all
    non-empty strings (for owners: strings) the loop's indices and
    aggregates are the reference ones.  The reported groups are the
    duplicates of those indices, and the loop is a single left-to-right
    pass: its state after a longer stream is its state after the prefix,
    advanced over the new records only. *)
Theorem single_pass_refines_per_field_passes :
  (builds_index_of "accountId" (λ items, al_account_id_map (accounts_loop items))
   ∧ builds_index_of "plaidAccountId"
       (λ items, al_plaid_id_map (accounts_loop items))
   ∧ builds_aggregate_of "userId" (λ items, al_by_user (accounts_loop items)))
  ∧ (builds_index_of "transactionId"
       (λ items, tl_transaction_id_map (transactions_loop items))
     ∧ builds_index_of "plaidTransactionId"
         (λ items, tl_plaid_id_map (transactions_loop items))
     ∧ builds_aggregate_of "userId"
         (λ items, tl_by_user (transactions_loop items))
     ∧ builds_aggregate_of "accountId"
         (λ items, tl_by_account (transactions_loop items)))
  ∧ (∀ items : list Item,
       acc_duplicate_account_ids (analyze_accounts items)
       = find_duplicates (grouped_by (usable_string "accountId") items)
       ∧ acc_duplicate_plaid_ids (analyze_accounts items)
         = find_duplicates (grouped_by (usable_string "plaidAccountId") items)
       ∧ acc_by_user (analyze_accounts items)
         = counted_by (get_S_default "userId" "N/A") items)
  ∧ (∀ items : list Item,
       tr_duplicate_transaction_ids (analyze_transactions items)
       = find_duplicates (grouped_by (usable_string "transactionId") items)
       ∧ tr_duplicate_plaid_ids (analyze_transactions items)
         = find_duplicates (grouped_by (usable_string "plaidTransactionId") items)
       ∧ tr_by_user (analyze_transactions items)
         = counted_by (get_S_default "userId" "N/A") items
       ∧ tr_by_account (analyze_transactions items)
         = counted_by (get_S_default "accountId" "N/A") items)
  ∧ (∀ items more : list Item,
       accounts_loop (items ++ more)
       = fold_left accounts_body more (accounts_loop items)
       ∧ transactions_loop (items ++ more)
         = fold_left transactions_body more (transactions_loop items)).
Proof.
  split_and!.
  - eapply builds_index_of_ext; [|apply field_index_builds].
    intros items. by rewrite accounts_loop_account_id_map.
  - eapply builds_index_of_ext; [|apply field_index_builds].
    intros items. by rewrite accounts_loop_plaid_id_map.
  - eapply builds_aggregate_of_ext; [|apply field_aggregate_builds].
    intros items. by rewrite accounts_loop_by_user.
  - eapply builds_index_of_ext; [|apply field_index_builds].
    intros items. by rewrite transactions_loop_transaction_id_map.
  - eapply builds_index_of_ext; [|apply field_index_builds].
    intros items. by rewrite transactions_loop_plaid_id_map.
  - eapply builds_aggregate_of_ext; [|apply field_aggregate_builds].
    intros items. by rewrite transactions_loop_by_user.
  - eapply builds_aggregate_of_ext; [|apply field_aggregate_builds].
    intros items. by rewrite transactions_loop_by_account.
  - intros items.
    rewrite analyze_accounts_account_ids, analyze_accounts_plaid_ids,
      analyze_accounts_by_user.
    unfold field_index, field_aggregate.
    by rewrite !index_of_grouped_by, tally_of_counted_by.
  - intros items.
    rewrite analyze_transactions_transaction_ids, analyze_transactions_plaid_ids,
      analyze_transactions_by_user, analyze_transactions_by_account.
    unfold field_index, field_aggregate.
    by rewrite !index_of_grouped_by, !tally_of_counted_by.
  - intros items more. unfold accounts_loop, transactions_loop.
    by rewrite !fold_left_app.
Qed.

(** On two accounts with distinct non-empty ids and string owners the
    loop's index and aggregate are the reference ones. *)
Lemma single_pass_refines_per_field_passes_witness :
  kmap SString
    (al_account_id_map
       (accounts_loop [ {[ "accountId" := AttrS "a1"; "userId" := AttrS "u1" ]};
                        {[ "accountId" := AttrS "a2"; "userId" := AttrS "u1" ]} ]))
  = reference_index "accountId"
      [ {[ "accountId" := AttrS "a1"; "userId" := AttrS "u1" ]};
        {[ "accountId" := AttrS "a2"; "userId" := AttrS "u1" ]} ]
  ∧ kmap SString
      (al_by_user
         (accounts_loop [ {[ "accountId" := AttrS "a1"; "userId" := AttrS "u1" ]};
                          {[ "accountId" := AttrS "a2"; "userId" := AttrS "u1" ]} ]))
    = reference_aggregate "userId"
        [ {[ "accountId" := AttrS "a1"; "userId" := AttrS "u1" ]};
          {[ "accountId" := AttrS "a2"; "userId" := AttrS "u1" ]} ].
Proof.
  split.
  - apply (proj2 (proj2 (proj1 (proj1 single_pass_refines_per_field_passes) _))).
    repeat (apply Forall_cons; split; [reflexivity|]). by apply Forall_nil.
  - apply (proj2 (proj2
             (proj2 (proj2 (proj1 single_pass_refines_per_field_passes)) _))).
    repeat (apply Forall_cons; split; [reflexivity|]). by apply Forall_nil.
Defined.

(** C5: whenever the backend answers a finite sequence of pages, each
    page but the last with a cursor and the last without, [scan_table]
    (given at least one loop iteration per page) returns: it fetches
    once per page, the first page without key and each later page with
    the cursor of the page before, stops after the page without cursor,
    and returns the items of all pages in order, each once; the number of
    items it reports, and the total of either analysis of them, is the
    sum of the page lengths. *)
Theorem scan_table_reads_every_page {Env} (B : Backend Env)
    (table_name : string) (pages : list ScanResponse) (e e' : Env)
    (log : list Event) (fuel : nat) :
  serves_pages B table_name None e pages e' →
  length pages ≤ fuel →
  let items := concat (page_items <$> pages) in
  scan_table B fuel table_name {| env := e; events := log |}
  = (Returned items,
     {| env := e';
        events := log ++ [Print (Scanning table_name)]
                      ++ page_fetches table_name None pages
                      ++ [Print (Found (length items))] |})
  ∧ length (page_fetches table_name None pages) = length pages
  ∧ length items = sum_list (length <$> (page_items <$> pages))
  ∧ acc_total (analyze_accounts items) = sum_list (length <$> (page_items <$> pages))
  ∧ tr_total (analyze_transactions items) = sum_list (length <$> (page_items <$> pages)).
Proof.
  intros Hserves Hfuel items. split_and!.
  - unfold scan_table, print, emit, mbind, M_bind. simpl.
    rewrite (scan_loop_serves B table_name None e pages e' Hserves) by auto.
    simpl. unfold mret, M_ret. by rewrite <-!app_assoc.
  - apply page_fetches_length.
  - apply concat_length_sum.
  - apply concat_length_sum.
  - apply concat_length_sum.
Qed.

(** The scenario of C5: pages [r1, r2] with cursor c1 and [r3] without
    cursor give the three records after two fetches. *)
Lemma scan_table_reads_every_page_witness :
  scan_table (scripted []) 2 "BudgetBuddy-Accounts"
    {| env := [inr first_page; inr second_page]; events := [] |}
  = (Returned [account_record "r1"; account_record "r2"; account_record "r3"],
     {| env := [];
        events := [ Print (Scanning "BudgetBuddy-Accounts");
                    CallScan "BudgetBuddy-Accounts" None;
                    CallScan "BudgetBuddy-Accounts" (Some cursor_c1);
                    Print (Found 3) ] |}).
Proof.
  refine (proj1 (scan_table_reads_every_page (scripted []) "BudgetBuddy-Accounts"
                   [first_page; second_page]
                   [inr first_page; inr second_page] [] [] 2 _ _)).
  - apply serves_next with (e1 := [inr second_page]); [reflexivity..|].
    apply serves_last; reflexivity.
  - simpl. lia.
Defined.

(** C8: in every run that reaches the review, the existence probes of
    all candidate tables come first and fetch nothing; a table whose
    probe answers "does not exist" gets a warning line, no error line,
    and is not in the list of existing tables; a table whose probe fails
    otherwise gets an error line with the cause and is not in the list
    either; no exception escapes; and everything after the check probes
    nothing and fetches only from tables the check confirmed. *)
Theorem existence_check_gates_analysis {Env} (B : Backend Env) (fuel : nat)
    (args : Args) (w : World Env) (e0 : Env) :
  connect B (region args) (env w) = (None, e0) →
  let probes := (probe_results B (tables args) e0).1 in
  let existing := confirmed probes in
  let check := concat (probe_events <$> probes) in
  probes.*1 = tables args
  ∧ (∃ rest,
       events (main B fuel args w).2
       = events w
         ++ [ Print (Header "BudgetBuddy Database Review");
              Print (Banner (region args) (table_prefix args));
              Print (Header "Step 1: Checking Tables") ]
         ++ check ++ rest
       ∧ Forall check_event check
       ∧ Forall (analysis_event existing) rest)
  ∧ (∀ e, (main B fuel args w).1 ≠ Raised e)
  ∧ (∀ table r, (table, r) ∈ probes → probe_outcome existing check table r).
Proof.
  intros Hc probes existing check. split_and!.
  - apply probe_results_tables.
  - rewrite (main_connected B fuel args w e0 Hc).
    set (w0 := {| env := e0; events := _ |}).
    destruct (review_events B fuel args w0) as (rest & Hrest & HP).
    exists rest. split_and!; [|apply probe_events_check|exact HP].
    assert (events (review B fuel args w0).2
            = events w
              ++ [ Print (Header "BudgetBuddy Database Review");
                   Print (Banner (region args) (table_prefix args));
                   Print (Header "Step 1: Checking Tables") ]
              ++ check ++ rest) as <-.
    { rewrite Hrest. subst w0. cbn [events env]. by rewrite <-!app_assoc. }
    by destruct (review B fuel args w0) as [[[]|e|] w'].
  - apply never_raises_main.
  - intros table r Hin. apply probe_outcome_holds; [|done].
    subst probes. rewrite probe_results_tables. apply tables_NoDup.
Qed.

(** A run in which the Goals table does not exist: the table is left
    out of the existing tables. *)
Lemma existence_check_gates_analysis_witness :
  "BudgetBuddy-Goals"
  ∉ confirmed (fst (probe_results (scripted ["BudgetBuddy-Goals"])
                      (tables default_args) [])).
Proof.
  refine (proj1 (proj2 (proj2 (proj2
            (existence_check_gates_analysis (scripted ["BudgetBuddy-Goals"]) 3
               default_args {| env := []; events := [] |} [] eq_refl)))
            "BudgetBuddy-Goals" ResourceNotFoundException _)).
  vm_compute. do 4 apply list_elem_of_further. apply list_elem_of_here.
Defined.

(** C7: in every run of the analysis step over both tables, no failure
    of a block escapes it.  When the accounts scan raises, nothing but
    the scan's own lines and fetches precedes the error line carrying
    the cause (no accounts analysis is printed or written), and the
    transactions block then runs: whatever its scan returns is analysed
    and printed, and the run ends normally.  When the accounts block has
    reported and the transactions scan raises, the accounts report stays
    in the output, the error line with the cause follows the
    transactions fetches, and the run ends normally. *)
Theorem failure_is_isolated {Env} (B : Backend Env) (fuel : nat) (args : Args)
    (existing : list string) (w : World Env) :
  let accounts := table_prefix args +:+ "-Accounts" in
  let transactions := table_prefix args +:+ "-Transactions" in
  let w1 := and_then w [Print (Header "Step 2: Analyzing Tables")] in
  accounts ∈ existing →
  transactions ∈ existing →
  (∀ e, (analyze_tables B fuel args existing w).1 ≠ Raised e)
  ∧ (∀ e w2 items w3,
       scan_table B fuel accounts
         (and_then w1 [Print (Header "Accounts Analysis")]) = (Raised e, w2) →
       scan_table B fuel transactions
         (and_then w2 [ Print (AnalyzeError "accounts" e);
                        Print (Header "Transactions Analysis") ])
       = (Returned items, w3) →
       ∃ fetchesA fetchesT tail w',
         analyze_tables B fuel args existing w = (Returned tt, w')
         ∧ events w'
           = events w1
             ++ [Print (Header "Accounts Analysis")] ++ fetchesA
             ++ [ Print (AnalyzeError "accounts" e);
                  Print (Header "Transactions Analysis") ] ++ fetchesT
             ++ match items with
                | [] => []
                | _ :: _ =>
                    Print (TransactionAnalysis (analyze_transactions items)) :: tail
                end
             ++ [Print (Header "Review Complete!")]
         ∧ Forall (scan_table_event accounts) fetchesA
         ∧ Forall (scan_table_event transactions) fetchesT
         ∧ Forall (save_event "transactions") tail)
  ∧ (∀ item items w2 e w3,
       scan_table B fuel accounts
         (and_then w1 [Print (Header "Accounts Analysis")])
       = (Returned (item :: items), w2) →
       scan_table B fuel transactions
         (and_then (review_accounts B fuel args existing w1).2
                   [Print (Header "Transactions Analysis")])
       = (Raised e, w3) →
       ∃ fetchesA tail fetchesT,
         analyze_tables B fuel args existing w
         = (Returned tt,
            and_then w3 [ Print (AnalyzeError "transactions" e);
                          Print (Header "Review Complete!") ])
         ∧ events w3
           = events w1
             ++ [Print (Header "Accounts Analysis")] ++ fetchesA
             ++ Print (AccountAnalysis (analyze_accounts (item :: items))) :: tail
             ++ [Print (Header "Transactions Analysis")] ++ fetchesT
         ∧ Forall (scan_table_event accounts) fetchesA
         ∧ Forall (save_event "accounts") tail
         ∧ Forall (scan_table_event transactions) fetchesT).
Proof.
  intros accounts transactions w1 HinA HinT. split_and!.
  - apply never_raises_analyze_tables.
  - intros e w2 items w3 HsA HsT.
    destruct (scan_table_events _ _ _ _ _ _ HsA) as (fetchesA & HevA & HPA).
    destruct (scan_table_events _ _ _ _ _ _ HsT) as (fetchesT & HevT & HPT).
    rewrite <-(and_then_and_then w2 [Print (AnalyzeError "accounts" e)]
                 [Print (Header "Transactions Analysis")] : _ = and_then w2 [_; _])
      in HsT.
    destruct (review_transactions_scan_returns B fuel args existing _ _ _ HinT HsT)
      as (tail & w' & Hrun & Hev & HPtail).
    exists fetchesA, fetchesT, tail,
      (and_then w' [Print (Header "Review Complete!")]).
    split_and!; [| |done..].
    + rewrite analyze_tables_unfold. fold w1.
      unfold mbind at 1, M_bind at 1.
      rewrite (review_accounts_scan_raises B fuel args existing w1 e w2 HinA HsA).
      unfold mbind at 1, M_bind at 1. by rewrite Hrun.
    + cbn [and_then events]. rewrite Hev, HevT. cbn [and_then events].
      rewrite HevA. cbn [and_then events]. by rewrite <-!app_assoc.
  - intros item items w2 e w3 HsA HsT.
    destruct (scan_table_events _ _ _ _ _ _ HsA) as (fetchesA & HevA & HPA).
    destruct (scan_table_events _ _ _ _ _ _ HsT) as (fetchesT & HevT & HPT).
    destruct (review_accounts_scan_returns B fuel args existing _ _ _ HinA HsA)
      as (tail & wA & Hrun & Hev & HPtail).
    rewrite Hrun in HsT, HevT. cbn [snd] in HsT, HevT.
    exists fetchesA, tail, fetchesT. split_and!; [| |done..].
    + rewrite analyze_tables_unfold. fold w1.
      unfold mbind at 1, M_bind at 1. rewrite Hrun.
      unfold mbind at 1, M_bind at 1.
      rewrite (review_transactions_scan_raises B fuel args existing wA e w3 HinT HsT).
      unfold print, emit. simpl. by rewrite <-app_assoc.
    + rewrite HevT. cbn [and_then events]. rewrite Hev, HevA.
      cbn [and_then events]. by rewrite <-!app_assoc.
Qed.

(** The scenario of C7: the second fetch on the accounts table raises;
    the error is printed with its cause and the transactions analysis is
    printed all the same. *)
Lemma failure_is_isolated_witness :
  ∃ w',
    analyze_tables (scripted []) 5 default_args both_tables
      {| env := failing_script; events := [] |} = (Returned tt, w')
    ∧ Print (AnalyzeError "accounts" "ProvisionedThroughputExceededException")
      ∈ events w'
    ∧ Print (TransactionAnalysis (analyze_transactions [account_record "r3"]))
      ∈ events w'.
Proof.
  assert ("BudgetBuddy-Accounts" ∈ both_tables) as HinA
    by (by apply (bool_decide_unpack _)).
  assert ("BudgetBuddy-Transactions" ∈ both_tables) as HinT
    by (by apply (bool_decide_unpack _)).
  destruct (proj1 (proj2 (failure_is_isolated (scripted []) 5 default_args
                            both_tables {| env := failing_script; events := [] |}
                            HinA HinT))
              "ProvisionedThroughputExceededException"
              {| env := [inr second_page];
                 events := [ Print (Header "Step 2: Analyzing Tables");
                             Print (Header "Accounts Analysis");
                             Print (Scanning "BudgetBuddy-Accounts");
                             CallScan "BudgetBuddy-Accounts" None;
                             CallScan "BudgetBuddy-Accounts" (Some cursor_c1) ] |}
              [account_record "r3"]
              {| env := [];
                 events := [ Print (Header "Step 2: Analyzing Tables");
                             Print (Header "Accounts Analysis");
                             Print (Scanning "BudgetBuddy-Accounts");
                             CallScan "BudgetBuddy-Accounts" None;
                             CallScan "BudgetBuddy-Accounts" (Some cursor_c1);
                             Print (AnalyzeError "accounts"
                                      "ProvisionedThroughputExceededException");
                             Print (Header "Transactions Analysis");
                             Print (Scanning "BudgetBuddy-Transactions");
                             CallScan "BudgetBuddy-Transactions" None;
                             Print (Found 1) ] |}
              eq_refl eq_refl)
    as (fetchesA & fetchesT & tail & w' & Hrun & Hev & _).
  exists w'. split; [exact Hrun|]. rewrite Hev.
  split.
  - rewrite !elem_of_app, !elem_of_cons. tauto.
  - rewrite !elem_of_app, !elem_of_cons. tauto.
Defined.

(** * Further properties *)

(** X1: [analyze_accounts] counts a record as inactive exactly when its
    [active] attribute is the boolean false; a record without the
    attribute, or with an attribute of another type, counts as active;
    the two counters add up to the total. *)
Theorem active_and_inactive_split_the_total (items : list Item) :
  acc_inactive (analyze_accounts items)
  = length (filter (λ item, marked_inactive item = true) items)
  ∧ acc_active (analyze_accounts items)
    = length (filter (λ item, marked_inactive item = false) items)
  ∧ acc_active (analyze_accounts items) + acc_inactive (analyze_accounts items)
    = acc_total (analyze_accounts items).
Proof.
  assert (∀ item, get_BOOL_default "active" true item = negb (marked_inactive item))
    as Hact.
  { intros item. unfold get_BOOL_default, marked_inactive.
    by destruct (item !! "active") as [[| | |[]| | | | | |]|]. }
  unfold analyze_accounts, accounts_loop. rewrite accounts_fold. simpl.
  assert (filter (λ item, get_BOOL_default "active" true item = true) items
          = filter (λ item, marked_inactive item = false) items) as ->.
  { apply list_filter_iff. intros item. rewrite Hact.
    by destruct (marked_inactive item). }
  assert (filter (λ item, get_BOOL_default "active" true item = false) items
          = filter (λ item, marked_inactive item = true) items) as ->.
  { apply list_filter_iff. intros item. rewrite Hact.
    by destruct (marked_inactive item). }
  split_and!; [done..|].
  induction items as [|item items IH]; [done|].
  rewrite !filter_cons. destruct (marked_inactive item); simpl in *; lia.
Qed.

(** X2: when a fetch raises after some pages were read, [scan_table]
    raises the same exception: the items read so far are not returned,
    the "Found" line is not printed, and the failing fetch is the last
    one.  (Enough fuel: more iterations than pages read.) *)
Theorem scan_table_propagates_failure {Env} (B : Backend Env)
    (table_name : string) (pages : list ScanResponse) (exc : Exception)
    (e e' : Env) (log : list Event) (fuel : nat) :
  serves_then_fails B table_name None e pages exc e' →
  length pages < fuel →
  scan_table B fuel table_name {| env := e; events := log |}
  = (Raised exc,
     {| env := e';
        events := log ++ [Print (Scanning table_name)]
                      ++ fetches_and_one_more table_name None pages |})
  ∧ length (fetches_and_one_more table_name None pages) = S (length pages).
Proof.
  intros Hfails Hfuel. split.
  - unfold scan_table, print, emit, mbind, M_bind. simpl.
    rewrite (scan_loop_fails B table_name None e pages exc e' Hfails) by auto.
    by rewrite <-!app_assoc.
  - generalize (@None Key). clear. induction pages as [|page pages IH];
      intros cursor; [done|]. simpl. by rewrite IH.
Qed.

(** A first page with a cursor, then a throttled second fetch. *)
Lemma scan_table_propagates_failure_witness :
  scan_table (scripted []) 2 "BudgetBuddy-Accounts"
    {| env := [inr first_page; inl "ThrottlingException"]; events := [] |}
  = (Raised "ThrottlingException",
     {| env := [];
        events := [ Print (Scanning "BudgetBuddy-Accounts");
                    CallScan "BudgetBuddy-Accounts" None;
                    CallScan "BudgetBuddy-Accounts" (Some cursor_c1) ] |}).
Proof.
  refine (proj1 (scan_table_propagates_failure (scripted []) "BudgetBuddy-Accounts"
                   [first_page] "ThrottlingException"
                   [inr first_page; inl "ThrottlingException"] [] [] 2 _ _)).
  - apply fails_later with (e1 := [inl "ThrottlingException"]); [reflexivity..|].
    apply fails_now. reflexivity.
  - simpl. lia.
Defined.

(** X3: [scan_table] leaves its loop only on a page without cursor: on a
    backend that answers every fetch with a cursor it does not return,
    whatever number of iterations it is given, and fetches once per
    iteration. *)
Theorem scan_table_needs_a_last_page {Env} (B : Backend Env)
    (table_name : string) (fuel : nat) (w : World Env) :
  always_has_more B table_name →
  ∃ fetches w',
    scan_table B fuel table_name w = (OutOfFuel, w')
    ∧ events w' = events w ++ Print (Scanning table_name) :: fetches
    ∧ length fetches = fuel.
Proof.
  intros Hmore. unfold scan_table, print, emit.
  unfold mbind at 1, M_bind at 1. unfold mbind at 1, M_bind at 1.
  destruct (scan_loop_endless B table_name Hmore fuel [] None
              {| env := env w; events := events w ++ [Print (Scanning table_name)] |})
    as (fetches & w' & Hrun & Hev & Hlen).
  exists fetches, w'. rewrite Hrun. split_and!; [done| |done].
  rewrite Hev. simpl. by rewrite <-app_assoc.
Qed.

(** Seven iterations on the endless backend: seven fetches, no result. *)
Lemma scan_table_needs_a_last_page_witness :
  ∃ fetches w',
    scan_table endless 7 "BudgetBuddy-Accounts" {| env := tt; events := [] |}
    = (OutOfFuel, w')
    ∧ events w' = [] ++ Print (Scanning "BudgetBuddy-Accounts") :: fetches
    ∧ length fetches = 7.
Proof.
  apply (scan_table_needs_a_last_page endless "BudgetBuddy-Accounts" 7
           {| env := tt; events := [] |}).
  intros cursor e. exists first_page, e. split; reflexivity.
Defined.

(** X4: whatever the backend answers, a run of [main] fetches only from
    the accounts and the transactions table (the other four candidates
    are probed but never scanned) and writes only the two report files,
    each under the output directory; without an output directory (none,
    or the empty string) it writes nothing. *)
Theorem main_touches_only_its_two_tables {Env} (B : Backend Env) (fuel : nat)
    (args : Args) (w : World Env) :
  ∃ evs,
    events (main B fuel args w).2 = events w ++ evs
    ∧ Forall (permitted_event args) evs
    ∧ (truthy (output_dir args) = false →
       ∀ path report, CallWriteJson path report ∉ evs).
Proof.
  destruct (emits_main_permitted B fuel args w) as (evs & Hev & HP).
  exists evs. split_and!; [done..|].
  intros Hfalsy path report Hin.
  rewrite Forall_forall in HP. destruct (HP _ Hin) as (dir & Hdir & Hne & _).
  rewrite Hdir in Hfalsy. apply truthy_Some in Hne. congruence.
Qed.

(** A run with the default arguments writes no file. *)
Lemma main_touches_only_its_two_tables_witness :
  ∃ evs,
    events (main (scripted []) 3 default_args
              {| env := [inr second_page; inr second_page]; events := [] |}).2
    = [] ++ evs
    ∧ ∀ path report, CallWriteJson path report ∉ evs.
Proof.
  destruct (main_touches_only_its_two_tables (scripted []) 3 default_args
              {| env := [inr second_page; inr second_page]; events := [] |})
    as (evs & Hev & _ & Hnowrite).
  exists evs. split; [exact Hev|]. apply Hnowrite. reflexivity.
Defined.

(** X5: the exit status of [main] tells only whether the client could be
    created: if [boto3.client] raises, [main] prints the error and exits
    with status 1 before any probe or fetch; otherwise a run that ends,
    ends with status 0, whatever the probes and the analyses did. *)
Theorem main_exit_status {Env} (B : Backend Env) (fuel : nat) (args : Args)
    (w : World Env) (e0 : Env) :
  (∀ exc,
     connect B (region args) (env w) = (Some exc, e0) →
     main B fuel args w
     = (Returned 1,
        {| env := e0;
           events := events w
                     ++ [ Print (Header "BudgetBuddy Database Review");
                          Print (Banner (region args) (table_prefix args));
                          Print (ClientInitFailed exc) ] |}))
  ∧ (connect B (region args) (env w) = (None, e0) →
     ∀ status, (main B fuel args w).1 = Returned status → status = 0).
Proof.
  split.
  - intros exc Hc. unfold main, print, emit, call_connect, mbind, M_bind. simpl.
    rewrite Hc. simpl. by rewrite <-!app_assoc.
  - intros Hc status. rewrite (main_connected B fuel args w e0 Hc).
    destruct (review B fuel args _) as [[[]|exc|] w']; simpl; congruence.
Qed.

(** On a backend that cannot be reached the run ends with status 1 after
    the banner and the error line. *)
Lemma main_exit_status_witness :
  main unreachable 3 default_args {| env := tt; events := [] |}
  = (Returned 1,
     {| env := tt;
        events := [ Print (Header "BudgetBuddy Database Review");
                    Print (Banner "us-east-1" "BudgetBuddy");
                    Print (ClientInitFailed "EndpointConnectionError") ] |}).
Proof.
  apply (proj1 (main_exit_status unreachable 3 default_args
                  {| env := tt; events := [] |} tt)).
  reflexivity.
Defined.

(** X6: what each analysis block of [main] does.  A table that the check
    did not find is skipped without a line.  For a table that was found
    and scanned: with no items, nothing is printed or written after the
    scan; with items, the analysis is printed first and then, only if an
    output directory is given, written to its report file; a write that
    raises leaves the printed analysis in place and adds an error line
    of the block; in all cases the block ends normally. *)
Theorem analysis_block_outcomes {Env} (B : Backend Env) (fuel : nat)
    (args : Args) (existing : list string) (w : World Env) :
  (table_prefix args +:+ "-Accounts" ∉ existing →
   review_accounts B fuel args existing w = (Returned tt, w))
  ∧ (table_prefix args +:+ "-Transactions" ∉ existing →
     review_transactions B fuel args existing w = (Returned tt, w))
  ∧ (∀ items w2,
       table_prefix args +:+ "-Accounts" ∈ existing →
       scan_table B fuel (table_prefix args +:+ "-Accounts")
         (and_then w [Print (Header "Accounts Analysis")]) = (Returned items, w2) →
       block_after_scan B args (review_accounts B fuel args existing) w items w2
         (AccountAnalysis (analyze_accounts items)) "/accounts-analysis.json"
         (AccountsReport (analyze_accounts items)) "accounts")
  ∧ (∀ items w2,
       table_prefix args +:+ "-Transactions" ∈ existing →
       scan_table B fuel (table_prefix args +:+ "-Transactions")
         (and_then w [Print (Header "Transactions Analysis")])
       = (Returned items, w2) →
       block_after_scan B args (review_transactions B fuel args existing) w
         items w2
         (TransactionAnalysis (analyze_transactions items))
         "/transactions-analysis.json"
         (TransactionsReport (analyze_transactions items)) "transactions").
Proof.
  split_and!.
  - intros Hin. unfold review_accounts. by rewrite bool_decide_eq_false_2.
  - intros Hin. unfold review_transactions. by rewrite bool_decide_eq_false_2.
  - intros items w2. apply review_accounts_after_scan.
  - intros items w2. apply review_transactions_after_scan.
Qed.

(** One account, an output directory, and a file system that refuses the
    write: the analysis is printed, the write is tried, the error is
    reported, and the block ends normally. *)
Lemma analysis_block_outcomes_witness :
  review_accounts read_only 3 args_with_output both_tables
    {| env := tt; events := [] |}
  = (Returned tt,
     {| env := tt;
        events :=
          [ Print (Header "Accounts Analysis");
            Print (Scanning "BudgetBuddy-Accounts");
            CallScan "BudgetBuddy-Accounts" None;
            Print (Found 1);
            Print (AccountAnalysis (analyze_accounts [account_record "r3"]));
            CallWriteJson "out/accounts-analysis.json"
              (AccountsReport (analyze_accounts [account_record "r3"]));
            Print (AnalyzeError "accounts" "PermissionError") ] |}).
Proof.
  assert ("BudgetBuddy-Accounts" ∈ both_tables) as Hin
    by (by apply (bool_decide_unpack _)).
  exact (proj1 (proj2 (proj2
           (analysis_block_outcomes read_only 3 args_with_output both_tables
              {| env := tt; events := [] |})))
           [account_record "r3"]
           {| env := tt;
              events := [ Print (Header "Accounts Analysis");
                          Print (Scanning "BudgetBuddy-Accounts");
                          CallScan "BudgetBuddy-Accounts" None;
                          Print (Found 1) ] |}
           Hin eq_refl).
Defined.

(** X7: the dictionaries the two analysers build, taken in Python's
    insertion order, hold every key once and are, the order forgotten,
    exactly the dictionaries of [analyze_accounts] and
    [analyze_transactions] above; the owners of the aggregates stand in
    first-seen order, so that scanning more records only appends
    owners. *)
Theorem analysers_in_order_agree (items : list Item) :
  forget_accounts_order (analyze_accounts_in_order items) = analyze_accounts items
  ∧ forget_transactions_order (analyze_transactions_in_order items)
    = analyze_transactions items
  ∧ (NoDup (oa_duplicate_account_ids (analyze_accounts_in_order items)).*1
     ∧ NoDup (oa_duplicate_plaid_ids (analyze_accounts_in_order items)).*1
     ∧ NoDup (oa_by_user (analyze_accounts_in_order items)).*1
     ∧ NoDup (ot_duplicate_transaction_ids (analyze_transactions_in_order items)).*1
     ∧ NoDup (ot_duplicate_plaid_ids (analyze_transactions_in_order items)).*1
     ∧ NoDup (ot_by_user (analyze_transactions_in_order items)).*1
     ∧ NoDup (ot_by_account (analyze_transactions_in_order items)).*1)
  ∧ (∀ more : list Item,
       (oa_by_user (analyze_accounts_in_order items)).*1
       `prefix_of` (oa_by_user (analyze_accounts_in_order (items ++ more))).*1
       ∧ (ot_by_user (analyze_transactions_in_order items)).*1
         `prefix_of` (ot_by_user (analyze_transactions_in_order (items ++ more))).*1
       ∧ (ot_by_account (analyze_transactions_in_order items)).*1
         `prefix_of`
         (ot_by_account (analyze_transactions_in_order (items ++ more))).*1).
Proof.
  split_and!.
  - rewrite analyze_accounts_in_order_eq, analyze_accounts_eq.
    unfold forget_accounts_order. simpl.
    by rewrite !od_duplicates_list_to_map, od_tally_of_list_to_map.
  - rewrite analyze_transactions_in_order_eq, analyze_transactions_eq.
    unfold forget_transactions_order. simpl.
    by rewrite !od_duplicates_list_to_map, !od_tally_of_list_to_map.
  - rewrite analyze_accounts_in_order_eq. apply od_duplicates_NoDup.
  - rewrite analyze_accounts_in_order_eq. apply od_duplicates_NoDup.
  - rewrite analyze_accounts_in_order_eq. apply od_tally_of_NoDup.
  - rewrite analyze_transactions_in_order_eq. apply od_duplicates_NoDup.
  - rewrite analyze_transactions_in_order_eq. apply od_duplicates_NoDup.
  - rewrite analyze_transactions_in_order_eq. apply od_tally_of_NoDup.
  - rewrite analyze_transactions_in_order_eq. apply od_tally_of_NoDup.
  - intros more. rewrite !analyze_accounts_in_order_eq,
      !analyze_transactions_in_order_eq. simpl.
    split_and!; apply od_tally_of_prefix.
Qed.

(** X8: the "by User (top 10)" paragraph of both printed analyses lists
    the ten owners with the most records (all owners if there are fewer
    than eleven), largest count first, no owner twice, each with the
    count of the aggregate; an owner left out has no more records than
    any owner listed; and owners with the same count are listed in the
    order in which the scan first met them. *)
Theorem reports_list_the_top_ten_owners (items : list Item) :
  let shown_accounts :=
    user_entries (print_account_analysis (analyze_accounts_in_order items)) in
  let shown_transactions :=
    user_entries
      (print_transaction_analysis (analyze_transactions_in_order items)) in
  shows_top_ten (acc_by_user (analyze_accounts items)) shown_accounts
  ∧ shows_top_ten (tr_by_user (analyze_transactions items)) shown_transactions
  ∧ (∀ c : nat,
       filter (λ x : string * nat, x.2 = c) shown_accounts
       `prefix_of` filter (λ x : string * nat, x.2 = c)
                     (oa_by_user (analyze_accounts_in_order items)))
  ∧ (∀ c : nat,
       filter (λ x : string * nat, x.2 = c) shown_transactions
       `prefix_of` filter (λ x : string * nat, x.2 = c)
                     (ot_by_user (analyze_transactions_in_order items))).
Proof.
  intros shown_accounts shown_transactions.
  subst shown_accounts shown_transactions.
  rewrite user_entries_print_account_analysis,
    user_entries_print_transaction_analysis.
  split_and!.
  - rewrite analyze_accounts_in_order_eq, analyze_accounts_eq. simpl.
    rewrite <-od_tally_of_list_to_map.
    apply top_ten_of_dictionary, od_tally_of_NoDup.
  - rewrite analyze_transactions_in_order_eq, analyze_transactions_eq. simpl.
    rewrite <-od_tally_of_list_to_map.
    apply top_ten_of_dictionary, od_tally_of_NoDup.
  - intros c. rewrite <-(sorted_by_count_stable c (oa_by_user _)).
    apply filter_take_prefix.
  - intros c. rewrite <-(sorted_by_count_stable c (ot_by_user _)).
    apply filter_take_prefix.
Qed.

(** X9: [print_account_analysis] lists, for either identifier, at most
    ten duplicate groups, none twice, each with the number of records of
    that group in the analysis; it lists one member line for every
    record of every listed group; and for more than ten groups it gives
    the number of the groups left out. *)
Theorem account_report_lists_ten_groups (items : list Item) :
  let lines := print_account_analysis (analyze_accounts_in_order items) in
  let by_id := acc_duplicate_account_ids (analyze_accounts items) in
  let by_plaid := acc_duplicate_plaid_ids (analyze_accounts items) in
  shows_groups by_id 10 (group_entries "Account ID" lines)
  ∧ shows_groups by_plaid 10 (group_entries "Plaid Account ID" lines)
  ∧ length (member_entries "Plaid ID" lines)
    = sum_list (group_entries "Account ID" lines).*2
  ∧ length (member_entries "Account ID" lines)
    = sum_list (group_entries "Plaid Account ID" lines).*2
  ∧ more_entries lines
    = (if 10 <? size by_id then [size by_id - 10] else [])
      ++ (if 10 <? size by_plaid then [size by_plaid - 10] else []).
Proof.
  intros lines by_id by_plaid. subst lines by_id by_plaid.
  destruct (member_entries_print_account_analysis
              (analyze_accounts_in_order items)) as [Hm1 Hm2].
  split_and!; [| |exact Hm1|exact Hm2|].
  - rewrite (proj1 (group_entries_print_account_analysis _)).
    rewrite analyze_accounts_in_order_eq, analyze_accounts_eq. simpl.
    rewrite <-od_duplicates_list_to_map.
    apply shows_groups_take, od_duplicates_NoDup.
  - rewrite (proj2 (group_entries_print_account_analysis _)).
    rewrite analyze_accounts_in_order_eq, analyze_accounts_eq. simpl.
    rewrite <-od_duplicates_list_to_map.
    apply shows_groups_take, od_duplicates_NoDup.
  - rewrite more_entries_print_account_analysis.
    rewrite analyze_accounts_in_order_eq, analyze_accounts_eq. simpl.
    rewrite <-!od_duplicates_list_to_map.
    by rewrite !map_size_list_to_map by apply od_duplicates_NoDup.
Qed.

(** X10: [print_transaction_analysis] lists at most five duplicate groups
    for either identifier, each with the number of records of that group
    in the analysis, never lists the members of a group, gives the number
    of groups left out beyond five, and prints nothing of the
    per-account aggregate: two analyses that differ only there print the
    same lines. *)
Theorem transaction_report_lists_five_groups (items : list Item) :
  let lines := print_transaction_analysis (analyze_transactions_in_order items) in
  let by_id := tr_duplicate_transaction_ids (analyze_transactions items) in
  let by_plaid := tr_duplicate_plaid_ids (analyze_transactions items) in
  shows_groups by_id 5 (group_entries "Transaction ID" lines)
  ∧ shows_groups by_plaid 5 (group_entries "Plaid Transaction ID" lines)
  ∧ (∀ label, member_entries label lines = [])
  ∧ more_entries lines
    = (if 5 <? size by_id then [size by_id - 5] else [])
      ++ (if 5 <? size by_plaid then [size by_plaid - 5] else [])
  ∧ (∀ by_account,
       print_transaction_analysis
         {| ot_total := ot_total (analyze_transactions_in_order items);
            ot_duplicate_transaction_ids :=
              ot_duplicate_transaction_ids (analyze_transactions_in_order items);
            ot_duplicate_plaid_ids :=
              ot_duplicate_plaid_ids (analyze_transactions_in_order items);
            ot_by_user := ot_by_user (analyze_transactions_in_order items);
            ot_by_account := by_account |}
       = lines).
Proof.
  intros lines by_id by_plaid. subst lines by_id by_plaid. split_and!.
  - rewrite (proj1 (group_entries_print_transaction_analysis _)).
    rewrite analyze_transactions_in_order_eq, analyze_transactions_eq. simpl.
    rewrite <-od_duplicates_list_to_map.
    apply shows_groups_take, od_duplicates_NoDup.
  - rewrite (proj2 (group_entries_print_transaction_analysis _)).
    rewrite analyze_transactions_in_order_eq, analyze_transactions_eq. simpl.
    rewrite <-od_duplicates_list_to_map.
    apply shows_groups_take, od_duplicates_NoDup.
  - intros label. apply member_entries_print_transaction_analysis.
  - rewrite more_entries_print_transaction_analysis.
    rewrite analyze_transactions_in_order_eq, analyze_transactions_eq. simpl.
    rewrite <-!od_duplicates_list_to_map.
    by rewrite !map_size_list_to_map by apply od_duplicates_NoDup.
  - done.
Qed.

(** X11: the headline of each "duplicates" paragraph tells the whole
    analysis, not the listed part: with no duplicate group the success
    line is printed, otherwise the warning with the number of all groups,
    also when only the first ten (five) are listed; and the report opens
    with the number of records scanned. *)
Theorem report_headlines (items : list Item) :
  let accounts := print_account_analysis (analyze_accounts_in_order items) in
  let transactions :=
    print_transaction_analysis (analyze_transactions_in_order items) in
  let a := analyze_accounts items in
  let t := analyze_transactions items in
  take 2 accounts
  = [TotalLine "Accounts" (length items); ActiveLine (acc_active a) (acc_inactive a)]
  ∧ take 1 transactions = [TotalLine "Transactions" (length items)]
  ∧ (warning_entries accounts, success_entries accounts)
    = ((headline "DUPLICATE ACCOUNT IDs FOUND: " "No duplicate account IDs found"
          (acc_duplicate_account_ids a)).1
       ++ (headline "DUPLICATE PLAID ACCOUNT IDs FOUND: "
             "No duplicate Plaid account IDs found"
             (acc_duplicate_plaid_ids a)).1,
       (headline "DUPLICATE ACCOUNT IDs FOUND: " "No duplicate account IDs found"
          (acc_duplicate_account_ids a)).2
       ++ (headline "DUPLICATE PLAID ACCOUNT IDs FOUND: "
             "No duplicate Plaid account IDs found"
             (acc_duplicate_plaid_ids a)).2)
  ∧ (warning_entries transactions, success_entries transactions)
    = ((headline "DUPLICATE TRANSACTION IDs FOUND: "
          "No duplicate transaction IDs found"
          (tr_duplicate_transaction_ids t)).1
       ++ (headline "DUPLICATE PLAID TRANSACTION IDs FOUND: "
             "No duplicate Plaid transaction IDs found"
             (tr_duplicate_plaid_ids t)).1,
       (headline "DUPLICATE TRANSACTION IDs FOUND: "
          "No duplicate transaction IDs found"
          (tr_duplicate_transaction_ids t)).2
       ++ (headline "DUPLICATE PLAID TRANSACTION IDs FOUND: "
             "No duplicate Plaid transaction IDs found"
             (tr_duplicate_plaid_ids t)).2).
Proof.
  intros accounts transactions a t. subst accounts transactions a t.
  rewrite analyze_accounts_eq, analyze_transactions_eq.
  rewrite analyze_accounts_in_order_eq, analyze_transactions_in_order_eq.
  cbn [acc_active acc_inactive acc_duplicate_account_ids acc_duplicate_plaid_ids
       tr_duplicate_transaction_ids tr_duplicate_plaid_ids].
  rewrite <-!od_duplicates_list_to_map.
  split_and!; [done..| |].
  - unfold print_account_analysis.
    cbn [oa_total oa_active oa_inactive oa_duplicate_account_ids
         oa_duplicate_plaid_ids oa_by_user].
    unfold warning_entries at 1, success_entries at 1.
    rewrite !omap_app. fold warning_entries success_entries.
    rewrite (proj1 (headline_by_user_lines _ _ _)),
      (proj2 (headline_by_user_lines _ _ _)), !app_nil_r.
    pose proof (headline_duplicates_lines "DUPLICATE ACCOUNT IDs FOUND: "
                  "No duplicate account IDs found" "Account ID" 10
                  (fmap (λ acc, MemberLine "Plaid ID"
                                  (get_S_default "plaidAccountId" "N/A" acc)
                                  (get_S_default "userId" "N/A" acc)
                                  (get_S_default "accountName" "N/A" acc)))
                  (od_find_duplicates (od_index_of (get_S "accountId") items))
                  (λ g, entries_of_fmap _ _ g (λ _, eq_refl))
                  (λ g, entries_of_fmap _ _ g (λ _, eq_refl))
                  (od_duplicates_NoDup _ _)) as H1.
    pose proof (headline_duplicates_lines "DUPLICATE PLAID ACCOUNT IDs FOUND: "
                  "No duplicate Plaid account IDs found" "Plaid Account ID" 10
                  (fmap (λ acc, MemberLine "Account ID"
                                  (get_S_default "accountId" "N/A" acc)
                                  (get_S_default "userId" "N/A" acc)
                                  (get_S_default "accountName" "N/A" acc)))
                  (od_find_duplicates (od_index_of (get_S "plaidAccountId") items))
                  (λ g, entries_of_fmap _ _ g (λ _, eq_refl))
                  (λ g, entries_of_fmap _ _ g (λ _, eq_refl))
                  (od_duplicates_NoDup _ _)) as H2.
    rewrite <-H1, <-H2. done.
  - unfold print_transaction_analysis.
    cbn [ot_total ot_duplicate_transaction_ids ot_duplicate_plaid_ids ot_by_user].
    unfold warning_entries at 1, success_entries at 1.
    rewrite !omap_app. fold warning_entries success_entries.
    rewrite (proj1 (headline_by_user_lines _ _ _)),
      (proj2 (headline_by_user_lines _ _ _)), !app_nil_r.
    pose proof (headline_duplicates_lines "DUPLICATE TRANSACTION IDs FOUND: "
                  "No duplicate transaction IDs found" "Transaction ID" 5
                  (λ _, [])
                  (od_find_duplicates (od_index_of (get_S "transactionId") items))
                  (λ g, eq_refl) (λ g, eq_refl)
                  (od_duplicates_NoDup _ _)) as H1.
    pose proof (headline_duplicates_lines "DUPLICATE PLAID TRANSACTION IDs FOUND: "
                  "No duplicate Plaid transaction IDs found"
                  "Plaid Transaction ID" 5
                  (λ _, [])
                  (od_find_duplicates
                     (od_index_of (get_S "plaidTransactionId") items))
                  (λ g, eq_refl) (λ g, eq_refl)
                  (od_duplicates_NoDup _ _)) as H2.
    rewrite <-H1, <-H2. done.
Qed.

(** X12: when no candidate table is found (every probe answers "does not
    exist" or fails), [main] after connecting only runs the six probes:
    it prints the two step headers and the closing line, fetches nothing,
    analyses nothing, and exits with status 0, whatever the number of
    loop iterations allowed. *)
Theorem main_without_tables {Env} (B : Backend Env) (fuel : nat) (args : Args)
    (w : World Env) (e0 : Env) :
  connect B (region args) (env w) = (None, e0) →
  finds_no_table B →
  main B fuel args w
  = (Returned 0,
     {| env := (probe_results B (tables args) e0).2;
        events :=
          events w
          ++ [ Print (Header "BudgetBuddy Database Review");
               Print (Banner (region args) (table_prefix args));
               Print (Header "Step 1: Checking Tables") ]
          ++ concat (probe_events <$> (probe_results B (tables args) e0).1)
          ++ [ Print (Header "Step 2: Analyzing Tables");
               Print (Header "Review Complete!") ] |})
  ∧ Forall check_event
      (concat (probe_events <$> (probe_results B (tables args) e0).1))
  ∧ length (concat (probe_events <$> (probe_results B (tables args) e0).1)) = 12.
Proof.
  intros Hc Hnone. split_and!.
  - rewrite (main_connected B fuel args w e0 Hc).
    unfold review, print. unfold mbind at 1, M_bind at 1. unfold emit at 1.
    unfold mbind at 1, M_bind at 1. rewrite check_tables_spec.
    cbn [env events app].
    rewrite (probe_results_none_confirmed B (tables args) e0 Hnone).
    generalize (probe_results B (tables args) e0). intros [rs e'].
    unfold analyze_tables, review_accounts, review_transactions.
    rewrite !bool_decide_eq_false_2 by apply not_elem_of_nil.
    unfold print, emit, mbind, M_bind, mret, M_ret. cbn [env events fst snd].
    by rewrite <-!app_assoc.
  - apply probe_events_check.
  - pose proof (probe_results_tables B (tables args) e0) as Ht.
    apply (f_equal length) in Ht. rewrite length_fmap in Ht.
    revert Ht. generalize ((probe_results B (tables args) e0).1).
    intros rs Hlen. simpl in Hlen.
    do 7 (destruct rs as [|? rs]; [try discriminate|]); [done|discriminate].
Qed.

(** On an account without tables the run makes its six probes, prints
    six warnings, and ends with status 0. *)
Lemma main_without_tables_witness :
  main no_tables 0 default_args {| env := tt; events := [] |}
  = (Returned 0,
     {| env := tt;
        events :=
          [ Print (Header "BudgetBuddy Database Review");
            Print (Banner "us-east-1" "BudgetBuddy");
            Print (Header "Step 1: Checking Tables");
            CallDescribeTable "BudgetBuddy-Users";
            Print (TableMissing "BudgetBuddy-Users");
            CallDescribeTable "BudgetBuddy-Accounts";
            Print (TableMissing "BudgetBuddy-Accounts");
            CallDescribeTable "BudgetBuddy-Transactions";
            Print (TableMissing "BudgetBuddy-Transactions");
            CallDescribeTable "BudgetBuddy-Budgets";
            Print (TableMissing "BudgetBuddy-Budgets");
            CallDescribeTable "BudgetBuddy-Goals";
            Print (TableMissing "BudgetBuddy-Goals");
            CallDescribeTable "BudgetBuddy-AuditLogs";
            Print (TableMissing "BudgetBuddy-AuditLogs");
            Print (Header "Step 2: Analyzing Tables");
            Print (Header "Review Complete!") ] |}).
Proof.
  refine (proj1 (main_without_tables no_tables 0 default_args
                   {| env := tt; events := [] |} tt eq_refl _)).
  intros table e item_count. discriminate.
Defined.
